(** * Match lifecycle and settlement engine of the FreeBet API

    A shallow embedding of the Go code that merges feed records into the
    [epl_matches] table, selects the matches to settle and settles their
    wagers (the normalizers [processOddsEvent] and [processScoreEvent], the
    store methods of [PostgresDB] on matches and bets, and the handlers
    [oddsSyncHandler], [scoresSyncHandler] and [calcHandler]).

    Conventions of the embedding.
    - A table is the list of its rows, in storage order.  An [UPDATE] maps
      over the rows, an [INSERT] appends one, a [SELECT] filters.
    - A nullable column and a Go pointer field are an [option].
    - [DECIMAL(_, 2)] columns (odds, stakes, payouts, balances) hold an
      integer number of hundredths, in [Z].
    - Go [int] is 64 bits; scores are in [Z], bounded where [strconv.Atoi]
      bounds them.
    - A [time.Time] is a number of seconds counted from Go's zero instant,
      so that [IsZero] is equality with 0.
    - Every store call can fail.  Which calls fail is an input of the
      model (the records [StoreEnv], [TxFaults] and [CalcEnv]); a failing
      statement leaves the tables as they were.
    - The store's clock is an input too: [write_time] and [mark_time] are
      what [CURRENT_TIMESTAMP] and [NOW()] give when a match row is
      written. *)

From Stdlib Require Import ZArith List String Ascii Bool Lia DecimalString.
From Stdlib Require Import Sorted Permutation QArith.
Import ListNotations.
Open Scope string_scope.
Open Scope Z_scope.

(** ** Data model (models.go, postgres_init.sql) *)

Definition Time := Z.

(** A match, as the Go struct and as a row of [epl_matches].  [UpdatedAt] is
    the column [updated_at] of the row.  The Go struct has no such field: a
    fact built by a normalizer carries 0 there, no statement returns the
    column and no code reads it.  The column [created_at] is written once
    by the [INSERT] and neither read nor written again; it is left out. *)

Record Match := mkMatch {
  ID : string;
  APIID : string;
  HomeTeam : string;
  AwayTeam : string;
  CommenceTime : Time;
  HomeOdds : option Z;
  DrawOdds : option Z;
  AwayOdds : option Z;
  Completed : bool;
  HomeScore : option Z;
  AwayScore : option Z;
  Calculated : bool;
  Result : option string;
  UpdatedAt : Time
}.

(** A row of [bets]; the fields carry the column names. *)
Record Bet := mkBet {
  bet_id : string;
  user_id : string;
  match_id : string;
  bet_type : string;
  bet_amount : Z;
  odds : Z;
  potential_win : Z;
  status : string;
  bet_home_team : string;
  bet_away_team : string
}.

(** The columns of [users] that the engine reads or writes. *)
Record User := mkUser {
  id : string;
  money : Z
}.

Record DB := mkDB {
  epl_matches : list Match;
  bets : list Bet;
  users : list User
}.

Inductive error : Type :=
| ErrNoRows
| ErrUnique
| ErrStore
| ErrFetch
| ErrConfig.

Inductive Res (A : Type) : Type :=
| Ok (a : A)
| Err (e : error).
Arguments Ok {A} a.
Arguments Err {A} e.

(** ** Feed records (the Odds API types) *)

Record Outcome := mkOutcome {
  Name : string;
  Price : Z
}.

Record Market := mkMarket {
  Outcomes : list Outcome
}.

Record Bookmaker := mkBookmaker {
  Markets : list Market
}.

Record OddsAPIEvent := mkOddsAPIEvent {
  oe_ID : string;
  oe_CommenceTime : Time;
  oe_HomeTeam : string;
  oe_AwayTeam : string;
  Bookmakers : list Bookmaker
}.

Record ScoreEntry := mkScoreEntry {
  sc_Name : string;
  sc_Score : string
}.

Record ScoresAPIEvent := mkScoresAPIEvent {
  se_ID : string;
  se_CommenceTime : Time;
  se_HomeTeam : string;
  se_AwayTeam : string;
  se_Completed : bool;
  Scores : list ScoreEntry
}.

(** ** [strconv.Atoi]

    An optional sign, then one or more decimal digits, and the value must
    fit a 64-bit [int]; every other string is an error. *)

Definition int_min : Z := - 2 ^ 63.
Definition int_max : Z := 2 ^ 63 - 1.

Definition digit_of (c : ascii) : option Z :=
  let n := Z.of_nat (nat_of_ascii c) in
  if (48 <=? n) && (n <=? 57) then Some (n - 48) else None.

Fixpoint digits (s : string) (acc : Z) : option Z :=
  match s with
  | EmptyString => Some acc
  | String c s' =>
      match digit_of c with
      | Some d => digits s' (acc * 10 + d)
      | None => None
      end
  end.

Definition Atoi (s : string) : option Z :=
  match s with
  | EmptyString => None
  | String c rest =>
      let neg := Ascii.eqb c "-"%char in
      let body := if neg || Ascii.eqb c "+"%char then rest else s in
      match body with
      | EmptyString => None
      | _ =>
          match digits body 0 with
          | Some n =>
              let v := if neg then - n else n in
              if (int_min <=? v) && (v <=? int_max) then Some v else None
          | None => None
          end
      end
  end.

(** ** Event normalizers *)

(** The loop of [processOddsEvent] stores [&outcome.Price], the address of
    a field of the loop variable.  Since Go 1.22 every iteration has its own
    variable; before, the three pointers share one, which holds the last
    outcome when the loop ends.  [shared] selects the older semantics. *)
Fixpoint oddsLoop (home away : string) (outcomes : list Outcome)
    (acc : option Z * option Z * option Z) : option Z * option Z * option Z :=
  match outcomes with
  | [] => acc
  | o :: rest =>
      let '(h, d, a) := acc in
      if (Name o =? home)%string then oddsLoop home away rest (Some (Price o), d, a)
      else if (Name o =? away)%string then oddsLoop home away rest (h, d, Some (Price o))
      else if (Name o =? "Draw")%string then oddsLoop home away rest (h, Some (Price o), a)
      else oddsLoop home away rest acc
  end.

Definition lastPrice (outcomes : list Outcome) : option Z :=
  match rev outcomes with
  | o :: _ => Some (Price o)
  | [] => None
  end.

(** What a pointer to the shared loop variable reads after the loop. *)
Definition alias_to (last : option Z) (p : option Z) : option Z :=
  match p, last with
  | Some _, Some v => Some v
  | _, _ => p
  end.

Definition extractOdds (shared : bool) (event : OddsAPIEvent)
    : option Z * option Z * option Z :=
  match Bookmakers event with
  | b :: _ =>
      match Markets b with
      | mk :: _ =>
          let outcomes := Outcomes mk in
          let '(h, d, a) :=
            oddsLoop (oe_HomeTeam event) (oe_AwayTeam event) outcomes
                     (None, None, None) in
          if shared then
            let last := lastPrice outcomes in
            (alias_to last h, alias_to last d, alias_to last a)
          else (h, d, a)
      | [] => (None, None, None)
      end
  | [] => (None, None, None)
  end.

Definition processOddsEvent (shared : bool) (event : OddsAPIEvent) : Match :=
  let '(h, d, a) := extractOdds shared event in
  {| ID := ""; APIID := oe_ID event;
     HomeTeam := oe_HomeTeam event; AwayTeam := oe_AwayTeam event;
     CommenceTime := oe_CommenceTime event;
     HomeOdds := h; DrawOdds := d; AwayOdds := a;
     Completed := false;
     HomeScore := None; AwayScore := None;
     Calculated := false; Result := None; UpdatedAt := 0 |}.

Definition parseInto (cur : Z) (s : string) : Z :=
  if (s =? "")%string then cur
  else match Atoi s with
       | Some v => v
       | None => cur
       end.

Fixpoint scoreLoop (home away : string) (scores : list ScoreEntry)
    (homeScore awayScore : Z) : Z * Z :=
  match scores with
  | [] => (homeScore, awayScore)
  | sc :: rest =>
      if (sc_Name sc =? home)%string then
        scoreLoop home away rest (parseInto homeScore (sc_Score sc)) awayScore
      else if (sc_Name sc =? away)%string then
        scoreLoop home away rest homeScore (parseInto awayScore (sc_Score sc))
      else scoreLoop home away rest homeScore awayScore
  end.

Definition present (score : Z) : option Z :=
  if score =? -1 then None else Some score.

Definition processScoreEvent (event : ScoresAPIEvent) : Match :=
  let '(homeScore, awayScore) :=
    scoreLoop (se_HomeTeam event) (se_AwayTeam event) (Scores event) (-1) (-1) in
  {| ID := ""; APIID := se_ID event;
     HomeTeam := se_HomeTeam event; AwayTeam := se_AwayTeam event;
     CommenceTime := se_CommenceTime event;
     HomeOdds := None; DrawOdds := None; AwayOdds := None;
     Completed := se_Completed event;
     HomeScore := present homeScore; AwayScore := present awayScore;
     Calculated := false; Result := None; UpdatedAt := 0 |}.

(** ** Match store (methods of [PostgresDB]) *)

Definition hasAPIID (apiID : string) (m : Match) : bool :=
  (APIID m =? apiID)%string.

Definition GetMatchByAPIID (fails : bool) (db : DB) (apiID : string)
    : Res Match :=
  if fails then Err ErrStore
  else match find (hasAPIID apiID) (epl_matches db) with
       | Some m => Ok m
       | None => Err ErrNoRows
       end.

Definition orStored {A : Type} (incoming stored : option A) : option A :=
  match incoming with
  | Some v => Some v
  | None => stored
  end.

(** The [SET] list that [UpdateMatchByAPIID] builds, applied to one row;
    [now] is [CURRENT_TIMESTAMP]. *)
Definition setColumns (now : Time) (incoming stored : Match) : Match :=
  {| ID := ID stored;
     APIID := APIID stored;
     HomeTeam := if (HomeTeam incoming =? "")%string then HomeTeam stored
                 else HomeTeam incoming;
     AwayTeam := if (AwayTeam incoming =? "")%string then AwayTeam stored
                 else AwayTeam incoming;
     CommenceTime := if CommenceTime incoming =? 0 then CommenceTime stored
                     else CommenceTime incoming;
     HomeOdds := orStored (HomeOdds incoming) (HomeOdds stored);
     DrawOdds := orStored (DrawOdds incoming) (DrawOdds stored);
     AwayOdds := orStored (AwayOdds incoming) (AwayOdds stored);
     Completed := Completed incoming;
     HomeScore := orStored (HomeScore incoming) (HomeScore stored);
     AwayScore := orStored (AwayScore incoming) (AwayScore stored);
     Calculated := Calculated stored;
     Result := Result stored;
     UpdatedAt := now |}.

Definition withMatches (db : DB) (rows : list Match) : DB :=
  {| epl_matches := rows; bets := bets db; users := users db |}.

Definition UpdateMatchByAPIID (fails : bool) (now : Time) (db : DB)
    (apiID : string) (match_ : Match) : Res Match * DB :=
  if fails then (Err ErrStore, db)
  else
    let rows :=
      map (fun r => if hasAPIID apiID r then setColumns now match_ r else r)
          (epl_matches db) in
    match find (hasAPIID apiID) rows with
    | Some r => (Ok r, withMatches db rows)
    | None => (Err ErrNoRows, db)
    end.

Definition orSentinel (score : option Z) : Z :=
  match score with
  | Some v => v
  | None => -1
  end.

(** The [INSERT] of [UpsertMatch]: an absent score is written as -1, the
    surrogate id is drawn by the store, [updated_at] takes its default
    [CURRENT_TIMESTAMP], and [api_id] is [UNIQUE]. *)
Definition insertMatch (fails : bool) (newID : string) (now : Time) (db : DB)
    (match_ : Match) : Res Match * DB :=
  if fails then (Err ErrStore, db)
  else if existsb (hasAPIID (APIID match_)) (epl_matches db)
  then (Err ErrUnique, db)
  else
    let row :=
      {| ID := newID;
         APIID := APIID match_;
         HomeTeam := HomeTeam match_;
         AwayTeam := AwayTeam match_;
         CommenceTime := CommenceTime match_;
         HomeOdds := HomeOdds match_;
         DrawOdds := DrawOdds match_;
         AwayOdds := AwayOdds match_;
         Completed := Completed match_;
         HomeScore := Some (orSentinel (HomeScore match_));
         AwayScore := Some (orSentinel (AwayScore match_));
         Calculated := Calculated match_;
         Result := Result match_;
         UpdatedAt := now |} in
    (Ok row, withMatches db (epl_matches db ++ [row])%list).

(** What the store does, fails or draws while one feed record is handled;
    [write_time] is the store's clock at the write. *)
Record StoreEnv := mkStoreEnv {
  get_fails : bool;
  upsert_get_fails : bool;
  write_fails : bool;
  new_id : string;
  write_time : Time
}.

Definition UpsertMatch (env : StoreEnv) (db : DB) (match_ : Match)
    : Res Match * DB :=
  match GetMatchByAPIID (upsert_get_fails env) db (APIID match_) with
  | Ok _ =>
      UpdateMatchByAPIID (write_fails env) (write_time env) db (APIID match_)
        match_
  | Err _ =>
      insertMatch (write_fails env) (new_id env) (write_time env) db match_
  end.

Definition notNull (score : option Z) : bool :=
  match score with
  | Some _ => true
  | None => false
  end.

Definition notMinusOne (score : option Z) : bool :=
  match score with
  | Some v => negb (v =? -1)
  | None => false
  end.

(** The [WHERE] clause of [GetCompletedUncalculatedMatches]. *)
Definition completedUncalculated (m : Match) : bool :=
  Completed m && negb (Calculated m)
  && notNull (HomeScore m) && notNull (AwayScore m)
  && notMinusOne (HomeScore m) && notMinusOne (AwayScore m).

Definition GetCompletedUncalculatedMatches (fails : bool) (db : DB)
    : Res (list Match) :=
  if fails then Err ErrStore
  else Ok (filter completedUncalculated (epl_matches db)).

(** The [SET] list of [UpdateMatchCalculated]; [now] is [NOW()]. *)
Definition markCalculated (now : Time) (result : string) (m : Match) : Match :=
  {| ID := ID m; APIID := APIID m;
     HomeTeam := HomeTeam m; AwayTeam := AwayTeam m;
     CommenceTime := CommenceTime m;
     HomeOdds := HomeOdds m; DrawOdds := DrawOdds m; AwayOdds := AwayOdds m;
     Completed := Completed m;
     HomeScore := HomeScore m; AwayScore := AwayScore m;
     Calculated := true; Result := Some result; UpdatedAt := now |}.

Definition UpdateMatchCalculated (fails : bool) (now : Time) (db : DB)
    (apiID : string) (result : string) : option error * DB :=
  if fails then (Some ErrStore, db)
  else
    (None,
     withMatches db
       (map (fun r => if hasAPIID apiID r then markCalculated now result r
                      else r)
            (epl_matches db))).

(** ** Ledger store: the settlement transaction *)

(** A connection holds the committed tables and, while a transaction is
    open, the tables as the transaction sees them. *)
Record Conn := mkConn {
  committed : DB;
  pending : option DB
}.

Definition Begin (fails : bool) (c : Conn) : option error * Conn :=
  if fails then (Some ErrStore, c)
  else (None, {| committed := committed c; pending := Some (committed c) |}).

Definition Rollback (c : Conn) : Conn :=
  {| committed := committed c; pending := None |}.

Definition Commit (fails : bool) (c : Conn) : option error * Conn :=
  if fails then (Some ErrStore, c)
  else match pending c with
       | Some w => (None, {| committed := w; pending := None |})
       | None => (Some ErrStore, c)
       end.

Definition withStatus (s : string) (b : Bet) : Bet :=
  {| bet_id := bet_id b; user_id := user_id b; match_id := match_id b;
     bet_type := bet_type b; bet_amount := bet_amount b; odds := odds b;
     potential_win := potential_win b; status := s;
     bet_home_team := bet_home_team b; bet_away_team := bet_away_team b |}.

(** The [WHERE] clause and the [SET] clause of the bulk update. *)
Definition isPendingOn (matchAPIID : string) (b : Bet) : bool :=
  (match_id b =? matchAPIID)%string && (status b =? "pending")%string.

Definition newStatus (result : string) (b : Bet) : string :=
  if (bet_type b =? result)%string then "won" else "lost".

Definition settleBet (matchAPIID result : string) (b : Bet) : Bet :=
  if isPendingOn matchAPIID b then withStatus (newStatus result b) b else b.

Definition withBets (db : DB) (rows : list Bet) : DB :=
  {| epl_matches := epl_matches db; bets := rows; users := users db |}.

Definition withUsers (db : DB) (rows : list User) : DB :=
  {| epl_matches := epl_matches db; bets := bets db; users := rows |}.

(** A row of the [RETURNING] clause: user_id, potential_win, status. *)
Definition Returned : Type := string * Z * string.

Definition txUpdateBets (fails : bool) (c : Conn) (matchAPIID result : string)
    : Res (list Returned) * Conn :=
  if fails then (Err ErrStore, c)
  else match pending c with
       | None => (Err ErrStore, c)
       | Some w =>
           let touched := filter (isPendingOn matchAPIID) (bets w) in
           (Ok (map (fun b => (user_id b, potential_win b, newStatus result b))
                    touched),
            {| committed := committed c;
               pending :=
                 Some (withBets w (map (settleBet matchAPIID result) (bets w))) |})
       end.

Record winningBet := mkWinningBet {
  userID : string;
  potentialWin : Z
}.

Fixpoint collectWinners (scan_fails : nat -> bool) (i : nat)
    (rows : list Returned) (winningBets : list winningBet)
    : Res (list winningBet) :=
  match rows with
  | [] => Ok winningBets
  | (uid, win, st) :: rest =>
      if scan_fails i then Err ErrStore
      else if (st =? "won")%string
      then collectWinners scan_fails (S i) rest
             (winningBets ++ [{| userID := uid; potentialWin := win |}])%list
      else collectWinners scan_fails (S i) rest winningBets
  end.

Definition credit (bet : winningBet) (u : User) : User :=
  if (id u =? userID bet)%string
  then {| id := id u; money := money u + potentialWin bet |}
  else u.

Definition txCredit (fails : bool) (c : Conn) (bet : winningBet)
    : option error * Conn :=
  if fails then (Some ErrStore, c)
  else match pending c with
       | None => (Some ErrStore, c)
       | Some w =>
           (None,
            {| committed := committed c;
               pending := Some (withUsers w (map (credit bet) (users w))) |})
       end.

Fixpoint creditWinners (credit_fails : nat -> bool) (k : nat)
    (winningBets : list winningBet) (c : Conn) : option error * Conn :=
  match winningBets with
  | [] => (None, c)
  | bet :: rest =>
      match txCredit (credit_fails k) c bet with
      | (Some e, c') => (Some e, c')
      | (None, c') => creditWinners credit_fails (S k) rest c'
      end
  end.

(** The store calls of one settlement transaction that fail. *)
Record TxFaults := mkTxFaults {
  begin_fails : bool;
  update_fails : bool;
  scan_fails : nat -> bool;
  credit_fails : nat -> bool;
  commit_fails : bool
}.

Definition txBody (f : TxFaults) (c : Conn) (matchAPIID result : string)
    : option error * Conn :=
  match txUpdateBets (update_fails f) c matchAPIID result with
  | (Err e, c') => (Some e, c')
  | (Ok rows, c') =>
      match collectWinners (scan_fails f) 0 rows [] with
      | Err e => (Some e, c')
      | Ok winningBets =>
          match creditWinners (credit_fails f) 0 winningBets c' with
          | (Some e, c'') => (Some e, c'')
          | (None, c'') => Commit (commit_fails f) c''
          end
      end
  end.

(** [defer tx.Rollback(ctx)] runs on every return that follows a
    successful [Begin]; after a commit it changes nothing. *)
Definition UpdateBetsStatusAndUserMoney (f : TxFaults) (db : DB)
    (matchAPIID result : string) : option error * DB :=
  match Begin (begin_fails f) {| committed := db; pending := None |} with
  | (Some e, c) => (Some e, committed c)
  | (None, c) =>
      let (err, c') := txBody f c matchAPIID result in
      (err, committed (Rollback c'))
  end.

(** ** Feed client

    The provider's reply is an input.  A body is [None] when [Decode]
    rejects it before it reaches a record (it is not JSON, or a JSON value
    that is neither an array nor [null]), and the list of its raw records
    otherwise; the JSON value [null] decodes into the empty slice and is
    the body [Some []].  Of a raw record only the timestamp can be
    ill-formed here, and [time.Time]'s [UnmarshalJSON] then makes [Decode]
    fail for the whole array.  The usage counters read from the
    reply headers reach the summary only and are left out. *)

Inductive RawTime : Type :=
| GoodTime (t : Time)
| BadTime (text : string).

Record RawOddsRecord := mkRawOddsRecord {
  ro_id : string;
  ro_commence_time : RawTime;
  ro_home_team : string;
  ro_away_team : string;
  ro_bookmakers : list Bookmaker
}.

Record RawScoresRecord := mkRawScoresRecord {
  rs_id : string;
  rs_commence_time : RawTime;
  rs_home_team : string;
  rs_away_team : string;
  rs_completed : bool;
  rs_scores : list ScoreEntry
}.

Inductive HTTPReply (R : Type) : Type :=
| NoReply
| Reply (statusCode : Z) (body : option (list R)).
Arguments NoReply {R}.
Arguments Reply {R} statusCode body.

Definition decodeOddsRecord (r : RawOddsRecord) : option OddsAPIEvent :=
  match ro_commence_time r with
  | GoodTime t =>
      Some {| oe_ID := ro_id r; oe_CommenceTime := t;
              oe_HomeTeam := ro_home_team r; oe_AwayTeam := ro_away_team r;
              Bookmakers := ro_bookmakers r |}
  | BadTime _ => None
  end.

Definition decodeScoresRecord (r : RawScoresRecord) : option ScoresAPIEvent :=
  match rs_commence_time r with
  | GoodTime t =>
      Some {| se_ID := rs_id r; se_CommenceTime := t;
              se_HomeTeam := rs_home_team r; se_AwayTeam := rs_away_team r;
              se_Completed := rs_completed r; Scores := rs_scores r |}
  | BadTime _ => None
  end.

Fixpoint Decode {R E : Type} (one : R -> option E) (body : list R)
    : option (list E) :=
  match body with
  | [] => Some []
  | r :: rest =>
      match one r with
      | None => None
      | Some e =>
          match Decode one rest with
          | None => None
          | Some es => Some (e :: es)
          end
      end
  end.

Definition fetchFromAPI {R E : Type} (one : R -> option E) (apiKey : string)
    (reply : HTTPReply R) : Res (list E) :=
  if (apiKey =? "")%string then Err ErrConfig
  else match reply with
       | NoReply => Err ErrFetch
       | Reply statusCode body =>
           if negb (statusCode =? 200) then Err ErrFetch
           else match body with
                | None => Err ErrFetch
                | Some records =>
                    match Decode one records with
                    | None => Err ErrFetch
                    | Some events => Ok events
                    end
                end
       end.

Definition fetchOddsFromAPI := @fetchFromAPI _ _ decodeOddsRecord.
Definition fetchScoresFromAPI := @fetchFromAPI _ _ decodeScoresRecord.

(** ** Sync handlers (handlers.go) *)

Record Results := mkResults {
  created : Z;
  updated : Z;
  skipped : Z
}.

Definition noResults : Results := {| created := 0; updated := 0; skipped := 0 |}.

Definition incCreated (r : Results) : Results :=
  {| created := created r + 1; updated := updated r; skipped := skipped r |}.
Definition incUpdated (r : Results) : Results :=
  {| created := created r; updated := updated r + 1; skipped := skipped r |}.
Definition incSkipped (r : Results) : Results :=
  {| created := created r; updated := updated r; skipped := skipped r + 1 |}.

Definition withOdds (h d a : option Z) (m : Match) : Match :=
  {| ID := ID m; APIID := APIID m;
     HomeTeam := HomeTeam m; AwayTeam := AwayTeam m;
     CommenceTime := CommenceTime m;
     HomeOdds := h; DrawOdds := d; AwayOdds := a;
     Completed := Completed m;
     HomeScore := HomeScore m; AwayScore := AwayScore m;
     Calculated := Calculated m; Result := Result m;
     UpdatedAt := UpdatedAt m |}.

Definition orExisting (new old : option Z) : option Z :=
  match new with
  | None => old
  | Some _ => new
  end.

Definition allOdds (m : Match) : bool :=
  notNull (HomeOdds m) && notNull (DrawOdds m) && notNull (AwayOdds m).

(** The body of the loop of [oddsSyncHandler], for one event. *)
Definition oddsSyncStep (shared : bool) (env : StoreEnv) (event : OddsAPIEvent)
    (st : DB * Results) : DB * Results :=
  let (db, results) := st in
  let match_ := processOddsEvent shared event in
  match GetMatchByAPIID (get_fails env) db (APIID match_) with
  | Ok existingMatch =>
      let match_ :=
        withOdds (orExisting (HomeOdds match_) (HomeOdds existingMatch))
                 (orExisting (DrawOdds match_) (DrawOdds existingMatch))
                 (orExisting (AwayOdds match_) (AwayOdds existingMatch))
                 match_ in
      match UpdateMatchByAPIID (write_fails env) (write_time env) db
              (APIID match_) match_ with
      | (Err _, db') => (db', results)
      | (Ok _, db') => (db', incUpdated results)
      end
  | Err _ =>
      if negb (allOdds match_) then (db, incSkipped results)
      else match UpsertMatch env db match_ with
           | (Err _, db') => (db', results)
           | (Ok _, db') => (db', incCreated results)
           end
  end.

(** The body of the loop of [scoresSyncHandler], for one event. *)
Definition scoresSyncStep (env : StoreEnv) (score : ScoresAPIEvent)
    (st : DB * Results) : DB * Results :=
  let (db, results) := st in
  let match_ := processScoreEvent score in
  match GetMatchByAPIID (get_fails env) db (APIID match_) with
  | Ok existingMatch =>
      let match_ :=
        withOdds (HomeOdds existingMatch) (DrawOdds existingMatch)
                 (AwayOdds existingMatch) match_ in
      match UpdateMatchByAPIID (write_fails env) (write_time env) db
              (APIID match_) match_ with
      | (Err _, db') => (db', results)
      | (Ok _, db') => (db', incUpdated results)
      end
  | Err _ =>
      let match_ := withOdds None None None match_ in
      match UpsertMatch env db match_ with
      | (Err _, db') => (db', results)
      | (Ok _, db') => (db', incCreated results)
      end
  end.

(** [for _, event := range events]: the [i]-th record meets [envs i]. *)
Fixpoint syncLoop {E : Type} (step : StoreEnv -> E -> DB * Results -> DB * Results)
    (envs : nat -> StoreEnv) (i : nat) (events : list E) (st : DB * Results)
    : DB * Results :=
  match events with
  | [] => st
  | event :: rest => syncLoop step envs (S i) rest (step (envs i) event st)
  end.

Record CalculatedMatch := mkCalculatedMatch {
  cm_home_team : string;
  cm_away_team : string;
  cm_score : Z * Z;
  cm_result : string
}.

Inductive Response : Type :=
| Unauthorized
| InternalServerError
| SyncSummary (results : Results)
| CalcSummary (updatedCount : Z) (calculatedMatches : list CalculatedMatch).

Definition oddsSyncHandler (shared : bool) (admin : bool) (apiKey : string)
    (reply : HTTPReply RawOddsRecord) (envs : nat -> StoreEnv) (db : DB)
    : Response * DB :=
  if negb admin then (Unauthorized, db)
  else match fetchOddsFromAPI apiKey reply with
       | Err _ => (InternalServerError, db)
       | Ok [] => (SyncSummary noResults, db)
       | Ok events =>
           let (db', results) :=
             syncLoop (oddsSyncStep shared) envs 0 events (db, noResults) in
           (SyncSummary results, db')
       end.

Definition scoresSyncHandler (admin : bool) (apiKey : string)
    (reply : HTTPReply RawScoresRecord) (envs : nat -> StoreEnv) (db : DB)
    : Response * DB :=
  if negb admin then (Unauthorized, db)
  else match fetchScoresFromAPI apiKey reply with
       | Err _ => (InternalServerError, db)
       | Ok [] => (SyncSummary noResults, db)
       | Ok scores =>
           let (db', results) :=
             syncLoop scoresSyncStep envs 0 scores (db, noResults) in
           (SyncSummary results, db')
       end.

(** ** Settlement handler *)

Definition computeResult (homeScore awayScore : Z) : string :=
  if homeScore >? awayScore then "home"
  else if homeScore <? awayScore then "away"
  else "draw".

(** The store calls of one [calcHandler] run that fail: the candidate
    query, and for the [i]-th candidate the transaction and the follow-up
    write; [mark_time i] is the store's clock at that write. *)
Record CalcEnv := mkCalcEnv {
  select_fails : bool;
  tx_faults : nat -> TxFaults;
  mark_fails : nat -> bool;
  mark_time : nat -> Time
}.

Definition CalcState : Type := DB * Z * list CalculatedMatch.

(** The body of the loop of [calcHandler], for the [i]-th candidate. *)
Definition calcStep (env : CalcEnv) (i : nat) (match_ : Match) (st : CalcState)
    : CalcState :=
  let '(db, updatedCount, calculatedMatches) := st in
  match HomeScore match_, AwayScore match_ with
  | Some homeScore, Some awayScore =>
      let result := computeResult homeScore awayScore in
      match UpdateBetsStatusAndUserMoney (tx_faults env i) db (APIID match_) result with
      | (Some _, db') => (db', updatedCount, calculatedMatches)
      | (None, db') =>
          match UpdateMatchCalculated (mark_fails env i) (mark_time env i) db'
                  (APIID match_) result with
          | (Some _, db'') => (db'', updatedCount, calculatedMatches)
          | (None, db'') =>
              (db'', updatedCount + 1,
               (calculatedMatches ++
                  [{| cm_home_team := HomeTeam match_;
                      cm_away_team := AwayTeam match_;
                      cm_score := (homeScore, awayScore);
                      cm_result := result |}])%list)
          end
      end
  | _, _ => st
  end.

Fixpoint calcLoop (env : CalcEnv) (i : nat) (matches : list Match)
    (st : CalcState) : CalcState :=
  match matches with
  | [] => st
  | match_ :: rest => calcLoop env (S i) rest (calcStep env i match_ st)
  end.

(** The notification that follows the loop writes to no table; it is not
    part of the model. *)
Definition calcHandler (admin : bool) (env : CalcEnv) (db : DB)
    : Response * DB :=
  if negb admin then (Unauthorized, db)
  else match GetCompletedUncalculatedMatches (select_fails env) db with
       | Err _ => (InternalServerError, db)
       | Ok matches =>
           let '(db', updatedCount, calculatedMatches) :=
             calcLoop env 0 matches (db, 0, []) in
           (CalcSummary updatedCount calculatedMatches, db')
       end.

Definition noTxFaults : TxFaults :=
  {| begin_fails := false; update_fails := false;
     scan_fails := fun _ => false; credit_fails := fun _ => false;
     commit_fails := false |}.

Definition noCalcFaults : CalcEnv :=
  {| select_fails := false; tx_faults := fun _ => noTxFaults;
     mark_fails := fun _ => false; mark_time := fun _ => 1700020000 |}.

Definition noStoreFaults (newID : string) : StoreEnv :=
  {| get_fails := false; upsert_get_fails := false; write_fails := false;
     new_id := newID; write_time := 1699990000 |}.

(** ** Definitions used by the statements *)


Inductive Side : Type := HomeSide | AwaySide.

Definition sideScore (m : Match) (s : Side) : option Z :=
  match s with
  | HomeSide => HomeScore m
  | AwaySide => AwayScore m
  end.

(** Whether the loop of [processScoreEvent] assigns entry [e] to side [s]:
    the home branch is tried first. *)
Definition feeds (event : ScoresAPIEvent) (s : Side) (e : ScoreEntry) : bool :=
  match s with
  | HomeSide => (sc_Name e =? se_HomeTeam event)%string
  | AwaySide => negb (sc_Name e =? se_HomeTeam event)%string
                && (sc_Name e =? se_AwayTeam event)%string
  end.

Definition sideStep (event : ScoresAPIEvent) (s : Side) (cur : Z)
    (e : ScoreEntry) : Z :=
  if feeds event s e then parseInto cur (sc_Score e) else cur.

Definition scoreEvent_demo : ScoresAPIEvent :=
  {| se_ID := "e1"; se_CommenceTime := 1700000000;
     se_HomeTeam := "Arsenal"; se_AwayTeam := "Chelsea";
     se_Completed := true;
     Scores := [ {| sc_Name := "Arsenal"; sc_Score := "-1" |};
                 {| sc_Name := "Chelsea"; sc_Score := "0" |} ] |}.



(** The candidate predicate as the specification words it: completed, not
    calculated, both scores non-null. *)
Definition specCandidate (m : Match) : bool :=
  Completed m && negb (Calculated m)
  && notNull (HomeScore m) && notNull (AwayScore m).

Definition emptyDB : DB := {| epl_matches := []; bets := []; users := [] |}.

Definition storedMatch_demo : Match :=
  {| ID := "row-1"; APIID := "fx-1";
     HomeTeam := "Arsenal"; AwayTeam := "Chelsea"; CommenceTime := 1700000000;
     HomeOdds := Some 150; DrawOdds := Some 340; AwayOdds := Some 520;
     Completed := true; HomeScore := Some 2; AwayScore := Some 1;
     Calculated := false; Result := None; UpdatedAt := 1699900000 |}.

Definition matchDB_demo : DB :=
  {| epl_matches := [storedMatch_demo]; bets := []; users := [] |}.

Definition oddsRecord_demo : RawOddsRecord :=
  {| ro_id := "fx-1"; ro_commence_time := GoodTime 1700000000;
     ro_home_team := "Arsenal"; ro_away_team := "Chelsea";
     ro_bookmakers := [] |}.

Definition oddsEvent_demo : OddsAPIEvent :=
  {| oe_ID := "fx-1"; oe_CommenceTime := 1700000000;
     oe_HomeTeam := "Arsenal"; oe_AwayTeam := "Chelsea";
     Bookmakers :=
       [ {| Markets :=
              [ {| Outcomes :=
                     [ {| Name := "Arsenal"; Price := 155 |};
                       {| Name := "Chelsea"; Price := 510 |};
                       {| Name := "Draw"; Price := 350 |} ] |} ] |} ] |}.

(** A finished fixture that the scores feed reports without scores. *)
Definition scoresRecord_noScore : RawScoresRecord :=
  {| rs_id := "fx-2"; rs_commence_time := GoodTime 1700003600;
     rs_home_team := "Everton"; rs_away_team := "Fulham";
     rs_completed := true; rs_scores := [] |}.

Definition scoreless_demo : Match :=
  {| ID := "row-2"; APIID := "fx-2";
     HomeTeam := "Everton"; AwayTeam := "Fulham"; CommenceTime := 1700003600;
     HomeOdds := None; DrawOdds := None; AwayOdds := None;
     Completed := true; HomeScore := Some (-1); AwayScore := Some (-1);
     Calculated := false; Result := None; UpdatedAt := 1699990000 |}.

Definition factNoOdds_demo : Match :=
  {| ID := ""; APIID := "fx-1";
     HomeTeam := "Arsenal"; AwayTeam := "Chelsea"; CommenceTime := 1700000000;
     HomeOdds := None; DrawOdds := None; AwayOdds := None;
     Completed := true; HomeScore := None; AwayScore := None;
     Calculated := false; Result := None; UpdatedAt := 0 |}.


(** A winning wager: on the match, pending, and its selection equals the
    result. *)
Definition wins (matchAPIID result : string) (b : Bet) : bool :=
  (match_id b =? matchAPIID)%string && (status b =? "pending")%string
  && (bet_type b =? result)%string.

(** The total payout owed to user [uid]: the payouts of the user's pending
    wagers on the match whose selection equals the result. *)
Definition payoutDue (matchAPIID result : string) (bs : list Bet)
    (uid : string) : Z :=
  fold_right Z.add 0
    (map potential_win
       (filter (fun b => wins matchAPIID result b && (user_id b =? uid)%string)
               bs)).

Definition credited (matchAPIID result : string) (bs : list Bet) (u : User)
    : User :=
  {| id := id u; money := money u + payoutDue matchAPIID result bs (id u) |}.

(** The tables after a committed settlement transaction. *)
Definition settlement (db : DB) (matchAPIID result : string) : DB :=
  {| epl_matches := epl_matches db;
     bets := map (settleBet matchAPIID result) (bets db);
     users := map (credited matchAPIID result (bets db)) (users db) |}.

(** The tables after the follow-up write of [UpdateMatchCalculated]. *)
Definition marked (now : Time) (db : DB) (apiID result : string) : DB :=
  withMatches db
    (map (fun r => if hasAPIID apiID r then markCalculated now result r else r)
         (epl_matches db)).

Definition toWinningBet (b : Bet) : winningBet :=
  {| userID := user_id b; potentialWin := potential_win b |}.


Definition isWon (row : Returned) : bool :=
  let '(_, _, st) := row in (st =? "won")%string.

Definition rowWinner (row : Returned) : winningBet :=
  let '(uid, win, _) := row in {| userID := uid; potentialWin := win |}.

Definition creditAll (ws : list winningBet) (us : list User) : list User :=
  fold_left (fun us w => map (credit w) us) ws us.


Definition alice_demo : User := {| id := "u-alice"; money := 1000 |}.
Definition bob_demo : User := {| id := "u-bob"; money := 500 |}.

Definition betHome_demo : Bet :=
  {| bet_id := "b-1"; user_id := "u-alice"; match_id := "fx-1";
     bet_type := "home"; bet_amount := 200; odds := 150; potential_win := 300;
     status := "pending";
     bet_home_team := "Arsenal"; bet_away_team := "Chelsea" |}.

Definition betDraw_demo : Bet :=
  {| bet_id := "b-2"; user_id := "u-bob"; match_id := "fx-1";
     bet_type := "draw"; bet_amount := 100; odds := 340; potential_win := 340;
     status := "pending";
     bet_home_team := "Arsenal"; bet_away_team := "Chelsea" |}.

(** One finished match, 2-1, with a pending wager on home and one on draw. *)
Definition ledgerDB_demo : DB :=
  {| epl_matches := [storedMatch_demo];
     bets := [betHome_demo; betDraw_demo];
     users := [alice_demo; bob_demo] |}.

(** The first balance credit of the first candidate's transaction fails. *)
Definition creditFault_demo : CalcEnv :=
  {| select_fails := false;
     tx_faults := fun _ =>
       {| begin_fails := false; update_fails := false;
          scan_fails := fun _ => false; credit_fails := fun _ => true;
          commit_fails := false |};
     mark_fails := fun _ => false; mark_time := fun _ => 1700020000 |}.


(** The environments of a batch once the record at position [k] is taken
    out: the later records keep the environment they met. *)
Definition dropEnv (k : nat) (envs : nat -> StoreEnv) : nat -> StoreEnv :=
  fun i => if (i <? k)%nat then envs i else envs (S i).

Definition quoted_demo (fixture home away : string) : RawOddsRecord :=
  {| ro_id := fixture; ro_commence_time := GoodTime 1700000000;
     ro_home_team := home; ro_away_team := away;
     ro_bookmakers :=
       [ {| Markets :=
              [ {| Outcomes :=
                     [ {| Name := home; Price := 210 |};
                       {| Name := away; Price := 330 |};
                       {| Name := "Draw"; Price := 320 |} ] |} ] |} ] |}.

Definition nineValid_demo : list RawOddsRecord :=
  [ quoted_demo "fx-11" "Arsenal" "Chelsea";
    quoted_demo "fx-12" "Everton" "Fulham";
    quoted_demo "fx-13" "Liverpool" "Brentford";
    quoted_demo "fx-14" "Brighton" "Burnley";
    quoted_demo "fx-15" "Aston Villa" "Wolves";
    quoted_demo "fx-16" "Newcastle" "Tottenham";
    quoted_demo "fx-17" "West Ham" "Leeds";
    quoted_demo "fx-18" "Sunderland" "Bournemouth";
    quoted_demo "fx-19" "Crystal Palace" "Manchester City" ].

Definition malformed_demo : RawOddsRecord :=
  {| ro_id := "fx-10"; ro_commence_time := BadTime "tomorrow";
     ro_home_team := "Manchester United"; ro_away_team := "Nottingham Forest";
     ro_bookmakers := [] |}.

Definition batchEnvs_demo : nat -> StoreEnv := fun _ => noStoreFaults "row".

(** The store refuses the write of the second record of a batch. *)
Definition secondWriteFails_demo : nat -> StoreEnv :=
  fun i => {| get_fails := false; upsert_get_fails := false;
              write_fails := (i =? 1)%nat; new_id := "row";
              write_time := 1699990000 |}.

Definition threeEvents_demo : list OddsAPIEvent :=
  [ oddsEvent_demo;
    {| oe_ID := "fx-2"; oe_CommenceTime := 1700003600;
       oe_HomeTeam := "Everton"; oe_AwayTeam := "Fulham";
       Bookmakers :=
         [ {| Markets :=
                [ {| Outcomes :=
                       [ {| Name := "Everton"; Price := 210 |};
                         {| Name := "Fulham"; Price := 330 |};
                         {| Name := "Draw"; Price := 320 |} ] |} ] |} ] |};
    {| oe_ID := "fx-3"; oe_CommenceTime := 1700007200;
       oe_HomeTeam := "Liverpool"; oe_AwayTeam := "Brentford";
       Bookmakers :=
         [ {| Markets :=
                [ {| Outcomes :=
                       [ {| Name := "Liverpool"; Price := 140 |};
                         {| Name := "Brentford"; Price := 700 |};
                         {| Name := "Draw"; Price := 450 |} ] |} ] |} ] |} ].


(** A match reported as finished whose home score is null. *)
Definition nullScore_demo : Match :=
  {| ID := "row-3"; APIID := "fx-3";
     HomeTeam := "Liverpool"; AwayTeam := "Brentford"; CommenceTime := 1700007200;
     HomeOdds := Some 140; DrawOdds := Some 450; AwayOdds := Some 700;
     Completed := true; HomeScore := None; AwayScore := Some 0;
     Calculated := false; Result := None; UpdatedAt := 1699900000 |}.

Definition twoMatchDB_demo : DB :=
  {| epl_matches := [storedMatch_demo; nullScore_demo];
     bets := [betHome_demo; betDraw_demo];
     users := [alice_demo; bob_demo] |}.


(** *** Reachable states *)

(** One operation of the engine, on whatever input and with whatever store
    failures. *)
Inductive step : DB -> DB -> Prop :=
| step_odds_sync shared admin apiKey reply envs db :
    step db (snd (oddsSyncHandler shared admin apiKey reply envs db))
| step_scores_sync admin apiKey reply envs db :
    step db (snd (scoresSyncHandler admin apiKey reply envs db))
| step_settle admin env db :
    step db (snd (calcHandler admin env db)).

(** [api_id] is declared [UNIQUE]. *)
Definition uniqueIDs (db : DB) : Prop :=
  NoDup (map APIID (epl_matches db)).

Definition nothingSettled (db : DB) : Prop :=
  forall m, In m (epl_matches db) -> Calculated m = false.

(** The engine starts on tables in which no match is settled yet; the
    wagers and the balances are whatever placement made them. *)
Inductive reachable : DB -> Prop :=
| reach_start db : uniqueIDs db -> nothingSettled db -> reachable db
| reach_step db db' : reachable db -> step db db' -> reachable db'.

Inductive later : DB -> DB -> Prop :=
| later_now db : later db db
| later_step db db' db'' : later db db' -> step db' db'' -> later db db''.

Definition settledConsistent (db : DB) : Prop :=
  forall m, In m (epl_matches db) -> Calculated m = true ->
    (exists r, Result m = Some r)
    /\ forall b, In b (bets db) -> match_id b = APIID m -> status b <> "pending".

(** No row is dropped or moved, and a calculated row stays calculated with
    the same result. *)
Definition settledKept (db db' : DB) : Prop :=
  forall i m, nth_error (epl_matches db) i = Some m ->
    exists m',
      nth_error (epl_matches db') i = Some m'
      /\ APIID m' = APIID m
      /\ (Calculated m = true -> Calculated m' = true /\ Result m' = Result m).

(** The writes of the sync pipelines to the match table. *)
Inductive write : DB -> DB -> Prop :=
| write_none db : write db db
| write_update db apiID now fact :
    write db
      (withMatches db
         (map (fun r => if hasAPIID apiID r then setColumns now fact r else r)
              (epl_matches db)))
| write_insert db row :
    Calculated row = false ->
    existsb (hasAPIID (APIID row)) (epl_matches db) = false ->
    write db (withMatches db (epl_matches db ++ [row])%list).

Definition consistentSince (db0 db : DB) : Prop :=
  uniqueIDs db /\ settledConsistent db /\ settledKept db0 db.


(** *** The second settlement run *)

(** The tables without the wagers on one match. *)
Definition notOn (apiID : string) (b : Bet) : bool :=
  negb (match_id b =? apiID)%string.

Definition withoutWagersOn (apiID : string) (db : DB) : DB :=
  withBets db (filter (notOn apiID) (bets db)).

(** Whether, and with which error, a settlement transaction fails; it
    depends on the failing calls and on the rows that the bulk update
    returns only. *)
Fixpoint creditError (credit_fails : nat -> bool) (k : nat)
    (winningBets : list winningBet) : option error :=
  match winningBets with
  | [] => None
  | _ :: rest =>
      if credit_fails k then Some ErrStore
      else creditError credit_fails (S k) rest
  end.

Definition returnedRows (matchAPIID result : string) (bs : list Bet)
    : list Returned :=
  map (fun b => (user_id b, potential_win b, newStatus result b))
      (filter (isPendingOn matchAPIID) bs).

Definition txError (f : TxFaults) (rows : list Returned) : option error :=
  if begin_fails f then Some ErrStore
  else if update_fails f then Some ErrStore
  else match collectWinners (scan_fails f) 0 rows [] with
       | Err e => Some e
       | Ok winningBets =>
           match creditError (credit_fails f) 0 winningBets with
           | Some e => Some e
           | None => if commit_fails f then Some ErrStore else None
           end
       end.

Definition cleanRun (env : CalcEnv) : Prop :=
  select_fails env = false
  /\ (forall i, tx_faults env i = noTxFaults)
  /\ (forall i, mark_fails env i = false).

(** The transaction of the first candidate cannot be opened. *)
Definition firstTxFails_demo : CalcEnv :=
  {| select_fails := false;
     tx_faults := fun i =>
       {| begin_fails := (i =? 0)%nat; update_fails := false;
          scan_fails := fun _ => false; credit_fails := fun _ => false;
          commit_fails := false |};
     mark_fails := fun _ => false; mark_time := fun _ => 1700020000 |}.

Definition settledMatch_demo : Match :=
  {| ID := "row-4"; APIID := "fx-4";
     HomeTeam := "Brighton"; AwayTeam := "Burnley"; CommenceTime := 1700010800;
     HomeOdds := Some 180; DrawOdds := Some 360; AwayOdds := Some 420;
     Completed := true; HomeScore := Some 1; AwayScore := Some 1;
     Calculated := false; Result := None; UpdatedAt := 1699900000 |}.

Definition betOnFour_demo : Bet :=
  {| bet_id := "b-3"; user_id := "u-bob"; match_id := "fx-4";
     bet_type := "draw"; bet_amount := 100; odds := 360; potential_win := 360;
     status := "pending";
     bet_home_team := "Brighton"; bet_away_team := "Burnley" |}.

(** Two finished matches with pending wagers. *)
Definition twoFinishedDB_demo : DB :=
  {| epl_matches := [storedMatch_demo; settledMatch_demo];
     bets := [betHome_demo; betDraw_demo; betOnFour_demo];
     users := [alice_demo; bob_demo] |}.


Definition liftDB (g : DB -> DB) (st : CalcState) : CalcState :=
  let '(db, n, l) := st in (g db, n, l).


(** ** Definitions used by the further properties *)

(** A score that the feed reported: stored, and not the -1 written for an
    absent one. *)
Definition known (score : option Z) : Prop :=
  exists v, score = Some v /\ v <> -1.

(** The writes of the sync pipelines to the match table, with what the
    normalizers guarantee about the fact written: it never carries the
    score -1, and a new row is neither calculated nor has a result. *)
Inductive feedWrite : DB -> DB -> Prop :=
| feed_none db : feedWrite db db
| feed_update db apiID now fact :
    HomeScore fact <> Some (-1) -> AwayScore fact <> Some (-1) ->
    feedWrite db
      (withMatches db
         (map (fun r => if hasAPIID apiID r then setColumns now fact r else r)
              (epl_matches db)))
| feed_insert db row :
    Calculated row = false -> Result row = None ->
    HomeScore row <> None -> AwayScore row <> None ->
    existsb (hasAPIID (APIID row)) (epl_matches db) = false ->
    feedWrite db (withMatches db (epl_matches db ++ [row])%list).

Definition scoresStored (db : DB) : Prop :=
  forall m, In m (epl_matches db) -> HomeScore m <> None /\ AwayScore m <> None.

(** Two wagers that differ at most in their status. *)
Definition sameWager (b b' : Bet) : Prop :=
  bet_id b' = bet_id b /\ user_id b' = user_id b /\ match_id b' = match_id b
  /\ bet_type b' = bet_type b /\ bet_amount b' = bet_amount b
  /\ odds b' = odds b /\ potential_win b' = potential_win b
  /\ bet_home_team b' = bet_home_team b /\ bet_away_team b' = bet_away_team b.

(** How a wager may differ after operations of the engine: not at all, or
    by leaving "pending" for a status that the settlement wrote. *)
Definition wagerAged (b b' : Bet) : Prop :=
  sameWager b b'
  /\ (status b <> "pending" -> b' = b)
  /\ (status b' = status b \/ status b' = "won" \/ status b' = "lost").

Definition ledgerAged (db db' : DB) : Prop :=
  List.length (bets db') = List.length (bets db)
  /\ forall j b, nth_error (bets db) j = Some b ->
       exists b', nth_error (bets db') j = Some b' /\ wagerAged b b'.


(** A stored match with a known score, and the scores feed reporting the
    same fixture without scores. *)
Definition scoresRecord_blank : RawScoresRecord :=
  {| rs_id := "fx-1"; rs_commence_time := GoodTime 1700000000;
     rs_home_team := "Arsenal"; rs_away_team := "Chelsea";
     rs_completed := false; rs_scores := [] |}.

Definition afterBlankScores_demo : DB :=
  snd (scoresSyncHandler true "key" (Reply 200 (Some [scoresRecord_blank]))
         batchEnvs_demo ledgerDB_demo).


(** What a sync leaves alone. *)
Definition syncFrame (db db' : DB) : Prop :=
  bets db' = bets db /\ users db' = users db
  /\ (List.length (epl_matches db) <= List.length (epl_matches db'))%nat
  /\ forall i m, nth_error (epl_matches db) i = Some m ->
       exists m',
         nth_error (epl_matches db') i = Some m'
         /\ ID m' = ID m /\ APIID m' = APIID m
         /\ Calculated m' = Calculated m /\ Result m' = Result m.


(** The row that the [INSERT] of [UpsertMatch] stores for a fact. *)
Definition newRow (newID : string) (now : Time) (fact : Match) : Match :=
  {| ID := newID;
     APIID := APIID fact;
     HomeTeam := HomeTeam fact;
     AwayTeam := AwayTeam fact;
     CommenceTime := CommenceTime fact;
     HomeOdds := HomeOdds fact;
     DrawOdds := DrawOdds fact;
     AwayOdds := AwayOdds fact;
     Completed := Completed fact;
     HomeScore := Some (orSentinel (HomeScore fact));
     AwayScore := Some (orSentinel (AwayScore fact));
     Calculated := Calculated fact;
     Result := Result fact;
     UpdatedAt := now |}.

(** Two facts that agree on everything a merge-update writes but the odds. *)
Definition sameReport (f f' : Match) : Prop :=
  HomeTeam f = HomeTeam f' /\ AwayTeam f = AwayTeam f'
  /\ CommenceTime f = CommenceTime f' /\ Completed f = Completed f'
  /\ HomeScore f = HomeScore f' /\ AwayScore f = AwayScore f'.

Definition absorbs (o o' : option Z) : Prop := o = None \/ o = o'.

Definition oddsAbsorbed (f f' : Match) : Prop :=
  absorbs (HomeOdds f) (HomeOdds f') /\ absorbs (DrawOdds f) (DrawOdds f')
  /\ absorbs (AwayOdds f) (AwayOdds f').

(** The fact that [oddsSyncHandler] writes on an existing match. *)
Definition premerged (fact existing : Match) : Match :=
  withOdds (orExisting (HomeOdds fact) (HomeOdds existing))
           (orExisting (DrawOdds fact) (DrawOdds existing))
           (orExisting (AwayOdds fact) (AwayOdds existing)) fact.

(** The fact that [scoresSyncHandler] writes on an existing match. *)
Definition withOddsOf (existing fact : Match) : Match :=
  withOdds (HomeOdds existing) (DrawOdds existing) (AwayOdds existing) fact.

Definition noFaults (env : StoreEnv) : Prop :=
  get_fails env = false /\ upsert_get_fails env = false
  /\ write_fails env = false.

Definition scoreEvent_known : ScoresAPIEvent :=
  {| se_ID := "fx-2"; se_CommenceTime := 1700003600;
     se_HomeTeam := "Everton"; se_AwayTeam := "Fulham";
     se_Completed := true;
     Scores := [ {| sc_Name := "Everton"; sc_Score := "3" |};
                 {| sc_Name := "Fulham"; sc_Score := "0" |} ] |}.

Definition allFail_demo : StoreEnv :=
  {| get_fails := true; upsert_get_fails := true; write_fails := true;
     new_id := "row-x"; write_time := 1699990000 |}.


Definition counted (r : Results) : Z := created r + updated r + skipped r.


Definition totalMoney (us : list User) : Z :=
  fold_right Z.add 0 (map money us).

Definition totalPayout (matchAPIID result : string) (bs : list Bet) : Z :=
  fold_right Z.add 0
    (map potential_win (filter (wins matchAPIID result) bs)).

(** Every winning wager on the match belongs to a stored user (the foreign
    key of [bets.user_id]). *)
Definition winnersExist (matchAPIID result : string) (db : DB) : Prop :=
  forall b, In b (bets db) -> wins matchAPIID result b = true ->
            In (user_id b) (map id (users db)).

Definition noPendingOn (matchAPIID : string) (db : DB) : Prop :=
  forall b, In b (bets db) -> match_id b = matchAPIID -> status b <> "pending".


(** The entry that [calcHandler] reports for a settled candidate. *)
Definition reportOf (c : Match) (homeScore awayScore : Z) : CalculatedMatch :=
  {| cm_home_team := HomeTeam c; cm_away_team := AwayTeam c;
     cm_score := (homeScore, awayScore);
     cm_result := computeResult homeScore awayScore |}.

(** The result that a score gives, spelled out. *)
Definition resultOf (homeScore awayScore : Z) (result : string) : Prop :=
  (homeScore > awayScore /\ result = "home")
  \/ (homeScore < awayScore /\ result = "away")
  \/ (homeScore = awayScore /\ result = "draw").

(** A reported entry: its result is the one of its score, and it carries
    the teams and the stored scores of one of the candidates. *)
Definition soundEntry (cands : list Match) (cm : CalculatedMatch) : Prop :=
  resultOf (fst (cm_score cm)) (snd (cm_score cm)) (cm_result cm)
  /\ exists c,
       In c cands
       /\ cm_home_team cm = HomeTeam c /\ cm_away_team cm = AwayTeam c
       /\ HomeScore c = Some (fst (cm_score cm))
       /\ AwayScore c = Some (snd (cm_score cm)).

(** Two rows that agree on every column but [calculated], [result] and
    [updated_at]. *)
Definition sameFacts (r r' : Match) : Prop :=
  ID r' = ID r /\ APIID r' = APIID r
  /\ HomeTeam r' = HomeTeam r /\ AwayTeam r' = AwayTeam r
  /\ CommenceTime r' = CommenceTime r
  /\ HomeOdds r' = HomeOdds r /\ DrawOdds r' = DrawOdds r
  /\ AwayOdds r' = AwayOdds r
  /\ Completed r' = Completed r
  /\ HomeScore r' = HomeScore r /\ AwayScore r' = AwayScore r.

(** How a run of [calcHandler] may leave a row: as it was, or, for a
    completed row that is not calculated and has both scores, neither of
    them -1, calculated with the result of these scores. *)
Definition keptOrSettled (env : CalcEnv) (m m' : Match) : Prop :=
  m' = m
  \/ (Completed m = true /\ Calculated m = false
      /\ exists hs aw result,
           HomeScore m = Some hs /\ AwayScore m = Some aw
           /\ hs <> -1 /\ aw <> -1
           /\ resultOf hs aw result
           /\ sameFacts m m'
           /\ Calculated m' = true /\ Result m' = Some result
           /\ exists k, UpdatedAt m' = mark_time env k).


(** The outcomes that [processOddsEvent] reads: those of the first market
    of the first bookmaker. *)
Definition quotedOutcomes (event : OddsAPIEvent) : list Outcome :=
  match Bookmakers event with
  | b :: _ =>
      match Markets b with
      | mk :: _ => Outcomes mk
      | [] => []
      end
  | [] => []
  end.

(** Which branch of the loop of [processOddsEvent] an outcome takes. *)
Definition quotesHome (event : OddsAPIEvent) (o : Outcome) : bool :=
  (Name o =? oe_HomeTeam event)%string.

Definition quotesAway (event : OddsAPIEvent) (o : Outcome) : bool :=
  negb (Name o =? oe_HomeTeam event)%string
  && (Name o =? oe_AwayTeam event)%string.

Definition quotesDraw (event : OddsAPIEvent) (o : Outcome) : bool :=
  negb (Name o =? oe_HomeTeam event)%string
  && negb (Name o =? oe_AwayTeam event)%string
  && (Name o =? "Draw")%string.

Definition lastQuote (p : Outcome -> bool) (outcomes : list Outcome)
    : option Z :=
  option_map Price (find p (rev outcomes)).

(** A second bookmaker quotes, the first one has no market. *)
Definition secondBookmaker_demo : OddsAPIEvent :=
  {| oe_ID := "fx-5"; oe_CommenceTime := 1700014400;
     oe_HomeTeam := "Arsenal"; oe_AwayTeam := "Chelsea";
     Bookmakers :=
       [ {| Markets := [] |};
         {| Markets :=
              [ {| Outcomes :=
                     [ {| Name := "Arsenal"; Price := 155 |};
                       {| Name := "Chelsea"; Price := 510 |};
                       {| Name := "Draw"; Price := 350 |} ] |} ] |} ] |}.


(** ** Helpers of handlers.go *)

(** [strings.Repeat] for a count that is not negative. *)
Fixpoint Repeat (s : string) (count : nat) : string :=
  match count with
  | O => ""
  | S n => (s ++ Repeat s n)%string
  end.

(** [len] counts bytes and a slice expression cuts between bytes, as
    [String.length] and [substring] do. *)
Definition maskToken (token : string) : string :=
  let n := String.length token in
  if (n <=? 8)%nat then Repeat "*" n
  else (substring 0 4 token ++ Repeat "*" (n - 8)
        ++ substring (n - 4) 4 token)%string.


(** [fmt.Sprintf("%d", n)]. *)
Definition Itoa (n : Z) : string := NilZero.string_of_int (Z.to_int n).

(** Go's [/] and [%] on integers truncate toward zero: [Z.quot], [Z.rem]. *)
Definition formatUptime (seconds : Z) : string :=
  let days := Z.quot seconds 86400 in
  let hours := Z.quot (Z.rem seconds 86400) 3600 in
  let minutes := Z.quot (Z.rem seconds 3600) 60 in
  let secs := Z.rem seconds 60 in
  if days >? 0 then (Itoa days ++ "d " ++ Itoa hours ++ "h")%string
  else if hours >? 0 then (Itoa hours ++ "h " ++ Itoa minutes ++ "m")%string
  else if minutes >? 0 then (Itoa minutes ++ "m " ++ Itoa secs ++ "s")%string
  else (Itoa secs ++ "s")%string.


(** ** The players page (getPlayersHandler) *)

(** Go's [int] addition wraps around at 64 bits. *)
Definition wrap64 (z : Z) : Z := (z + 2 ^ 63) mod 2 ^ 64 - 2 ^ 63.

Record PaginationInfo := mkPaginationInfo {
  pg_Limit : Z;
  pg_Offset : Z;
  pg_Total : Z;
  pg_HasMore : bool
}.

Inductive PlayersReply (P : Type) : Type :=
| PlayersError
| PlayersOK (players : list P) (pagination : PaginationInfo).
Arguments PlayersError {P}.
Arguments PlayersOK {P} players pagination.

Definition parseLimit (DefaultPlayerLimit MaxPlayerLimit : Z)
    (limitParam : string) : Z :=
  if negb (limitParam =? "")%string then
    match Atoi limitParam with
    | Some parsedLimit =>
        if (parsedLimit >? 0) && (parsedLimit <=? MaxPlayerLimit)
        then parsedLimit else DefaultPlayerLimit
    | None => DefaultPlayerLimit
    end
  else DefaultPlayerLimit.

Definition parseOffset (offsetParam : string) : Z :=
  if negb (offsetParam =? "")%string then
    match Atoi offsetParam with
    | Some parsedOffset => if parsedOffset >=? 0 then parsedOffset else 0
    | None => 0
    end
  else 0.

(** The rows of a player are the store's; what the two store calls answer
    is an input.  A missing query parameter reads as the empty string. *)
Definition getPlayersHandler {P : Type} (DefaultPlayerLimit MaxPlayerLimit : Z)
    (limitParam offsetParam : string)
    (GetPlayers : Z -> Z -> Res (list P)) (GetTotalPlayers : Res Z)
    : PlayersReply P :=
  let limit := parseLimit DefaultPlayerLimit MaxPlayerLimit limitParam in
  let offset := parseOffset offsetParam in
  match GetPlayers limit offset with
  | Err _ => PlayersError
  | Ok players =>
      match GetTotalPlayers with
      | Err _ => PlayersError
      | Ok total =>
          PlayersOK players
            {| pg_Limit := limit; pg_Offset := offset; pg_Total := total;
               pg_HasMore := wrap64 (offset + limit) <? total |}
      end
  end.


(** ** The matches on offer (GetMatches, getMatchesHandler) *)

Definition nonZero (o : option Z) : bool :=
  match o with
  | Some v => negb (v =? 0)
  | None => false
  end.

(** The [WHERE] clause of [GetMatches]; [now] is [CURRENT_TIMESTAMP]. *)
Definition onOffer (now : Time) (m : Match) : bool :=
  notNull (HomeOdds m) && notNull (DrawOdds m) && notNull (AwayOdds m)
  && nonZero (HomeOdds m) && nonZero (DrawOdds m) && nonZero (AwayOdds m)
  && (CommenceTime m >? now).

(** [ORDER BY commence_time ASC].  Rows with the same kick-off time stay in
    storage order here; the store is free to return them in another
    order. *)
Fixpoint insertByTime (m : Match) (l : list Match) : list Match :=
  match l with
  | [] => [m]
  | x :: rest =>
      if CommenceTime m <=? CommenceTime x then m :: l
      else x :: insertByTime m rest
  end.

Definition orderByCommenceTime (l : list Match) : list Match :=
  fold_right insertByTime [] l.

Definition GetMatches (fails : bool) (now : Time) (db : DB) : Res (list Match) :=
  if fails then Err ErrStore
  else Ok (orderByCommenceTime (filter (onOffer now) (epl_matches db))).

Record MatchDisplay := mkMatchDisplay {
  md_ID : string;
  md_HomeTeam : string;
  md_AwayTeam : string;
  md_CommenceTime : Time;
  md_HomeOdds : option Z;
  md_DrawOdds : option Z;
  md_AwayOdds : option Z
}.

Inductive MatchesReply : Type :=
| MatchesError
| MatchesOK (matches : list MatchDisplay).

Definition toDisplay (match_ : Match) : MatchDisplay :=
  {| md_ID := APIID match_;
     md_HomeTeam := HomeTeam match_;
     md_AwayTeam := AwayTeam match_;
     md_CommenceTime := CommenceTime match_;
     md_HomeOdds := HomeOdds match_;
     md_DrawOdds := DrawOdds match_;
     md_AwayOdds := AwayOdds match_ |}.

Definition getMatchesHandler (fails : bool) (now : Time) (db : DB)
    : MatchesReply :=
  match GetMatches fails now db with
  | Err _ => MatchesError
  | Ok matches => MatchesOK (map toDisplay matches)
  end.

Definition earlier (a b : Match) : Prop := CommenceTime a <= CommenceTime b.


(** ** Placing a wager (placeBetHandler, PlaceBet, UpdateUserMoney) *)

(** The handler computes on [float64] while the store keeps DECIMAL columns.
    The floating-point operations and the conversions between the two stay
    abstract: the properties below hold whatever they compute.  A conversion
    into a DECIMAL column may be refused by the store (overflow, NaN). *)
Record Float64 := mkFloat64 {
  float64 : Type;
  f_leZero : float64 -> bool;
  f_gt : float64 -> float64 -> bool;
  f_sub : float64 -> float64 -> float64;
  f_mul : float64 -> float64 -> float64;
  f_scanMoney : Z -> float64;
  f_storeMoney : float64 -> option Z;
  f_storeOdds : float64 -> option Z
}.

Record PlaceBetRequest (fl : Float64) := mkPlaceBetRequest {
  req_MatchID : string;
  req_BetType : string;
  req_BetAmount : float64 fl;
  req_Odds : float64 fl;
  req_HomeTeam : string;
  req_AwayTeam : string
}.
Arguments req_MatchID {fl} _.
Arguments req_BetType {fl} _.
Arguments req_BetAmount {fl} _.
Arguments req_Odds {fl} _.
Arguments req_HomeTeam {fl} _.
Arguments req_AwayTeam {fl} _.

(** The Go value [Bet] that the handler builds. *)
Record GoBet (fl : Float64) := mkGoBet {
  b_BetID : string;
  b_UserID : string;
  b_MatchID : string;
  b_BetType : string;
  b_BetAmount : float64 fl;
  b_Odds : float64 fl;
  b_PotentialWin : float64 fl;
  b_Status : string;
  b_HomeTeam : string;
  b_AwayTeam : string
}.
Arguments b_BetID {fl} _.
Arguments b_UserID {fl} _.
Arguments b_MatchID {fl} _.
Arguments b_BetType {fl} _.
Arguments b_BetAmount {fl} _.
Arguments b_Odds {fl} _.
Arguments b_PotentialWin {fl} _.
Arguments b_Status {fl} _.
Arguments b_HomeTeam {fl} _.
Arguments b_AwayTeam {fl} _.

Record BetInfo (fl : Float64) := mkBetInfo {
  info_ID : string;
  info_Amount : float64 fl;
  info_Odds : float64 fl;
  info_PotentialWin : float64 fl;
  info_NewBalance : float64 fl
}.

Inductive BetReply (fl : Float64) : Type :=
| BetError (statusCode : Z) (message : string)
| BetOK (bet : BetInfo fl).
Arguments BetError {fl} statusCode message.
Arguments BetOK {fl} bet.

Definition TrimPrefix (s p : string) : string :=
  if String.prefix p s
  then substring (String.length p) (String.length s - String.length p) s
  else s.

Definition hasUserID (userID : string) (u : User) : bool :=
  (id u =? userID)%string.

Definition GetUserByID (fails : bool) (db : DB) (userID : string) : Res User :=
  if fails then Err ErrStore
  else match find (hasUserID userID) (users db) with
       | Some u => Ok u
       | None => Err ErrNoRows
       end.

Definition GetMatchByID (fails : bool) (db : DB) (matchID : string)
    : Res Match :=
  GetMatchByAPIID fails db matchID.

Definition setMoney (userID : string) (newMoney : Z) (u : User) : User :=
  if (id u =? userID)%string
  then {| id := id u; money := newMoney |}
  else u.

Definition UpdateUserMoney (fl : Float64) (fails : bool) (db : DB)
    (userID : string) (newMoney : float64 fl) : option error * DB :=
  if fails then (Some ErrStore, db)
  else match f_storeMoney fl newMoney with
       | None => (Some ErrStore, db)
       | Some v => (None, withUsers db (map (setMoney userID v) (users db)))
       end.

Definition withBetID {fl : Float64} (betID : string) (bet : GoBet fl)
    : GoBet fl :=
  {| b_BetID := betID; b_UserID := b_UserID bet; b_MatchID := b_MatchID bet;
     b_BetType := b_BetType bet; b_BetAmount := b_BetAmount bet;
     b_Odds := b_Odds bet; b_PotentialWin := b_PotentialWin bet;
     b_Status := b_Status bet; b_HomeTeam := b_HomeTeam bet;
     b_AwayTeam := b_AwayTeam bet |}.

(** [INSERT INTO bets ... RETURNING bet_id]; [newID] is the generated key.
    [user_id] references [users(id)]. *)
Definition PlaceBet (fl : Float64) (fails : bool) (newID : string) (db : DB)
    (bet : GoBet fl) : Res (GoBet fl) * DB :=
  if fails then (Err ErrStore, db)
  else if negb (existsb (hasUserID (b_UserID bet)) (users db))
  then (Err ErrStore, db)
  else
    match f_storeMoney fl (b_BetAmount bet), f_storeOdds fl (b_Odds bet),
          f_storeMoney fl (b_PotentialWin bet) with
    | Some amount, Some price, Some win =>
        (Ok (withBetID newID bet),
         withBets db
           (bets db ++
            [{| bet_id := newID; user_id := b_UserID bet;
                match_id := b_MatchID bet; bet_type := b_BetType bet;
                bet_amount := amount; odds := price; potential_win := win;
                status := b_Status bet; bet_home_team := b_HomeTeam bet;
                bet_away_team := b_AwayTeam bet |}])%list)
    | _, _, _ => (Err ErrStore, db)
    end.

Record PlaceEnv := mkPlaceEnv {
  user_fails : bool;
  match_fails : bool;
  place_fails : bool;
  money_fails : bool;
  new_bet_id : string
}.

Definition placeBetHandler (fl : Float64)
    (validateAccessToken : string -> Res string) (env : PlaceEnv)
    (now : Time) (authHeader : string) (body : option (PlaceBetRequest fl))
    (db : DB) : BetReply fl * DB :=
  if (authHeader =? "")%string || negb (String.prefix "Bearer " authHeader)
  then (BetError 401 "No access token", db)
  else
    let tokenString := TrimPrefix authHeader "Bearer " in
    match validateAccessToken tokenString with
    | Err _ => (BetError 401 "Invalid access token", db)
    | Ok claimsUserID =>
    match GetUserByID (user_fails env) db claimsUserID with
    | Err _ => (BetError 404 "User not found", db)
    | Ok user =>
    match body with
    | None => (BetError 400 "Invalid JSON", db)
    | Some req =>
    let userMoney := f_scanMoney fl (money user) in
    if (req_MatchID req =? "")%string || (req_BetType req =? "")%string
       || f_leZero fl (req_BetAmount req) || f_leZero fl (req_Odds req)
    then (BetError 400 "Missing required fields", db)
    else if f_gt fl (req_BetAmount req) userMoney
    then (BetError 400 "Insufficient balance", db)
    else if negb (req_BetType req =? "home")%string
            && negb (req_BetType req =? "draw")%string
            && negb (req_BetType req =? "away")%string
    then (BetError 400 "Invalid bet type", db)
    else
    match GetMatchByID (match_fails env) db (req_MatchID req) with
    | Err _ => (BetError 404 "Match not found", db)
    | Ok match_ =>
    if CommenceTime match_ <? now
    then (BetError 400
            "Cannot place bet on a match that has already started", db)
    else
    let bet :=
      {| b_BetID := ""; b_UserID := id user; b_MatchID := req_MatchID req;
         b_BetType := req_BetType req; b_BetAmount := req_BetAmount req;
         b_Odds := req_Odds req;
         b_PotentialWin := f_mul fl (req_BetAmount req) (req_Odds req);
         b_Status := "pending"; b_HomeTeam := req_HomeTeam req;
         b_AwayTeam := req_AwayTeam req |} in
    match PlaceBet fl (place_fails env) (new_bet_id env) db bet with
    | (Err _, db) => (BetError 500 "Failed to place bet", db)
    | (Ok placedBet, db) =>
    let newBalance := f_sub fl userMoney (req_BetAmount req) in
    match UpdateUserMoney fl (money_fails env) db (id user) newBalance with
    | (Some _, db) => (BetError 500 "Failed to update balance", db)
    | (None, db) =>
        (BetOK {| info_ID := b_BetID placedBet;
                  info_Amount := req_BetAmount req;
                  info_Odds := req_Odds req;
                  info_PotentialWin :=
                    f_mul fl (req_BetAmount req) (req_Odds req);
                  info_NewBalance := newBalance |}, db)
    end
    end
    end
    end
    end
    end.

(** An instance with exact arithmetic, for the examples: a [float64] is a
    rational number, and the store rounds it to hundredths, half away from
    zero, and refuses what does not fit the column. *)
Definition roundCents (x : Q) : Z :=
  let n := Qnum x * 100 in
  let d := Z.pos (Qden x) in
  Z.sgn n * ((2 * Z.abs n + d) / (2 * d)).

Definition fitsDecimal (digits : Z) (x : Q) : option Z :=
  let v := roundCents x in
  if Z.abs v <? 10 ^ digits then Some v else None.

Definition exactCents : Float64 :=
  {| float64 := Q;
     f_leZero := fun x => Qle_bool x 0;
     f_gt := fun x y => negb (Qle_bool x y);
     f_sub := Qminus;
     f_mul := Qmult;
     f_scanMoney := fun v => Qmake v 100;
     f_storeMoney := fitsDecimal 15;
     f_storeOdds := fitsDecimal 10 |}.

Definition withMoneyFault (env : PlaceEnv) : PlaceEnv :=
  {| user_fails := user_fails env; match_fails := match_fails env;
     place_fails := place_fails env; money_fails := true;
     new_bet_id := new_bet_id env |}.

Definition sameFixtureTime (m m' : Match) : Prop :=
  APIID m = APIID m' /\ CommenceTime m = CommenceTime m'.

Definition tokenOf_demo (token : string) : Res string :=
  if (token =? "alice-token")%string then Ok "u-alice" else Err ErrConfig.

Definition placeEnv_demo : PlaceEnv :=
  {| user_fails := false; match_fails := false; place_fails := false;
     money_fails := false; new_bet_id := "bet-new" |}.

Definition placeRequest_demo : PlaceBetRequest exactCents :=
  mkPlaceBetRequest exactCents (APIID storedMatch_demo) "home"
    (Qmake 3 1) (Qmake 5 2)
    "Arsenal" "Chelsea".

(** What an accepted request has checked and what the stored wager [b]
    holds. *)
Definition accepts (fl : Float64) (validateAccessToken : string -> Res string)
    (newID : string) (now : Time) (authHeader : string)
    (body : option (PlaceBetRequest fl)) (db : DB)
    (user : User) (match_ : Match) (req : PlaceBetRequest fl) (b : Bet)
    : Prop :=
  validateAccessToken (TrimPrefix authHeader "Bearer ") = Ok (id user)
  /\ In user (users db)
  /\ body = Some req
  /\ In match_ (epl_matches db)
  /\ APIID match_ = req_MatchID req
  /\ now <= CommenceTime match_
  /\ f_leZero fl (req_BetAmount req) = false
  /\ f_leZero fl (req_Odds req) = false
  /\ f_gt fl (req_BetAmount req) (f_scanMoney fl (money user)) = false
  /\ (req_BetType req = "home" \/ req_BetType req = "draw"
      \/ req_BetType req = "away")
  /\ b = {| bet_id := newID; user_id := id user;
            match_id := req_MatchID req; bet_type := req_BetType req;
            bet_amount := bet_amount b; odds := odds b;
            potential_win := potential_win b; status := "pending";
            bet_home_team := req_HomeTeam req;
            bet_away_team := req_AwayTeam req |}
  /\ f_storeMoney fl (req_BetAmount req) = Some (bet_amount b)
  /\ f_storeOdds fl (req_Odds req) = Some (odds b)
  /\ f_storeMoney fl (f_mul fl (req_BetAmount req) (req_Odds req))
     = Some (potential_win b).


(** The demo ledger with every match stripped of its odds and marked
    calculated. *)
Definition flagsFlipped_demo : DB :=
  withMatches ledgerDB_demo
    (map (fun m => withOdds None None None (markCalculated 1700020000 "away" m))
         (epl_matches ledgerDB_demo)).


(** Two rows that agree on every column but [updated_at]. *)
Definition sameColumns (r r' : Match) : Prop :=
  ID r' = ID r /\ APIID r' = APIID r
  /\ HomeTeam r' = HomeTeam r /\ AwayTeam r' = AwayTeam r
  /\ CommenceTime r' = CommenceTime r
  /\ HomeOdds r' = HomeOdds r /\ DrawOdds r' = DrawOdds r
  /\ AwayOdds r' = AwayOdds r
  /\ Completed r' = Completed r
  /\ HomeScore r' = HomeScore r /\ AwayScore r' = AwayScore r
  /\ Calculated r' = Calculated r /\ Result r' = Result r.

(** A row whose [updated_at] alone is written. *)
Definition stamp (t : Time) (r : Match) : Match :=
  {| ID := ID r; APIID := APIID r;
     HomeTeam := HomeTeam r; AwayTeam := AwayTeam r;
     CommenceTime := CommenceTime r;
     HomeOdds := HomeOdds r; DrawOdds := DrawOdds r; AwayOdds := AwayOdds r;
     Completed := Completed r;
     HomeScore := HomeScore r; AwayScore := AwayScore r;
     Calculated := Calculated r; Result := Result r;
     UpdatedAt := t |}.

Definition touched (t : Time) (apiID : string) (db : DB) : DB :=
  withMatches db
    (map (fun r => if hasAPIID apiID r then stamp t r else r) (epl_matches db)).

(** What a sync step does to tables that already hold its record: nothing,
    or a write of [updated_at] on the rows of the fixture; nothing when the
    write fails, and the write when neither the lookup nor the write
    fails. *)
Definition restamped (env : StoreEnv) (apiID : string) (db db' : DB) : Prop :=
  (db' = db \/ db' = touched (write_time env) apiID db)
  /\ (write_fails env = true -> db' = db)
  /\ (get_fails env = false -> write_fails env = false ->
      db' = touched (write_time env) apiID db).

(** The store answers, and its clock has advanced. *)
Definition laterWrite_demo : StoreEnv :=
  {| get_fails := false; upsert_get_fails := false; write_fails := false;
     new_id := "row-y"; write_time := 1699995000 |}.


(** The demo ledger once its match is settled as a home win: the wager on
    home is won and paid, the wager on draw is lost. *)
Definition settledLedger_demo : DB :=
  {| epl_matches := [storedMatch_demo];
     bets :=
       [{| bet_id := "b-1"; user_id := "u-alice"; match_id := "fx-1";
           bet_type := "home"; bet_amount := 200; odds := 150;
           potential_win := 300; status := "won";
           bet_home_team := "Arsenal"; bet_away_team := "Chelsea" |};
        {| bet_id := "b-2"; user_id := "u-bob"; match_id := "fx-1";
           bet_type := "draw"; bet_amount := 100; odds := 340;
           potential_win := 340; status := "lost";
           bet_home_team := "Arsenal"; bet_away_team := "Chelsea" |}];
     users := [{| id := "u-alice"; money := 1300 |};
               {| id := "u-bob"; money := 500 |}] |}.

(** * Properties *)

(** ** The model on concrete inputs *)

Example Atoi_accepts :
  (Atoi "-1", Atoi "0", Atoi "+5", Atoi "-007", Atoi "-9223372036854775808")
  = (Some (-1), Some 0, Some 5, Some (-7), Some (-9223372036854775808)).
Proof. reflexivity. Qed.

Example Atoi_rejects :
  (Atoi "", Atoi "-", Atoi "1a", Atoi " 1", Atoi "9223372036854775808")
  = (None, None, None, None, None).
Proof. reflexivity. Qed.

Example extractOdds_per_iteration :
  extractOdds false oddsEvent_demo = (Some 155, Some 350, Some 510).
Proof. reflexivity. Qed.

Example extractOdds_shared :
  extractOdds true oddsEvent_demo = (Some 350, Some 350, Some 350).
Proof. reflexivity. Qed.

Example calcHandler_settles_demo :
  calcHandler true noCalcFaults ledgerDB_demo
  = (CalcSummary 1
       [{| cm_home_team := "Arsenal"; cm_away_team := "Chelsea";
           cm_score := (2, 1); cm_result := "home" |}],
     {| epl_matches :=
          [{| ID := "row-1"; APIID := "fx-1";
              HomeTeam := "Arsenal"; AwayTeam := "Chelsea";
              CommenceTime := 1700000000;
              HomeOdds := Some 150; DrawOdds := Some 340; AwayOdds := Some 520;
              Completed := true; HomeScore := Some 2; AwayScore := Some 1;
              Calculated := true; Result := Some "home";
              UpdatedAt := 1700020000 |}];
        bets :=
          [{| bet_id := "b-1"; user_id := "u-alice"; match_id := "fx-1";
              bet_type := "home"; bet_amount := 200; odds := 150;
              potential_win := 300; status := "won";
              bet_home_team := "Arsenal"; bet_away_team := "Chelsea" |};
           {| bet_id := "b-2"; user_id := "u-bob"; match_id := "fx-1";
              bet_type := "draw"; bet_amount := 100; odds := 340;
              potential_win := 340; status := "lost";
              bet_home_team := "Arsenal"; bet_away_team := "Chelsea" |}];
        users := [{| id := "u-alice"; money := 1300 |};
                  {| id := "u-bob"; money := 500 |}] |}).
Proof. reflexivity. Qed.

(** ** Score normalizer *)

Lemma scoreLoop_sides (event : ScoresAPIEvent) (l : list ScoreEntry) :
  forall h a,
    scoreLoop (se_HomeTeam event) (se_AwayTeam event) l h a
    = (fold_left (sideStep event HomeSide) l h,
       fold_left (sideStep event AwaySide) l a).
Proof.
  induction l as [|e l IH]; intros h a; simpl; [reflexivity|].
  unfold sideStep at 2 4; simpl.
  destruct (sc_Name e =? se_HomeTeam event)%string; simpl.
  - apply IH.
  - destruct (sc_Name e =? se_AwayTeam event)%string; apply IH.
Qed.

Lemma processScoreEvent_side (event : ScoresAPIEvent) (s : Side) :
  sideScore (processScoreEvent event) s
  = present (fold_left (sideStep event s) (Scores event) (-1)).
Proof.
  unfold processScoreEvent. rewrite scoreLoop_sides. destruct s; reflexivity.
Qed.

Lemma fold_sideStep_skip (event : ScoresAPIEvent) (s : Side) (l : list ScoreEntry) :
  forall cur,
    (forall e, In e l -> feeds event s e = false) ->
    fold_left (sideStep event s) l cur = cur.
Proof.
  induction l as [|e l IH]; intros cur H; simpl; [reflexivity|].
  unfold sideStep at 2. rewrite (H e (or_introl eq_refl)).
  apply IH. intros e' He'. apply H. right. exact He'.
Qed.

Lemma fold_sideStep_unparsed (event : ScoresAPIEvent) (s : Side) (l : list ScoreEntry) :
  forall cur,
    (forall e, In e l -> feeds event s e = true -> Atoi (sc_Score e) = None) ->
    fold_left (sideStep event s) l cur = cur.
Proof.
  induction l as [|e l IH]; intros cur H; simpl; [reflexivity|].
  assert (Hs : sideStep event s cur e = cur).
  { unfold sideStep. destruct (feeds event s e) eqn:Hf; [|reflexivity].
    unfold parseInto. rewrite (H e (or_introl eq_refl) Hf).
    destruct (sc_Score e =? "")%string; reflexivity. }
  rewrite Hs. apply IH. intros e' He'. apply H. right. exact He'.
Qed.

Lemma parseInto_parsed (cur n : Z) (s : string) :
  Atoi s = Some n -> parseInto cur s = n.
Proof.
  intros H. unfold parseInto.
  destruct (String.eqb_spec s "") as [->|_].
  - discriminate H.
  - rewrite H. reflexivity.
Qed.

(** C10.  A side whose (last) score string parses to -1 is reported without
    a score, exactly as a side with no parseable score at all; any other
    parsed integer, 0 and the other negative ones included, is reported as
    that score. *)
Theorem minus_one_score_is_absent (event : ScoresAPIEvent) (s : Side) :
  (forall pre entry post n,
      Scores event = (pre ++ entry :: post)%list ->
      feeds event s entry = true ->
      (forall e, In e post -> feeds event s e = false) ->
      Atoi (sc_Score entry) = Some n ->
      (n = -1 -> sideScore (processScoreEvent event) s = None)
      /\ (n <> -1 -> sideScore (processScoreEvent event) s = Some n))
  /\ ((forall e, In e (Scores event) -> feeds event s e = true ->
                 Atoi (sc_Score e) = None) ->
      sideScore (processScoreEvent event) s = None).
Proof.
  split.
  - intros pre entry post n Hsc Hfeed Hpost Hparse.
    rewrite processScoreEvent_side, Hsc, fold_left_app. simpl.
    rewrite fold_sideStep_skip by exact Hpost.
    unfold sideStep. rewrite Hfeed, (parseInto_parsed _ n) by exact Hparse.
    unfold present. split; intros Hn.
    + subst n. reflexivity.
    + destruct (Z.eqb_spec n (-1)); [contradiction|reflexivity].
  - intros Hnone.
    rewrite processScoreEvent_side, fold_sideStep_unparsed by exact Hnone.
    reflexivity.
Qed.

Lemma minus_one_score_is_absent_witness :
  sideScore (processScoreEvent scoreEvent_demo) HomeSide = None
  /\ sideScore (processScoreEvent scoreEvent_demo) AwaySide = Some 0.
Proof.
  split.
  - refine (proj1 (proj1 (minus_one_score_is_absent scoreEvent_demo HomeSide)
                     [] {| sc_Name := "Arsenal"; sc_Score := "-1" |}
                     [ {| sc_Name := "Chelsea"; sc_Score := "0" |} ] (-1)
                     eq_refl eq_refl _ eq_refl) eq_refl).
    intros e [<-|[]]. reflexivity.
  - refine (proj2 (proj1 (minus_one_score_is_absent scoreEvent_demo AwaySide)
                     [ {| sc_Name := "Arsenal"; sc_Score := "-1" |} ]
                     {| sc_Name := "Chelsea"; sc_Score := "0" |} [] 0
                     eq_refl eq_refl _ eq_refl) _).
    + intros e [].
    + discriminate.
Defined.

(** ** Match store: lookups and merge-update *)

Lemma find_at {A : Type} (p : A -> bool) (l : list A) (i : nat) (x : A) :
  nth_error l i = Some x -> p x = true -> exists y, find p l = Some y.
Proof.
  intros Hi Hp. destruct (find p l) as [y|] eqn:Hf; [exists y; reflexivity|].
  apply nth_error_In in Hi. rewrite (find_none p l Hf x Hi) in Hp. discriminate.
Qed.

Lemma find_none_existsb {A : Type} (p : A -> bool) (l : list A) :
  find p l = None -> existsb p l = false.
Proof.
  induction l as [|x l IH]; simpl; [reflexivity|].
  destruct (p x); [discriminate|]. exact IH.
Qed.

Lemma hasAPIID_true (apiID : string) (m : Match) :
  hasAPIID apiID m = true <-> APIID m = apiID.
Proof. unfold hasAPIID. apply String.eqb_eq. Qed.

Lemma hasAPIID_false (apiID : string) (m : Match) :
  hasAPIID apiID m = false <-> APIID m <> apiID.
Proof. unfold hasAPIID. apply String.eqb_neq. Qed.

(** A successful [UpdateMatchByAPIID] rewrites in place every row that
    carries the id, and returns one of them. *)
Lemma UpdateMatchByAPIID_ok (db : DB) (apiID : string) (now : Time) (fact : Match)
    (i : nat) (m : Match) :
  nth_error (epl_matches db) i = Some m ->
  APIID m = apiID ->
  exists r,
    UpdateMatchByAPIID false now db apiID fact
    = (Ok r,
       withMatches db
         (map (fun r => if hasAPIID apiID r then setColumns now fact r else r)
              (epl_matches db)))
    /\ nth_error
         (map (fun r => if hasAPIID apiID r then setColumns now fact r else r)
              (epl_matches db)) i
       = Some (setColumns now fact m).
Proof.
  intros Hi Hid.
  assert (Hrow : nth_error
            (map (fun r => if hasAPIID apiID r then setColumns now fact r else r)
                 (epl_matches db)) i = Some (setColumns now fact m)).
  { rewrite nth_error_map, Hi. simpl.
    rewrite (proj2 (hasAPIID_true apiID m) Hid). reflexivity. }
  destruct (find_at (hasAPIID apiID) _ i _ Hrow) as [r Hr].
  { apply hasAPIID_true. exact Hid. }
  exists r. unfold UpdateMatchByAPIID. rewrite Hr. split; [reflexivity|exact Hrow].
Qed.

(** C4.  A merge-update writes a nullable column only from a non-null
    incoming value: odds that are all null leave the stored odds as they
    were, and non-null home odds replace the stored ones whatever they
    were. *)
Theorem merge_update_skips_null (db : DB) (apiID : string) (now : Time)
    (fact : Match) (i : nat) (m : Match) :
  nth_error (epl_matches db) i = Some m ->
  APIID m = apiID ->
  exists r db' m',
    UpdateMatchByAPIID false now db apiID fact = (Ok r, db')
    /\ nth_error (epl_matches db') i = Some m'
    /\ HomeOdds m' = match HomeOdds fact with Some v => Some v | None => HomeOdds m end
    /\ DrawOdds m' = match DrawOdds fact with Some v => Some v | None => DrawOdds m end
    /\ AwayOdds m' = match AwayOdds fact with Some v => Some v | None => AwayOdds m end
    /\ HomeScore m' = match HomeScore fact with Some v => Some v | None => HomeScore m end
    /\ AwayScore m' = match AwayScore fact with Some v => Some v | None => AwayScore m end
    /\ (HomeOdds fact = None -> DrawOdds fact = None -> AwayOdds fact = None ->
        HomeOdds m' = HomeOdds m /\ DrawOdds m' = DrawOdds m
        /\ AwayOdds m' = AwayOdds m)
    /\ (forall h2, HomeOdds fact = Some h2 -> HomeOdds m' = Some h2).
Proof.
  intros Hi Hid.
  destruct (UpdateMatchByAPIID_ok db apiID now fact i m Hi Hid) as [r [Hup Hrow]].
  exists r. eexists. exists (setColumns now fact m).
  split; [exact Hup|]. split; [exact Hrow|].
  simpl. unfold orStored.
  do 5 (split; [reflexivity|]). split.
  - intros Hh Hd Ha. rewrite Hh, Hd, Ha. repeat split.
  - intros h2 Hh. rewrite Hh. reflexivity.
Qed.

Lemma merge_update_skips_null_witness :
  exists r db' m',
    UpdateMatchByAPIID false 1699990000 matchDB_demo "fx-1" factNoOdds_demo
    = (Ok r, db')
    /\ nth_error (epl_matches db') 0 = Some m'
    /\ HomeOdds m' = Some 150 /\ DrawOdds m' = Some 340 /\ AwayOdds m' = Some 520.
Proof.
  destruct (merge_update_skips_null matchDB_demo "fx-1" 1699990000
              factNoOdds_demo 0%nat storedMatch_demo eq_refl eq_refl)
    as [r [db' [m' [H1 [H2 [_ [_ [_ [_ [_ [H3 _]]]]]]]]]]].
  exists r, db', m'. split; [exact H1|]. split; [exact H2|].
  exact (H3 eq_refl eq_refl eq_refl).
Defined.

(** ** Candidate selection *)

Lemma notNull_true (s : option Z) : notNull s = true <-> exists v, s = Some v.
Proof.
  destruct s as [v|]; simpl; split; intros H.
  - exists v. reflexivity.
  - reflexivity.
  - discriminate.
  - destruct H as [v Hv]. discriminate.
Qed.

Lemma notMinusOne_true (s : option Z) :
  notMinusOne s = true <-> exists v, s = Some v /\ v <> -1.
Proof.
  destruct s as [v|]; simpl; split; intros H.
  - exists v. split; [reflexivity|].
    destruct (Z.eqb_spec v (-1)); [discriminate|assumption].
  - destruct H as [w [Hw Hne]]. injection Hw as <-.
    destruct (Z.eqb_spec v (-1)); [contradiction|reflexivity].
  - discriminate.
  - destruct H as [w [Hw _]]. discriminate.
Qed.

Lemma completedUncalculated_true (m : Match) :
  completedUncalculated m = true <->
  Completed m = true /\ Calculated m = false
  /\ (exists hs, HomeScore m = Some hs /\ hs <> -1)
  /\ (exists aw, AwayScore m = Some aw /\ aw <> -1).
Proof.
  unfold completedUncalculated.
  rewrite !andb_true_iff, negb_true_iff, !notMinusOne_true, !notNull_true.
  split.
  - intros [[[[[Hc Hk] _] _] Hh] Ha]. auto.
  - intros [Hc [Hk [[hs [Hh Hhn]] [aw [Ha Han]]]]].
    repeat split; eauto.
Qed.

(** C6, the counterexample.  The scores feed reports a finished fixture
    without scores; the create path stores -1 for both.  The row is
    completed, not calculated and has non-null scores, and the candidate
    query does not select it. *)
Lemma candidate_set_counterexample :
  snd (scoresSyncHandler true "key" (Reply 200 (Some [scoresRecord_noScore]))
         (fun _ => noStoreFaults "row-2") emptyDB)
  = {| epl_matches := [scoreless_demo]; bets := []; users := [] |}
  /\ specCandidate scoreless_demo = true
  /\ GetCompletedUncalculatedMatches false
       {| epl_matches := [scoreless_demo]; bets := []; users := [] |} = Ok [].
Proof. repeat split. Qed.

(** ** The settlement transaction *)

Lemma collectWinners_ok (sf : nat -> bool) (rows : list Returned) :
  forall i acc ws,
    collectWinners sf i rows acc = Ok ws ->
    ws = (acc ++ map rowWinner (filter isWon rows))%list.
Proof.
  induction rows as [|[[uid win] st] rows IH]; intros i acc ws H; simpl in *.
  - injection H as <-. rewrite app_nil_r. reflexivity.
  - destruct (sf i); [discriminate|].
    destruct (st =? "won")%string.
    + apply IH in H. rewrite <- app_assoc in H. exact H.
    + apply IH in H. exact H.
Qed.

Lemma collectWinners_no_faults (sf : nat -> bool) (rows : list Returned) :
  (forall j, sf j = false) ->
  forall i acc,
    collectWinners sf i rows acc
    = Ok (acc ++ map rowWinner (filter isWon rows))%list.
Proof.
  intros Hsf. induction rows as [|[[uid win] st] rows IH]; intros i acc; simpl.
  - rewrite app_nil_r. reflexivity.
  - rewrite Hsf. destruct (st =? "won")%string.
    + rewrite IH, <- app_assoc. reflexivity.
    + apply IH.
Qed.

Lemma wins_pending (matchAPIID result : string) (b : Bet) :
  wins matchAPIID result b
  = isPendingOn matchAPIID b && (bet_type b =? result)%string.
Proof. reflexivity. Qed.

Lemma returned_winners (matchAPIID result : string) (bs : list Bet) :
  map rowWinner
    (filter isWon
       (map (fun b => (user_id b, potential_win b, newStatus result b))
            (filter (isPendingOn matchAPIID) bs)))
  = map toWinningBet (filter (wins matchAPIID result) bs).
Proof.
  induction bs as [|b bs IH]; [reflexivity|].
  cbn [filter]. rewrite wins_pending.
  destruct (isPendingOn matchAPIID b); cbn [map filter andb]; [|exact IH].
  assert (Hw : isWon (user_id b, potential_win b, newStatus result b)
               = (bet_type b =? result)%string).
  { unfold isWon, newStatus. destruct (bet_type b =? result)%string; reflexivity. }
  rewrite Hw. destruct (bet_type b =? result)%string; cbn [map].
  - rewrite IH. reflexivity.
  - exact IH.
Qed.

Lemma creditWinners_committed (cf : nat -> bool) (ws : list winningBet) :
  forall k c, committed (snd (creditWinners cf k ws c)) = committed c.
Proof.
  induction ws as [|w ws IH]; intros k c; simpl; [reflexivity|].
  unfold txCredit. destruct (cf k); [reflexivity|].
  destruct (pending c); [|reflexivity].
  rewrite IH. reflexivity.
Qed.

Lemma creditWinners_ok (cf : nat -> bool) (ws : list winningBet) :
  forall k c c' w0,
    pending c = Some w0 ->
    creditWinners cf k ws c = (None, c') ->
    c' = {| committed := committed c;
            pending := Some (withUsers w0 (creditAll ws (users w0))) |}.
Proof.
  induction ws as [|w ws IH]; intros k c c' w0 Hp H; simpl in *.
  - injection H as <-. destruct c as [cm p]; simpl in *. subst p.
    destruct w0; reflexivity.
  - unfold txCredit in H. destruct (cf k); [discriminate|].
    rewrite Hp in H.
    apply (IH _ _ _ (withUsers w0 (map (credit w) (users w0)))) in H;
      [|reflexivity].
    exact H.
Qed.

Lemma creditWinners_no_faults (cf : nat -> bool) (ws : list winningBet) :
  (forall j, cf j = false) ->
  forall k c w0,
    pending c = Some w0 ->
    creditWinners cf k ws c
    = (None, {| committed := committed c;
                pending := Some (withUsers w0 (creditAll ws (users w0))) |}).
Proof.
  intros Hcf. induction ws as [|w ws IH]; intros k c w0 Hp; simpl.
  - destruct c as [cm p]; simpl in *. subst p. destruct w0; reflexivity.
  - unfold txCredit. rewrite Hcf, Hp.
    rewrite (IH _ _ (withUsers w0 (map (credit w) (users w0)))); reflexivity.
Qed.

Lemma creditWinners_fault (cf : nat -> bool) (ws : list winningBet) :
  forall k j c,
    (k < List.length ws)%nat -> cf (j + k)%nat = true ->
    exists e, fst (creditWinners cf j ws c) = Some e.
Proof.
  induction ws as [|w ws IH]; intros k j c Hk Hf; simpl in *; [lia|].
  unfold txCredit. destruct (cf j) eqn:Hj; [exists ErrStore; reflexivity|].
  destruct (pending c); [|exists ErrStore; reflexivity].
  destruct k as [|k].
  - rewrite Nat.add_0_r in Hf. congruence.
  - apply (IH k (S j)); [lia|]. rewrite <- Hf. f_equal. lia.
Qed.

Lemma payoutDue_nil (matchAPIID result uid : string) :
  payoutDue matchAPIID result [] uid = 0.
Proof. reflexivity. Qed.

Lemma credit_creditAll (w : winningBet) (ws : list winningBet) (us : list User) :
  creditAll ws (map (credit w) us) = map (credit w) (creditAll ws us).
Proof.
  revert us. induction ws as [|w' ws IH]; intros us; simpl; [reflexivity|].
  unfold creditAll in *. simpl. rewrite <- IH. f_equal.
  rewrite !map_map. apply map_ext. intros u. unfold credit. simpl.
  destruct (id u =? userID w')%string eqn:H1, (id u =? userID w)%string eqn:H2;
    simpl; rewrite ?H1, ?H2; try reflexivity.
  f_equal. lia.
Qed.

(** Crediting the winners one by one adds to every balance the sum of the
    payouts of the owner's winning wagers. *)
Lemma creditAll_payoutDue (matchAPIID result : string) (bs : list Bet)
    (us : list User) :
  creditAll (map toWinningBet (filter (wins matchAPIID result) bs)) us
  = map (credited matchAPIID result bs) us.
Proof.
  induction bs as [|b bs IH]; simpl.
  - unfold creditAll, credited. simpl. rewrite <- (map_id us) at 1.
    apply map_ext. intros [i m]. simpl. rewrite Z.add_0_r. reflexivity.
  - destruct (wins matchAPIID result b) eqn:Hw; simpl.
    + change (creditAll (map toWinningBet (filter (wins matchAPIID result) bs))
                (map (credit (toWinningBet b)) us)
              = map (credited matchAPIID result (b :: bs)) us).
      rewrite credit_creditAll, IH, map_map. apply map_ext. intros u.
      unfold credit, credited, payoutDue. simpl. rewrite Hw. simpl.
      rewrite (String.eqb_sym (user_id b) (id u)).
      destruct (id u =? user_id b)%string; simpl; [f_equal; lia|reflexivity].
    + rewrite IH. apply map_ext. intros u.
      unfold credited, payoutDue. simpl. rewrite Hw. reflexivity.
Qed.

(** Whatever fails, [UpdateBetsStatusAndUserMoney] either reports an error
    and leaves every table as it was, or commits the whole settlement. *)
Lemma UpdateBetsStatusAndUserMoney_cases (f : TxFaults) (db : DB)
    (matchAPIID result : string) :
  (exists e, UpdateBetsStatusAndUserMoney f db matchAPIID result = (Some e, db))
  \/ UpdateBetsStatusAndUserMoney f db matchAPIID result
     = (None, settlement db matchAPIID result).
Proof.
  unfold UpdateBetsStatusAndUserMoney, Begin. simpl.
  destruct (begin_fails f); [left; eexists; reflexivity|].
  unfold txBody, txUpdateBets. simpl.
  destruct (update_fails f); [left; eexists; reflexivity|].
  destruct (collectWinners (scan_fails f) 0 _ []) as [ws|e] eqn:Hcw;
    [|left; eexists; reflexivity].
  apply collectWinners_ok in Hcw. simpl in Hcw. rewrite returned_winners in Hcw.
  destruct (creditWinners (credit_fails f) 0 ws _) as [[e|] c'] eqn:Hcr.
  - left. exists e. simpl.
    pose proof (creditWinners_committed (credit_fails f) ws 0
                  {| committed := db;
                     pending := Some (withBets db (map (settleBet matchAPIID result) (bets db))) |}) as Hc.
    rewrite Hcr in Hc. simpl in Hc. rewrite Hc. reflexivity.
  - eapply creditWinners_ok in Hcr; [|reflexivity]. subst c'. simpl.
    unfold Commit. destruct (commit_fails f); simpl; [left; eexists; reflexivity|].
    right. unfold settlement. simpl. rewrite Hcw, creditAll_payoutDue. reflexivity.
Qed.

Lemma UpdateBetsStatusAndUserMoney_no_faults (db : DB)
    (matchAPIID result : string) :
  UpdateBetsStatusAndUserMoney noTxFaults db matchAPIID result
  = (None, settlement db matchAPIID result).
Proof.
  unfold UpdateBetsStatusAndUserMoney, Begin, txBody, txUpdateBets. simpl.
  rewrite collectWinners_no_faults by reflexivity. simpl.
  rewrite returned_winners.
  erewrite creditWinners_no_faults by reflexivity. simpl.
  unfold settlement. rewrite creditAll_payoutDue. reflexivity.
Qed.

Lemma UpdateBetsStatusAndUserMoney_credit_fault (f : TxFaults) (db : DB)
    (matchAPIID result : string) (k : nat) :
  begin_fails f = false ->
  update_fails f = false ->
  (forall j, scan_fails f j = false) ->
  (k < List.length (filter (wins matchAPIID result) (bets db)))%nat ->
  credit_fails f k = true ->
  exists e,
    UpdateBetsStatusAndUserMoney f db matchAPIID result = (Some e, db).
Proof.
  intros Hb Hu Hs Hk Hc.
  unfold UpdateBetsStatusAndUserMoney, Begin. simpl. rewrite Hb.
  unfold txBody, txUpdateBets. simpl. rewrite Hu.
  rewrite collectWinners_no_faults by exact Hs. simpl.
  rewrite returned_winners.
  set (c := {| committed := db; pending := _ |}).
  set (ws := map toWinningBet _).
  destruct (creditWinners_fault (credit_fails f) ws k 0 c) as [e He].
  - unfold ws. rewrite length_map. exact Hk.
  - exact Hc.
  - pose proof (creditWinners_committed (credit_fails f) ws 0 c) as Hcm.
    destruct (creditWinners (credit_fails f) 0 ws c) as [[e'|] c']; simpl in *.
    + exists e'. rewrite Hcm. reflexivity.
    + discriminate He.
Qed.

Lemma nth_error_map_some {A B : Type} (f : A -> B) (l : list A) (i : nat) (x : A) :
  nth_error l i = Some x -> nth_error (map f l) i = Some (f x).
Proof. intros H. rewrite nth_error_map, H. reflexivity. Qed.

Lemma settleBet_won (matchAPIID result : string) (b : Bet) :
  match_id b = matchAPIID -> status b = "pending" -> bet_type b = result ->
  settleBet matchAPIID result b = withStatus "won" b.
Proof.
  intros H1 H2 H3. unfold settleBet, isPendingOn, newStatus.
  rewrite H1, H2, H3, !String.eqb_refl. reflexivity.
Qed.

Lemma settleBet_lost (matchAPIID result : string) (b : Bet) :
  match_id b = matchAPIID -> status b = "pending" -> bet_type b <> result ->
  settleBet matchAPIID result b = withStatus "lost" b.
Proof.
  intros H1 H2 H3. unfold settleBet, isPendingOn, newStatus.
  rewrite H1, H2, !String.eqb_refl. simpl.
  rewrite (proj2 (String.eqb_neq _ _) H3). reflexivity.
Qed.

Lemma settleBet_other (matchAPIID result : string) (b : Bet) :
  match_id b <> matchAPIID \/ status b <> "pending" ->
  settleBet matchAPIID result b = b.
Proof.
  intros H. unfold settleBet, isPendingOn.
  destruct H as [H|H]; rewrite (proj2 (String.eqb_neq _ _) H);
    rewrite ?andb_false_r; reflexivity.
Qed.

Lemma payoutDue_none (matchAPIID result : string) (bs : list Bet) (uid : string) :
  (forall b, In b bs -> user_id b = uid -> wins matchAPIID result b = false) ->
  payoutDue matchAPIID result bs uid = 0.
Proof.
  unfold payoutDue. induction bs as [|b bs IH]; intros H; simpl; [reflexivity|].
  destruct (String.eqb_spec (user_id b) uid) as [Hu|Hu].
  - rewrite (H b (or_introl eq_refl) Hu). simpl.
    apply IH. intros b' Hb'. apply H. right. exact Hb'.
  - rewrite andb_false_r. apply IH. intros b' Hb'. apply H. right. exact Hb'.
Qed.

Lemma calcStep_settles (env : CalcEnv) (i : nat) (m : Match) (db : DB)
    (n : Z) (l : list CalculatedMatch) (hs aw : Z) :
  HomeScore m = Some hs -> AwayScore m = Some aw ->
  tx_faults env i = noTxFaults -> mark_fails env i = false ->
  calcStep env i m (db, n, l)
  = (marked (mark_time env i) (settlement db (APIID m) (computeResult hs aw))
       (APIID m) (computeResult hs aw),
     n + 1,
     (l ++ [{| cm_home_team := HomeTeam m; cm_away_team := AwayTeam m;
               cm_score := (hs, aw);
               cm_result := computeResult hs aw |}])%list).
Proof.
  intros Hh Ha Htx Hmk. unfold calcStep. rewrite Hh, Ha, Htx.
  rewrite UpdateBetsStatusAndUserMoney_no_faults.
  unfold UpdateMatchCalculated. rewrite Hmk. reflexivity.
Qed.

Lemma settleBet_sameWager (matchAPIID result : string) (b : Bet) :
  sameWager b (settleBet matchAPIID result b).
Proof.
  unfold settleBet. destruct (isPendingOn matchAPIID b);
    unfold sameWager; simpl; repeat split.
Qed.

Lemma computeResult_cases (hs aw : Z) :
  (hs > aw /\ computeResult hs aw = "home")
  \/ (hs < aw /\ computeResult hs aw = "away")
  \/ (hs = aw /\ computeResult hs aw = "draw").
Proof.
  unfold computeResult.
  destruct (Z.gtb_spec hs aw); [left; split; [lia|reflexivity]|].
  destruct (Z.ltb_spec hs aw); [right; left; split; [lia|reflexivity]|].
  right; right. split; [lia|reflexivity].
Qed.

(** C1.  The result is "home", "away" or "draw" as the home score is above,
    below or equal to the away score.  Settling the match turns the status
    of every pending wager on it into "won" when its selection is the
    result and into "lost" otherwise, changes no other column of a wager
    and no other wager, adds to every balance the payouts of the owner's
    winning wagers, which is nothing for a user without one, and marks the
    row of the match calculated with that result. *)
Theorem settlement_correct (env : CalcEnv) (i : nat) (m : Match) (db : DB)
    (n : Z) (l : list CalculatedMatch) (hs aw : Z) :
  HomeScore m = Some hs -> AwayScore m = Some aw ->
  tx_faults env i = noTxFaults -> mark_fails env i = false ->
  let db' := fst (fst (calcStep env i m (db, n, l))) in
  exists result,
    ((hs > aw /\ result = "home") \/ (hs < aw /\ result = "away")
     \/ (hs = aw /\ result = "draw"))
    /\ computeResult hs aw = result
    /\ (forall j b, nth_error (bets db) j = Some b ->
          exists b',
            nth_error (bets db') j = Some b'
            /\ sameWager b b'
            /\ (match_id b = APIID m -> status b = "pending" ->
                bet_type b = result -> status b' = "won")
            /\ (match_id b = APIID m -> status b = "pending" ->
                bet_type b <> result -> status b' = "lost")
            /\ (match_id b <> APIID m \/ status b <> "pending" ->
                status b' = status b))
    /\ List.length (bets db') = List.length (bets db)
    /\ (forall j u, nth_error (users db) j = Some u ->
          nth_error (users db') j
          = Some {| id := id u;
                    money := money u
                             + payoutDue (APIID m) result (bets db) (id u) |})
    /\ List.length (users db') = List.length (users db)
    /\ (forall u,
          (forall b, In b (bets db) -> user_id b = id u ->
                     match_id b = APIID m -> status b = "pending" ->
                     bet_type b <> result) ->
          payoutDue (APIID m) result (bets db) (id u) = 0)
    /\ (forall j r, nth_error (epl_matches db) j = Some r ->
          exists r',
            nth_error (epl_matches db') j = Some r'
            /\ (APIID r <> APIID m -> r' = r)
            /\ (APIID r = APIID m ->
                Calculated r' = true /\ Result r' = Some result)).
Proof.
  intros Hh Ha Htx Hmk db'.
  set (result := computeResult hs aw).
  assert (Hdb : db' = marked (mark_time env i)
                        (settlement db (APIID m) result) (APIID m) result).
  { unfold db'. rewrite (calcStep_settles env i m db n l hs aw Hh Ha Htx Hmk).
    reflexivity. }
  exists result. split; [|split; [reflexivity|]].
  { destruct (computeResult_cases hs aw) as [[H1 H2]|[[H1 H2]|[H1 H2]]]; auto. }
  rewrite Hdb. cbn [marked settlement withMatches bets users epl_matches].
  split; [|split; [|split; [|split; [|split]]]].
  - intros j b Hj. exists (settleBet (APIID m) result b).
    split; [apply nth_error_map_some; exact Hj|].
    split; [apply settleBet_sameWager|]. split; [|split].
    + intros H1 H2 H3. rewrite (settleBet_won _ _ _ H1 H2 H3). reflexivity.
    + intros H1 H2 H3. rewrite (settleBet_lost _ _ _ H1 H2 H3). reflexivity.
    + intros H. rewrite (settleBet_other _ _ _ H). reflexivity.
  - apply length_map.
  - intros j u Hj.
    apply (nth_error_map_some (credited (APIID m) result (bets db))). exact Hj.
  - apply length_map.
  - intros u H. apply payoutDue_none. intros b Hb Hu.
    unfold wins.
    destruct (String.eqb_spec (match_id b) (APIID m)) as [H1|H1]; [|reflexivity].
    destruct (String.eqb_spec (status b) "pending") as [H2|H2]; [|reflexivity].
    simpl. apply String.eqb_neq. apply H; assumption.
  - intros j r Hj.
    exists (if hasAPIID (APIID m) r
            then markCalculated (mark_time env i) result r else r).
    split.
    + apply (nth_error_map_some
               (fun r => if hasAPIID (APIID m) r
                         then markCalculated (mark_time env i) result r else r)).
      exact Hj.
    + split.
      * intros Hne. rewrite (proj2 (hasAPIID_false _ _) Hne). reflexivity.
      * intros He. rewrite (proj2 (hasAPIID_true _ _) He). split; reflexivity.
Qed.

Lemma settlement_correct_witness :
  let db' := fst (fst (calcStep noCalcFaults 0 storedMatch_demo
                         (ledgerDB_demo, 0, []))) in
  computeResult 2 1 = "home"
  /\ (exists b', nth_error (bets db') 0 = Some b' /\ status b' = "won")
  /\ (exists b', nth_error (bets db') 1 = Some b' /\ status b' = "lost")
  /\ nth_error (users db') 0 = Some {| id := "u-alice"; money := 1300 |}
  /\ nth_error (users db') 1 = Some {| id := "u-bob"; money := 500 |}
  /\ (exists r', nth_error (epl_matches db') 0 = Some r'
                 /\ Calculated r' = true /\ Result r' = Some "home").
Proof.
  intros db'.
  destruct (settlement_correct noCalcFaults 0 storedMatch_demo ledgerDB_demo
              0 [] 2 1 eq_refl eq_refl eq_refl eq_refl)
    as [result [Hres [Hcr [Hbets [_ [Husers [_ [_ Hrows]]]]]]]].
  assert (Hr : result = "home").
  { destruct Hres as [[_ Hr]|[[Hlt _]|[Heq _]]];
      [exact Hr|discriminate Hlt|discriminate Heq]. }
  subst result.
  split; [exact Hr|]. split; [|split; [|split; [|split]]].
  - destruct (Hbets 0%nat betHome_demo eq_refl) as [b' [Hn [_ [Hwon _]]]].
    exists b'. split; [exact Hn|]. apply Hwon; reflexivity.
  - destruct (Hbets 1%nat betDraw_demo eq_refl) as [b' [Hn [_ [_ [Hlost _]]]]].
    exists b'. split; [exact Hn|].
    apply Hlost; [reflexivity|reflexivity|discriminate].
  - exact (Husers 0%nat alice_demo eq_refl).
  - exact (Husers 1%nat bob_demo eq_refl).
  - destruct (Hrows 0%nat storedMatch_demo eq_refl) as [r' [Hn [_ Hmark]]].
    exists r'. split; [exact Hn|]. apply Hmark. reflexivity.
Defined.

(** C2.  When a balance credit fails after the bulk update of the
    transaction was issued, the settlement of the match changes no wager,
    no balance and no match: the match is still completed and not
    calculated, and the candidate query selects it again. *)
Theorem settlement_atomic (env : CalcEnv) (i : nat) (m : Match) (db : DB)
    (n : Z) (l : list CalculatedMatch) (hs aw : Z) (k : nat) :
  In m (epl_matches db) ->
  completedUncalculated m = true ->
  HomeScore m = Some hs -> AwayScore m = Some aw ->
  begin_fails (tx_faults env i) = false ->
  update_fails (tx_faults env i) = false ->
  (forall j, scan_fails (tx_faults env i) j = false) ->
  (k < List.length (filter (wins (APIID m) (computeResult hs aw)) (bets db)))%nat ->
  credit_fails (tx_faults env i) k = true ->
  let st' := calcStep env i m (db, n, l) in
  let db' := fst (fst st') in
  bets db' = bets db
  /\ users db' = users db
  /\ epl_matches db' = epl_matches db
  /\ st' = (db, n, l)
  /\ exists candidates,
       GetCompletedUncalculatedMatches false db' = Ok candidates
       /\ In m candidates.
Proof.
  intros Hin Hcand Hh Ha Hb Hu Hs Hk Hc st' db'.
  destruct (UpdateBetsStatusAndUserMoney_credit_fault
              (tx_faults env i) db (APIID m) (computeResult hs aw) k
              Hb Hu Hs Hk Hc) as [e He].
  assert (Hst : st' = (db, n, l)).
  { unfold st', calcStep. rewrite Hh, Ha, He. reflexivity. }
  assert (Hdb : db' = db) by (unfold db'; rewrite Hst; reflexivity).
  rewrite Hdb. repeat split; try reflexivity; try exact Hst.
  exists (filter completedUncalculated (epl_matches db)).
  split; [reflexivity|]. apply filter_In. split; assumption.
Qed.

Lemma settlement_atomic_witness :
  calcStep creditFault_demo 0 storedMatch_demo (ledgerDB_demo, 0, [])
  = (ledgerDB_demo, 0, []).
Proof.
  refine (proj1 (proj2 (proj2 (proj2
            (settlement_atomic creditFault_demo 0 storedMatch_demo ledgerDB_demo
               0 [] 2 1 0 _ eq_refl eq_refl eq_refl eq_refl eq_refl _ _ eq_refl))))).
  - left. reflexivity.
  - intros j. reflexivity.
  - simpl. lia.
Defined.

(** ** The sync pipelines, one record at a time *)

Lemma processOddsEvent_fields (shared : bool) (ev : OddsAPIEvent) :
  APIID (processOddsEvent shared ev) = oe_ID ev
  /\ Completed (processOddsEvent shared ev) = false
  /\ Calculated (processOddsEvent shared ev) = false
  /\ Result (processOddsEvent shared ev) = None.
Proof.
  unfold processOddsEvent.
  destruct (extractOdds shared ev) as [[h d] a]. repeat split.
Qed.

Lemma processScoreEvent_fields (ev : ScoresAPIEvent) :
  APIID (processScoreEvent ev) = se_ID ev
  /\ Completed (processScoreEvent ev) = se_Completed ev
  /\ Calculated (processScoreEvent ev) = false
  /\ Result (processScoreEvent ev) = None.
Proof.
  unfold processScoreEvent.
  destruct (scoreLoop _ _ _ _ _) as [h a]. repeat split.
Qed.

Lemma GetMatchByAPIID_found (db : DB) (apiID : string) (i : nat) (m : Match) :
  nth_error (epl_matches db) i = Some m -> APIID m = apiID ->
  exists existing, GetMatchByAPIID false db apiID = Ok existing.
Proof.
  intros Hi Hid. unfold GetMatchByAPIID.
  destruct (find_at (hasAPIID apiID) _ i m Hi) as [y Hy].
  - apply hasAPIID_true. exact Hid.
  - exists y. rewrite Hy. reflexivity.
Qed.

Lemma GetMatchByAPIID_absent (fails : bool) (db : DB) (apiID : string) :
  find (hasAPIID apiID) (epl_matches db) = None ->
  exists e, GetMatchByAPIID fails db apiID = Err e.
Proof.
  intros H. unfold GetMatchByAPIID. rewrite H.
  destruct fails; eexists; reflexivity.
Qed.

(** C5, the counterexample.  A completed match is stored; the odds feed
    reports the same fixture; after the odds sync the stored flag is
    false. *)
Lemma odds_merge_keeps_completed_counterexample :
  map Completed (epl_matches matchDB_demo) = [true]
  /\ map Completed
       (epl_matches
          (snd (oddsSyncHandler false true "key"
                  (Reply 200 (Some [oddsRecord_demo]))
                  (fun _ => noStoreFaults "row-9") matchDB_demo)))
     = [false].
Proof. split; reflexivity. Qed.

(** C5, as amended.  A merge-update always writes the completed flag of the
    incoming fact.  The fact of an odds record carries false, so merging it
    stores false; the fact of a score record carries the feed's flag, so
    merging it stores that flag. *)
Theorem completed_follows_fact (shared : bool) (env : StoreEnv) (db : DB)
    (res : Results) (i : nat) (m : Match) :
  nth_error (epl_matches db) i = Some m ->
  get_fails env = false -> write_fails env = false ->
  (forall ev, oe_ID ev = APIID m ->
     exists m',
       nth_error (epl_matches (fst (oddsSyncStep shared env ev (db, res)))) i
       = Some m'
       /\ Completed m' = false)
  /\ (forall ev, se_ID ev = APIID m ->
        exists m',
          nth_error (epl_matches (fst (scoresSyncStep env ev (db, res)))) i
          = Some m'
          /\ Completed m' = se_Completed ev).
Proof.
  intros Hi Hg Hw. split; intros ev Hid.
  - destruct (processOddsEvent_fields shared ev) as [Ha [Hc _]].
    unfold oddsSyncStep. rewrite Hg, Hw.
    destruct (GetMatchByAPIID_found db (APIID (processOddsEvent shared ev)) i m Hi)
      as [ex Hex]; [congruence|].
    rewrite Hex. cbn [withOdds APIID].
    match goal with
    | |- context [UpdateMatchByAPIID false ?t db ?a ?f] =>
        destruct (UpdateMatchByAPIID_ok db a t f i m Hi) as [r [Hup Hrow]];
          [congruence|]; rewrite Hup
    end.
    cbn [fst epl_matches withMatches]. eexists. split; [exact Hrow|].
    simpl. exact Hc.
  - destruct (processScoreEvent_fields ev) as [Ha [Hc _]].
    unfold scoresSyncStep. rewrite Hg, Hw.
    destruct (GetMatchByAPIID_found db (APIID (processScoreEvent ev)) i m Hi)
      as [ex Hex]; [congruence|].
    rewrite Hex. cbn [withOdds APIID].
    match goal with
    | |- context [UpdateMatchByAPIID false ?t db ?a ?f] =>
        destruct (UpdateMatchByAPIID_ok db a t f i m Hi) as [r [Hup Hrow]];
          [congruence|]; rewrite Hup
    end.
    cbn [fst epl_matches withMatches]. eexists. split; [exact Hrow|].
    simpl. exact Hc.
Qed.

Lemma completed_follows_fact_witness :
  exists m',
    nth_error
      (epl_matches
         (fst (oddsSyncStep false (noStoreFaults "row-9") oddsEvent_demo
                 (matchDB_demo, noResults)))) 0
    = Some m'
    /\ Completed m' = false.
Proof.
  exact (proj1 (completed_follows_fact false (noStoreFaults "row-9")
                  matchDB_demo noResults 0 storedMatch_demo
                  eq_refl eq_refl eq_refl)
               oddsEvent_demo eq_refl).
Defined.

Lemma allOdds_true (m : Match) :
  allOdds m = true <->
  exists h d a, HomeOdds m = Some h /\ DrawOdds m = Some d /\ AwayOdds m = Some a.
Proof.
  unfold allOdds. rewrite !andb_true_iff, !notNull_true. split.
  - intros [[[h Hh] [d Hd]] [a Ha]]. exists h, d, a. auto.
  - intros [h [d [a [Hh [Hd Ha]]]]]. repeat split; eauto.
Qed.

Lemma allOdds_false (m : Match) :
  allOdds m = false <->
  HomeOdds m = None \/ DrawOdds m = None \/ AwayOdds m = None.
Proof.
  unfold allOdds.
  destruct (HomeOdds m), (DrawOdds m), (AwayOdds m); simpl; split; intros H;
    try discriminate; try reflexivity; auto;
    destruct H as [H|[H|H]]; discriminate.
Qed.

Lemma UpsertMatch_absent (env : StoreEnv) (db : DB) (fact : Match) :
  find (hasAPIID (APIID fact)) (epl_matches db) = None ->
  UpsertMatch env db fact = insertMatch (write_fails env) (new_id env) (write_time env) db fact.
Proof.
  intros H. unfold UpsertMatch.
  destruct (GetMatchByAPIID_absent (upsert_get_fails env) db _ H) as [e He].
  rewrite He. reflexivity.
Qed.

Lemma insertMatch_cases (fails : bool) (newID : string) (now : Time) (db : DB)
    (fact : Match) :
  (exists e, insertMatch fails newID now db fact = (Err e, db))
  \/ (fails = false
      /\ existsb (hasAPIID (APIID fact)) (epl_matches db) = false
      /\ exists row,
           insertMatch fails newID now db fact
           = (Ok row, withMatches db (epl_matches db ++ [row])%list)
           /\ ID row = newID /\ APIID row = APIID fact
           /\ HomeOdds row = HomeOdds fact /\ DrawOdds row = DrawOdds fact
           /\ AwayOdds row = AwayOdds fact
           /\ Completed row = Completed fact
           /\ Calculated row = Calculated fact /\ Result row = Result fact).
Proof.
  unfold insertMatch. destruct fails; [left; eexists; reflexivity|].
  destruct (existsb _ _); [left; eexists; reflexivity|].
  right. split; [reflexivity|]. split; [reflexivity|].
  eexists. split; [reflexivity|]. repeat split.
Qed.

Lemma app_one_neq {A : Type} (l : list A) (x : A) : (l ++ [x])%list <> l.
Proof.
  intros H. apply (f_equal (@List.length A)) in H.
  rewrite length_app in H. simpl in H. lia.
Qed.

(** The [INSERT] of a fixture that is not stored, when the store accepts
    the write. *)
Lemma insertMatch_absent (newID : string) (now : Time) (db : DB)
    (fact : Match) :
  find (hasAPIID (APIID fact)) (epl_matches db) = None ->
  exists row,
    insertMatch false newID now db fact
    = (Ok row, withMatches db (epl_matches db ++ [row])%list)
    /\ ID row = newID /\ APIID row = APIID fact
    /\ HomeTeam row = HomeTeam fact /\ AwayTeam row = AwayTeam fact
    /\ CommenceTime row = CommenceTime fact
    /\ HomeOdds row = HomeOdds fact /\ DrawOdds row = DrawOdds fact
    /\ AwayOdds row = AwayOdds fact
    /\ Completed row = Completed fact
    /\ Calculated row = Calculated fact /\ Result row = Result fact
    /\ UpdatedAt row = now.
Proof.
  intros Hfind. unfold insertMatch.
  rewrite (find_none_existsb _ _ Hfind).
  eexists. split; [reflexivity|]. repeat split.
Qed.

(** C8.  A record whose fixture id is not stored yet.  The odds pipeline
    stores nothing and raises the skipped counter by one, leaving the other
    counters, when one of the three odds is missing; it changes the tables
    only when the three are present; and when they are and the write
    succeeds, it appends one row to the match table, with the fixture id,
    the teams, the kick-off time and these three odds, not completed and
    not calculated, and raises the created counter by one.  The scores
    pipeline appends one row with the three odds null and raises the
    created counter by one.  Neither pipeline writes a wager or a balance
    or touches a stored row. *)
Theorem create_rules (shared : bool) (env : StoreEnv) (db : DB) (res : Results) :
  (forall ev,
     find (hasAPIID (oe_ID ev)) (epl_matches db) = None ->
     let fact := processOddsEvent shared ev in
     let st' := oddsSyncStep shared env ev (db, res) in
     (HomeOdds fact = None \/ DrawOdds fact = None \/ AwayOdds fact = None ->
      fst st' = db
      /\ skipped (snd st') = skipped res + 1
      /\ created (snd st') = created res /\ updated (snd st') = updated res)
     /\ (fst st' <> db ->
         exists h d a,
           HomeOdds fact = Some h /\ DrawOdds fact = Some d
           /\ AwayOdds fact = Some a)
     /\ (forall h d a,
           HomeOdds fact = Some h -> DrawOdds fact = Some d ->
           AwayOdds fact = Some a -> write_fails env = false ->
           exists row,
             epl_matches (fst st') = (epl_matches db ++ [row])%list
             /\ bets (fst st') = bets db /\ users (fst st') = users db
             /\ created (snd st') = created res + 1
             /\ updated (snd st') = updated res
             /\ skipped (snd st') = skipped res
             /\ ID row = new_id env /\ APIID row = oe_ID ev
             /\ HomeTeam row = oe_HomeTeam ev /\ AwayTeam row = oe_AwayTeam ev
             /\ CommenceTime row = oe_CommenceTime ev
             /\ HomeOdds row = Some h /\ DrawOdds row = Some d
             /\ AwayOdds row = Some a
             /\ Completed row = false /\ Calculated row = false
             /\ Result row = None))
  /\ (forall ev,
        find (hasAPIID (se_ID ev)) (epl_matches db) = None ->
        write_fails env = false ->
        let st' := scoresSyncStep env ev (db, res) in
        exists row,
          epl_matches (fst st') = (epl_matches db ++ [row])%list
          /\ bets (fst st') = bets db /\ users (fst st') = users db
          /\ created (snd st') = created res + 1
          /\ updated (snd st') = updated res
          /\ skipped (snd st') = skipped res
          /\ ID row = new_id env /\ APIID row = se_ID ev
          /\ HomeTeam row = se_HomeTeam ev /\ AwayTeam row = se_AwayTeam ev
          /\ CommenceTime row = se_CommenceTime ev
          /\ HomeOdds row = None /\ DrawOdds row = None /\ AwayOdds row = None
          /\ Completed row = se_Completed ev /\ Calculated row = false
          /\ Result row = None).
Proof.
  split.
  - intros ev Hfind fact st'.
    assert (Hfields : APIID fact = oe_ID ev
                      /\ HomeTeam fact = oe_HomeTeam ev
                      /\ AwayTeam fact = oe_AwayTeam ev
                      /\ CommenceTime fact = oe_CommenceTime ev
                      /\ Completed fact = false /\ Calculated fact = false
                      /\ Result fact = None).
    { unfold fact, processOddsEvent.
      destruct (extractOdds shared ev) as [[h d] a]. repeat split. }
    destruct Hfields as [Hid [Hht [Hat [Hct [Hco [Hca Hre]]]]]].
    assert (Hget : exists e, GetMatchByAPIID (get_fails env) db (APIID fact) = Err e).
    { apply GetMatchByAPIID_absent. rewrite Hid. exact Hfind. }
    destruct Hget as [e0 Hget].
    assert (Hst : st' = if negb (allOdds fact) then (db, incSkipped res)
                        else match UpsertMatch env db fact with
                             | (Err _, db') => (db', res)
                             | (Ok _, db') => (db', incCreated res)
                             end).
    { unfold st', oddsSyncStep. fold fact. rewrite Hget. reflexivity. }
    assert (Hups : UpsertMatch env db fact
                   = insertMatch (write_fails env) (new_id env) (write_time env)
                       db fact).
    { apply UpsertMatch_absent. rewrite Hid. exact Hfind. }
    split; [|split].
    + intros Hnone. apply allOdds_false in Hnone. rewrite Hst, Hnone.
      repeat split.
    + intros Hchanged. apply allOdds_true.
      destruct (allOdds fact) eqn:Hall; [reflexivity|].
      rewrite Hst in Hchanged. simpl in Hchanged. contradiction.
    + intros h d a Hh Hd Ha Hw.
      assert (Hall : allOdds fact = true).
      { apply allOdds_true. exists h, d, a. auto. }
      rewrite Hst, Hall, Hups, Hw. cbn [negb].
      destruct (insertMatch_absent (new_id env) (write_time env) db fact)
        as [row [Hins [Hrid [Hra [Hrht [Hrat [Hrct [Hrh [Hrd [Hraw
                       [Hrco [Hrca [Hrre _]]]]]]]]]]]]].
      { rewrite Hid. exact Hfind. }
      exists row. rewrite Hins. cbn [fst snd withMatches epl_matches bets users
                                     incCreated created updated skipped].
      repeat split; congruence.
  - intros ev Hfind Hw st'.
    set (fact := withOdds None None None (processScoreEvent ev)).
    assert (Hfields : APIID fact = se_ID ev
                      /\ HomeTeam fact = se_HomeTeam ev
                      /\ AwayTeam fact = se_AwayTeam ev
                      /\ CommenceTime fact = se_CommenceTime ev
                      /\ HomeOdds fact = None /\ DrawOdds fact = None
                      /\ AwayOdds fact = None
                      /\ Completed fact = se_Completed ev
                      /\ Calculated fact = false /\ Result fact = None).
    { unfold fact, processScoreEvent.
      destruct (scoreLoop _ _ _ _ _) as [h a]. repeat split. }
    destruct Hfields as [Hfid [Hht [Hat [Hct [Hh [Hd [Ha [Hco [Hca Hre]]]]]]]]].
    destruct (processScoreEvent_fields ev) as [Hid _].
    destruct (GetMatchByAPIID_absent (get_fails env) db (se_ID ev) Hfind)
      as [e0 Hget].
    assert (Hst : st'
                  = match UpsertMatch env db fact with
                    | (Err _, db') => (db', res)
                    | (Ok _, db') => (db', incCreated res)
                    end).
    { unfold st', scoresSyncStep. rewrite Hid, Hget. reflexivity. }
    rewrite Hst, UpsertMatch_absent by (rewrite Hfid; exact Hfind).
    rewrite Hw.
    destruct (insertMatch_absent (new_id env) (write_time env) db fact)
      as [row [Hins [Hrid [Hra [Hrht [Hrat [Hrct [Hrh [Hrd [Hraw
                     [Hrco [Hrca [Hrre _]]]]]]]]]]]]].
    { rewrite Hfid. exact Hfind. }
    exists row. rewrite Hins. cbn [fst snd withMatches epl_matches bets users
                                   incCreated created updated skipped].
    repeat split; congruence.
Qed.

Lemma create_rules_witness :
  let skip :=
    oddsSyncStep false (noStoreFaults "row-1")
      {| oe_ID := "fx-1"; oe_CommenceTime := 1700000000;
         oe_HomeTeam := "Arsenal"; oe_AwayTeam := "Chelsea"; Bookmakers := [] |}
      (emptyDB, noResults) in
  let made :=
    oddsSyncStep false (noStoreFaults "row-1") oddsEvent_demo
      (emptyDB, noResults) in
  (fst skip = emptyDB /\ skipped (snd skip) = 1 /\ created (snd skip) = 0)
  /\ exists row,
       epl_matches (fst made) = [row]
       /\ created (snd made) = 1 /\ skipped (snd made) = 0
       /\ APIID row = "fx-1"
       /\ HomeOdds row = Some 155 /\ DrawOdds row = Some 350
       /\ AwayOdds row = Some 510.
Proof.
  split.
  - destruct (proj1 (proj1 (create_rules false (noStoreFaults "row-1") emptyDB
                              noResults)
                       {| oe_ID := "fx-1"; oe_CommenceTime := 1700000000;
                          oe_HomeTeam := "Arsenal"; oe_AwayTeam := "Chelsea";
                          Bookmakers := [] |} eq_refl)
                (or_introl eq_refl))
      as [H1 [H2 [H3 _]]].
    split; [exact H1|]. split; [exact H2|exact H3].
  - destruct (proj2 (proj2
                (proj1 (create_rules false (noStoreFaults "row-1") emptyDB
                          noResults)
                   oddsEvent_demo eq_refl))
                155 350 510 eq_refl eq_refl eq_refl eq_refl)
      as [row [H1 [_ [_ [H2 [_ [H3 [_ [H4 [_ [_ [_ [H5 [H6 [H7 _]]]]]]]]]]]]]]].
    exists row. repeat split; assumption.
Defined.

(** ** Batches *)

Lemma Decode_fails {R E : Type} (one : R -> option E) (records : list R) (r : R) :
  In r records -> one r = None -> Decode one records = None.
Proof.
  induction records as [|x records IH]; intros Hin Hr; simpl; [contradiction|].
  destruct Hin as [->|Hin].
  - rewrite Hr. reflexivity.
  - destruct (one x); [|reflexivity]. rewrite (IH Hin Hr). reflexivity.
Qed.

Lemma fetchFromAPI_undecodable {R E : Type} (one : R -> option E)
    (apiKey : string) (statusCode : Z) (records : list R) (r : R) :
  In r records -> one r = None ->
  exists e, fetchFromAPI one apiKey (Reply statusCode (Some records)) = Err e.
Proof.
  intros Hin Hr. unfold fetchFromAPI.
  destruct (apiKey =? "")%string; [eexists; reflexivity|].
  destruct (negb (statusCode =? 200)); [eexists; reflexivity|].
  rewrite (Decode_fails one records r Hin Hr). eexists; reflexivity.
Qed.

Lemma syncLoop_app {E : Type} (step : StoreEnv -> E -> DB * Results -> DB * Results)
    (envs : nat -> StoreEnv) (l1 l2 : list E) :
  forall i st,
    syncLoop step envs i (l1 ++ l2)%list st
    = syncLoop step envs (i + List.length l1) l2 (syncLoop step envs i l1 st).
Proof.
  induction l1 as [|e l1 IH]; intros i st; simpl.
  - rewrite Nat.add_0_r. reflexivity.
  - rewrite IH. f_equal. lia.
Qed.

Lemma syncLoop_ext {E : Type} (step : StoreEnv -> E -> DB * Results -> DB * Results)
    (envs envs' : nat -> StoreEnv) (l : list E) :
  forall i j st,
    (forall k, (k < List.length l)%nat -> envs (i + k)%nat = envs' (j + k)%nat) ->
    syncLoop step envs i l st = syncLoop step envs' j l st.
Proof.
  induction l as [|e l IH]; intros i j st H; simpl; [reflexivity|].
  pose proof (H 0%nat ltac:(simpl; lia)) as H0. rewrite !Nat.add_0_r in H0.
  rewrite H0. apply IH. intros k Hk.
  replace (S i + k)%nat with (i + S k)%nat by lia.
  replace (S j + k)%nat with (j + S k)%nat by lia.
  apply H. simpl. lia.
Qed.

(** A record whose step changes nothing can be taken out of the batch. *)
Lemma syncLoop_skip {E : Type} (step : StoreEnv -> E -> DB * Results -> DB * Results)
    (envs : nat -> StoreEnv) (l1 l2 : list E) (e : E) (st : DB * Results) :
  (forall st0, step (envs (List.length l1)) e st0 = st0) ->
  syncLoop step envs 0 (l1 ++ e :: l2)%list st
  = syncLoop step (dropEnv (List.length l1) envs) 0 (l1 ++ l2)%list st.
Proof.
  intros Hid. rewrite !syncLoop_app. simpl. rewrite Hid.
  rewrite (syncLoop_ext step envs (dropEnv (List.length l1) envs) l1 0 0 st).
  - apply syncLoop_ext. intros k Hk. unfold dropEnv.
    destruct (Nat.ltb_spec (List.length l1 + k) (List.length l1)); [lia|].
    reflexivity.
  - intros k Hk. unfold dropEnv. simpl.
    destruct (Nat.ltb_spec k (List.length l1)); [reflexivity|lia].
Qed.

Lemma UpdateMatchByAPIID_fails (db : DB) (apiID : string) (now : Time) (fact : Match) :
  UpdateMatchByAPIID true now db apiID fact = (Err ErrStore, db).
Proof. reflexivity. Qed.

Lemma UpsertMatch_write_fails (env : StoreEnv) (db : DB) (fact : Match) :
  write_fails env = true ->
  UpsertMatch env db fact = (Err ErrStore, db).
Proof.
  intros Hw. unfold UpsertMatch, UpdateMatchByAPIID, insertMatch. rewrite Hw.
  destruct (GetMatchByAPIID _ _ _); reflexivity.
Qed.

Lemma oddsSyncStep_write_fails (shared : bool) (env : StoreEnv)
    (ev : OddsAPIEvent) (st : DB * Results) :
  write_fails env = true ->
  allOdds (processOddsEvent shared ev) = true ->
  oddsSyncStep shared env ev st = st.
Proof.
  intros Hw Hall. destruct st as [db res]. unfold oddsSyncStep.
  rewrite Hall, (UpsertMatch_write_fails env db _ Hw), Hw. simpl.
  destruct (GetMatchByAPIID _ _ _); reflexivity.
Qed.

Lemma scoresSyncStep_write_fails (env : StoreEnv) (ev : ScoresAPIEvent)
    (st : DB * Results) :
  write_fails env = true ->
  scoresSyncStep env ev st = st.
Proof.
  intros Hw. destruct st as [db res]. unfold scoresSyncStep.
  rewrite (UpsertMatch_write_fails env db _ Hw), Hw. simpl.
  destruct (GetMatchByAPIID _ _ _); reflexivity.
Qed.

(** C9, the counterexample.  Nine well-formed records alone are stored as
    nine new matches; with one record whose timestamp does not parse in
    front of them the sync answers with an error and stores nothing. *)
Lemma batch_resilience_counterexample :
  fst (oddsSyncHandler false true "key" (Reply 200 (Some nineValid_demo))
         batchEnvs_demo emptyDB)
  = SyncSummary {| created := 9; updated := 0; skipped := 0 |}
  /\ oddsSyncHandler false true "key"
       (Reply 200 (Some (malformed_demo :: nineValid_demo)))
       batchEnvs_demo emptyDB
     = (InternalServerError, emptyDB).
Proof. split; reflexivity. Qed.

(** C9, as amended.  A record whose timestamp does not parse fails the
    decoding of the whole reply: the sync answers with an error and writes
    nothing.  Among the records of a decoded batch, one with the three odds
    (odds sync) or any one (scores sync) whose store write fails is left
    out, and the batch ends as the batch without that record does. *)
Theorem malformed_fails_batch_store_failure_skips_record
    (shared : bool) (apiKey : string) (statusCode : Z)
    (envs : nat -> StoreEnv) (db : DB) :
  (forall records r text,
     In r records -> ro_commence_time r = BadTime text ->
     oddsSyncHandler shared true apiKey (Reply statusCode (Some records)) envs db
     = (InternalServerError, db))
  /\ (forall records r text,
        In r records -> rs_commence_time r = BadTime text ->
        scoresSyncHandler true apiKey (Reply statusCode (Some records)) envs db
        = (InternalServerError, db))
  /\ (forall l1 ev l2 res,
        write_fails (envs (List.length l1)) = true ->
        allOdds (processOddsEvent shared ev) = true ->
        syncLoop (oddsSyncStep shared) envs 0 (l1 ++ ev :: l2)%list (db, res)
        = syncLoop (oddsSyncStep shared) (dropEnv (List.length l1) envs) 0
            (l1 ++ l2)%list (db, res))
  /\ (forall l1 ev l2 res,
        write_fails (envs (List.length l1)) = true ->
        syncLoop scoresSyncStep envs 0 (l1 ++ ev :: l2)%list (db, res)
        = syncLoop scoresSyncStep (dropEnv (List.length l1) envs) 0
            (l1 ++ l2)%list (db, res)).
Proof.
  split; [|split; [|split]].
  - intros records r text Hin Hbad. unfold oddsSyncHandler, fetchOddsFromAPI.
    destruct (fetchFromAPI_undecodable decodeOddsRecord apiKey statusCode
                records r Hin) as [e He].
    + unfold decodeOddsRecord. rewrite Hbad. reflexivity.
    + simpl. rewrite He. reflexivity.
  - intros records r text Hin Hbad. unfold scoresSyncHandler, fetchScoresFromAPI.
    destruct (fetchFromAPI_undecodable decodeScoresRecord apiKey statusCode
                records r Hin) as [e He].
    + unfold decodeScoresRecord. rewrite Hbad. reflexivity.
    + simpl. rewrite He. reflexivity.
  - intros l1 ev l2 res Hw Hall. apply syncLoop_skip.
    intros st0. apply oddsSyncStep_write_fails; assumption.
  - intros l1 ev l2 res Hw. apply syncLoop_skip.
    intros st0. apply scoresSyncStep_write_fails; assumption.
Qed.

Lemma malformed_fails_batch_store_failure_skips_record_witness :
  oddsSyncHandler false true "key"
    (Reply 200 (Some (malformed_demo :: nineValid_demo))) batchEnvs_demo emptyDB
  = (InternalServerError, emptyDB)
  /\ syncLoop (oddsSyncStep false) secondWriteFails_demo 0 threeEvents_demo
       (emptyDB, noResults)
     = syncLoop (oddsSyncStep false) (dropEnv 1 secondWriteFails_demo) 0
         [nth 0 threeEvents_demo oddsEvent_demo;
          nth 2 threeEvents_demo oddsEvent_demo]
         (emptyDB, noResults).
Proof.
  split.
  - exact (proj1 (malformed_fails_batch_store_failure_skips_record
                    false "key" 200 batchEnvs_demo emptyDB)
             (malformed_demo :: nineValid_demo) malformed_demo "tomorrow"
             (or_introl eq_refl) eq_refl).
  - exact (proj1 (proj2 (proj2
             (malformed_fails_batch_store_failure_skips_record
                false "key" 200 secondWriteFails_demo emptyDB)))
             [nth 0 threeEvents_demo oddsEvent_demo]
             (nth 1 threeEvents_demo oddsEvent_demo)
             [nth 2 threeEvents_demo oddsEvent_demo]
             noResults eq_refl eq_refl).
Defined.

(** ** The settlement loop *)

Lemma calcStep_cases (env : CalcEnv) (i : nat) (c : Match) (db : DB) (n : Z)
    (l : list CalculatedMatch) :
  calcStep env i c (db, n, l) = (db, n, l)
  \/ (exists r, calcStep env i c (db, n, l) = (settlement db (APIID c) r, n, l))
  \/ (exists r cm,
        calcStep env i c (db, n, l)
        = (marked (mark_time env i) (settlement db (APIID c) r) (APIID c) r,
           n + 1, (l ++ [cm])%list)).
Proof.
  unfold calcStep.
  destruct (HomeScore c) as [hs|]; [|left; reflexivity].
  destruct (AwayScore c) as [aw|]; [|left; reflexivity].
  destruct (UpdateBetsStatusAndUserMoney_cases (tx_faults env i) db (APIID c)
              (computeResult hs aw)) as [[e He]|Hs].
  - rewrite He. left. reflexivity.
  - rewrite Hs. unfold UpdateMatchCalculated.
    destruct (mark_fails env i).
    + right. left. eexists. reflexivity.
    + right. right. eexists. eexists. reflexivity.
Qed.

(** A property of the tables that every committed transaction and every
    follow-up write of the candidates keeps holds after the loop. *)
Lemma calcLoop_invariant (P : DB -> Prop) (env : CalcEnv) (cands : list Match) :
  (forall c db r t, In c cands -> P db ->
     P (settlement db (APIID c) r)
     /\ P (marked t (settlement db (APIID c) r) (APIID c) r)) ->
  forall i st, P (fst (fst st)) -> P (fst (fst (calcLoop env i cands st))).
Proof.
  induction cands as [|c cands IH]; intros Hstep i st HP; simpl; [exact HP|].
  apply IH.
  - intros c' db r t Hc'. apply Hstep. right. exact Hc'.
  - destruct st as [[db n] l]. simpl in HP.
    destruct (calcStep_cases env i c db n l) as [H|[[r H]|[r [cm H]]]];
      rewrite H; simpl.
    + exact HP.
    + apply (Hstep c db r 0); [left; reflexivity|exact HP].
    + apply (Hstep c db r (mark_time env i)); [left; reflexivity|exact HP].
Qed.

Lemma calcHandler_invariant (P : DB -> Prop) (admin : bool) (env : CalcEnv)
    (db0 : DB) :
  (forall c db r t,
     In c (epl_matches db0) -> completedUncalculated c = true -> P db ->
     P (settlement db (APIID c) r)
     /\ P (marked t (settlement db (APIID c) r) (APIID c) r)) ->
  P db0 -> P (snd (calcHandler admin env db0)).
Proof.
  intros Hstep HP. unfold calcHandler.
  destruct admin; simpl; [|exact HP].
  unfold GetCompletedUncalculatedMatches.
  destruct (select_fails env); simpl; [exact HP|].
  pose proof (calcLoop_invariant P env
                (filter completedUncalculated (epl_matches db0))) as H.
  specialize (H (fun c db r t Hc =>
                   Hstep c db r t (proj1 (proj1 (filter_In _ _ _) Hc))
                         (proj2 (proj1 (filter_In _ _ _) Hc)))).
  specialize (H 0%nat (db0, 0, []) HP).
  destruct (calcLoop env 0 _ (db0, 0, [])) as [[db' n] l]. exact H.
Qed.

Lemma NoDup_map_eq {A B : Type} (f : A -> B) (l : list A) (x y : A) :
  NoDup (map f l) -> In x l -> In y l -> f x = f y -> x = y.
Proof.
  induction l as [|a l IH]; intros Hnd Hx Hy Hf; [contradiction|].
  simpl in Hnd. inversion Hnd as [|? ? Hnotin Hnd']; subst.
  destruct Hx as [->|Hx], Hy as [->|Hy].
  - reflexivity.
  - exfalso. apply Hnotin. rewrite Hf. apply in_map. exact Hy.
  - exfalso. apply Hnotin. rewrite <- Hf. apply in_map. exact Hx.
  - apply IH; assumption.
Qed.

Lemma completedUncalculated_not_calculated (c : Match) :
  completedUncalculated c = true -> Calculated c = false.
Proof. intros H. apply completedUncalculated_true in H. tauto. Qed.

Lemma marked_row_other (t : Time) (db : DB) (apiID result : string) (i : nat)
    (m : Match) :
  nth_error (epl_matches db) i = Some m -> APIID m <> apiID ->
  nth_error (epl_matches (marked t db apiID result)) i = Some m.
Proof.
  intros Hi Hne. unfold marked. simpl. rewrite nth_error_map, Hi. simpl.
  rewrite (proj2 (hasAPIID_false apiID m) Hne). reflexivity.
Qed.

(** With unique fixture ids, a run of [calcHandler] leaves in place every
    row that its candidate query does not select. *)
Lemma calcHandler_keeps_row (admin : bool) (env : CalcEnv) (db : DB)
    (i : nat) (m : Match) :
  NoDup (map APIID (epl_matches db)) ->
  nth_error (epl_matches db) i = Some m ->
  completedUncalculated m = false ->
  nth_error (epl_matches (snd (calcHandler admin env db))) i = Some m.
Proof.
  intros Hnd Hi Hm.
  apply (calcHandler_invariant
           (fun db' => nth_error (epl_matches db') i = Some m)); [|exact Hi].
  intros c db' r t Hc Hcu HP.
  assert (Hne : APIID m <> APIID c).
  { intros Heq.
    assert (m = c).
    { apply (NoDup_map_eq APIID (epl_matches db)); try assumption.
      apply nth_error_In in Hi. exact Hi. }
    subst c. congruence. }
  split.
  - exact HP.
  - apply marked_row_other; [exact HP|exact Hne].
Qed.

Lemma settleBet_match_id (matchAPIID result : string) (b : Bet) :
  match_id (settleBet matchAPIID result b) = match_id b.
Proof. unfold settleBet. destruct (isPendingOn matchAPIID b); reflexivity. Qed.

Lemma settleBet_other_match (matchAPIID result : string) (b : Bet) :
  match_id b <> matchAPIID -> settleBet matchAPIID result b = b.
Proof. intros H. apply settleBet_other. left. exact H. Qed.

(** With unique fixture ids, a run of [calcHandler] leaves in place every
    wager on a match that its candidate query does not select. *)
Lemma calcHandler_keeps_wager (admin : bool) (env : CalcEnv) (db : DB)
    (m : Match) (j : nat) (b : Bet) :
  NoDup (map APIID (epl_matches db)) ->
  In m (epl_matches db) ->
  completedUncalculated m = false ->
  nth_error (bets db) j = Some b ->
  match_id b = APIID m ->
  nth_error (bets (snd (calcHandler admin env db))) j = Some b.
Proof.
  intros Hnd Hin Hm Hj Hb.
  apply (calcHandler_invariant
           (fun db' => nth_error (bets db') j = Some b)); [|exact Hj].
  intros c db' r t Hc Hcu HP.
  assert (Hne : match_id b <> APIID c).
  { rewrite Hb. intros Heq.
    assert (m = c) by (apply (NoDup_map_eq APIID (epl_matches db)); assumption).
    subst c. congruence. }
  assert (Hs : nth_error (bets (settlement db' (APIID c) r)) j = Some b).
  { simpl. rewrite nth_error_map, HP. simpl.
    rewrite (settleBet_other_match _ _ _ Hne). reflexivity. }
  split; [exact Hs|exact Hs].
Qed.

(** C6, as amended.  The candidate query returns exactly the stored matches
    that are completed, not calculated, and whose two scores are non-null
    and different from -1.  A completed match whose home score is null is
    not returned, and a run of the settlement handler leaves its row as it
    is. *)
Theorem candidate_set_exact (admin : bool) (env : CalcEnv) (db : DB) :
  (exists candidates,
     GetCompletedUncalculatedMatches false db = Ok candidates
     /\ forall m,
          In m candidates <->
          In m (epl_matches db)
          /\ Completed m = true /\ Calculated m = false
          /\ (exists hs, HomeScore m = Some hs /\ hs <> -1)
          /\ (exists aw, AwayScore m = Some aw /\ aw <> -1))
  /\ (forall fails candidates m,
        GetCompletedUncalculatedMatches fails db = Ok candidates ->
        Completed m = true -> HomeScore m = None -> ~ In m candidates)
  /\ (NoDup (map APIID (epl_matches db)) ->
      forall i m,
        nth_error (epl_matches db) i = Some m ->
        Completed m = true -> HomeScore m = None ->
        nth_error (epl_matches (snd (calcHandler admin env db))) i = Some m).
Proof.
  assert (Hnull : forall m, HomeScore m = None -> completedUncalculated m = false).
  { intros m Hh. unfold completedUncalculated. rewrite Hh. simpl.
    rewrite !andb_false_r. reflexivity. }
  split; [|split].
  - exists (filter completedUncalculated (epl_matches db)).
    split; [reflexivity|]. intros m.
    rewrite filter_In, completedUncalculated_true. tauto.
  - intros fails candidates m Hsel _ Hh Hin.
    unfold GetCompletedUncalculatedMatches in Hsel.
    destruct fails; [discriminate|]. injection Hsel as <-.
    apply filter_In in Hin. rewrite (Hnull m Hh) in Hin.
    destruct Hin as [_ Hin]. discriminate.
  - intros Hnd i m Hi _ Hh.
    apply calcHandler_keeps_row; [exact Hnd|exact Hi|exact (Hnull m Hh)].
Qed.

Lemma candidate_set_exact_witness :
  GetCompletedUncalculatedMatches false twoMatchDB_demo = Ok [storedMatch_demo]
  /\ nth_error
       (epl_matches (snd (calcHandler true noCalcFaults twoMatchDB_demo))) 1
     = Some nullScore_demo.
Proof.
  split; [reflexivity|].
  refine (proj2 (proj2 (candidate_set_exact true noCalcFaults twoMatchDB_demo))
            _ 1%nat nullScore_demo eq_refl eq_refl eq_refl).
  simpl. repeat constructor; simpl; intuition discriminate.
Defined.

(** ** Settled is terminal *)

Lemma UpdateMatchByAPIID_write (fails : bool) (db : DB) (apiID : string)
    (now : Time) (fact : Match) :
  write db (snd (UpdateMatchByAPIID fails now db apiID fact)).
Proof.
  unfold UpdateMatchByAPIID. destruct fails; [apply write_none|].
  destruct (find _ _); simpl; [apply write_update|apply write_none].
Qed.

Lemma insertMatch_write (fails : bool) (newID : string) (now : Time) (db : DB) (fact : Match) :
  Calculated fact = false ->
  write db (snd (insertMatch fails newID now db fact)).
Proof.
  intros Hc.
  destruct (insertMatch_cases fails newID now db fact)
    as [[e He]|[_ [Hex [row [Hins [_ [Hid [_ [_ [_ [_ [Hcalc _]]]]]]]]]]]].
  - rewrite He. apply write_none.
  - rewrite Hins. simpl. apply write_insert; [congruence|].
    rewrite Hid. exact Hex.
Qed.

Lemma UpsertMatch_write (env : StoreEnv) (db : DB) (fact : Match) :
  Calculated fact = false ->
  write db (snd (UpsertMatch env db fact)).
Proof.
  intros Hc. unfold UpsertMatch. destruct (GetMatchByAPIID _ _ _).
  - apply UpdateMatchByAPIID_write.
  - apply insertMatch_write. exact Hc.
Qed.

(** Closes a goal [write db (fst (match call with ... end))] where [call]
    is the store call named by the lemma [Hcall] on its effect. *)
Ltac by_store_call call Hcall :=
  let Hw := fresh "Hw" in
  pose proof Hcall as Hw;
  destruct call as [[?|?] ?]; exact Hw.

Lemma oddsSyncStep_write (shared : bool) (env : StoreEnv) (ev : OddsAPIEvent)
    (db : DB) (res : Results) :
  write db (fst (oddsSyncStep shared env ev (db, res))).
Proof.
  destruct (processOddsEvent_fields shared ev) as [_ [_ [Hc _]]].
  unfold oddsSyncStep. destruct (GetMatchByAPIID _ _ _) as [ex|e].
  - match goal with
    | |- context [UpdateMatchByAPIID ?f ?t db ?a ?m] =>
        by_store_call (UpdateMatchByAPIID f t db a m)
                      (UpdateMatchByAPIID_write f db a t m)
    end.
  - destruct (negb _); [apply write_none|].
    by_store_call (UpsertMatch env db (processOddsEvent shared ev))
                  (UpsertMatch_write env db (processOddsEvent shared ev) Hc).
Qed.

Lemma scoresSyncStep_write (env : StoreEnv) (ev : ScoresAPIEvent)
    (db : DB) (res : Results) :
  write db (fst (scoresSyncStep env ev (db, res))).
Proof.
  destruct (processScoreEvent_fields ev) as [_ [_ [Hc _]]].
  unfold scoresSyncStep. destruct (GetMatchByAPIID _ _ _) as [ex|e].
  - match goal with
    | |- context [UpdateMatchByAPIID ?f ?t db ?a ?m] =>
        by_store_call (UpdateMatchByAPIID f t db a m)
                      (UpdateMatchByAPIID_write f db a t m)
    end.
  - by_store_call
      (UpsertMatch env db (withOdds None None None (processScoreEvent ev)))
      (UpsertMatch_write env db
         (withOdds None None None (processScoreEvent ev)) Hc).
Qed.

Lemma syncLoop_invariant {E : Type} (P : DB -> Prop)
    (step : StoreEnv -> E -> DB * Results -> DB * Results)
    (envs : nat -> StoreEnv) :
  (forall env e db res, write db (fst (step env e (db, res)))) ->
  (forall db db', write db db' -> P db -> P db') ->
  forall l i st, P (fst st) -> P (fst (syncLoop step envs i l st)).
Proof.
  intros Hstep HP. induction l as [|e l IH]; intros i st H; simpl; [exact H|].
  apply IH. destruct st as [db res]. simpl in H.
  apply (HP db); [apply Hstep|exact H].
Qed.

Lemma oddsSyncHandler_invariant (P : DB -> Prop) shared admin apiKey reply envs db :
  (forall db db', write db db' -> P db -> P db') ->
  P db -> P (snd (oddsSyncHandler shared admin apiKey reply envs db)).
Proof.
  intros HP H. unfold oddsSyncHandler. destruct admin; simpl; [|exact H].
  destruct (fetchOddsFromAPI apiKey reply) as [[|ev evs]|e]; simpl; try exact H.
  pose proof (syncLoop_invariant P (oddsSyncStep shared) envs
                (oddsSyncStep_write shared) HP (ev :: evs) 0%nat (db, noResults) H)
    as Hl.
  destruct (syncLoop _ _ _ _ _) as [db' res]. exact Hl.
Qed.

Lemma scoresSyncHandler_invariant (P : DB -> Prop) admin apiKey reply envs db :
  (forall db db', write db db' -> P db -> P db') ->
  P db -> P (snd (scoresSyncHandler admin apiKey reply envs db)).
Proof.
  intros HP H. unfold scoresSyncHandler. destruct admin; simpl; [|exact H].
  destruct (fetchScoresFromAPI apiKey reply) as [[|ev evs]|e]; simpl; try exact H.
  pose proof (syncLoop_invariant P scoresSyncStep envs
                scoresSyncStep_write HP (ev :: evs) 0%nat (db, noResults) H)
    as Hl.
  destruct (syncLoop _ _ _ _ _) as [db' res]. exact Hl.
Qed.

Lemma settledKept_refl (db : DB) : settledKept db db.
Proof. intros i m Hi. exists m. auto. Qed.

Lemma settledKept_trans (db1 db2 db3 : DB) :
  settledKept db1 db2 -> settledKept db2 db3 -> settledKept db1 db3.
Proof.
  intros H12 H23 i m Hi.
  destruct (H12 i m Hi) as [m2 [Hi2 [Ha2 Hc2]]].
  destruct (H23 i m2 Hi2) as [m3 [Hi3 [Ha3 Hc3]]].
  exists m3. split; [exact Hi3|]. split; [congruence|].
  intros Hc. destruct (Hc2 Hc) as [Hc2' Hr2]. destruct (Hc3 Hc2') as [Hc3' Hr3].
  split; congruence.
Qed.

(** Rows that a map rewrites without touching id, flag and result. *)
Lemma settledKept_map (db : DB) (f : Match -> Match) :
  (forall r, APIID (f r) = APIID r
             /\ (Calculated r = true ->
                 Calculated (f r) = true /\ Result (f r) = Result r)) ->
  settledKept db (withMatches db (map f (epl_matches db))).
Proof.
  intros Hf i m Hi. exists (f m). split.
  - simpl. apply nth_error_map_some. exact Hi.
  - apply Hf.
Qed.

Lemma not_in_ids (apiID : string) (rows : list Match) :
  existsb (hasAPIID apiID) rows = false -> ~ In apiID (map APIID rows).
Proof.
  intros Hex Hin. apply in_map_iff in Hin. destruct Hin as [m [Hid Hin]].
  assert (existsb (hasAPIID apiID) rows = true).
  { apply existsb_exists. exists m. split; [exact Hin|].
    apply hasAPIID_true. exact Hid. }
  congruence.
Qed.

Lemma NoDup_snoc {A : Type} (l : list A) (x : A) :
  NoDup l -> ~ In x l -> NoDup (l ++ [x])%list.
Proof.
  induction l as [|a l IH]; intros Hnd Hx; simpl.
  - constructor; [intros []|constructor].
  - inversion Hnd as [|? ? Ha Hnd']; subst. constructor.
    + intros Hin. apply in_app_or in Hin. destruct Hin as [Hin|[Heq|[]]].
      * contradiction.
      * apply Hx. left. symmetry. exact Heq.
    + apply IH; [exact Hnd'|]. intros Hin. apply Hx. right. exact Hin.
Qed.

Lemma setColumns_keeps (now : Time) (fact r : Match) :
  APIID (setColumns now fact r) = APIID r
  /\ Calculated (setColumns now fact r) = Calculated r
  /\ Result (setColumns now fact r) = Result r.
Proof. repeat split. Qed.

Lemma map_ids_kept (f : Match -> Match) (rows : list Match) :
  (forall r, APIID (f r) = APIID r) -> map APIID (map f rows) = map APIID rows.
Proof. intros Hf. rewrite map_map. apply map_ext. exact Hf. Qed.

Lemma write_consistentSince (db0 db db' : DB) :
  write db db' -> consistentSince db0 db -> consistentSince db0 db'.
Proof.
  intros Hw [Hu [Hc Hk]]. destruct Hw as [db|db apiID now fact|db row Hrow Hnew].
  - exact (conj Hu (conj Hc Hk)).
  - set (f := fun r => if hasAPIID apiID r then setColumns now fact r else r).
    assert (Hf : forall r, APIID (f r) = APIID r
                           /\ Calculated (f r) = Calculated r
                           /\ Result (f r) = Result r).
    { intros r. unfold f. destruct (hasAPIID apiID r); [|repeat split].
      apply setColumns_keeps. }
    split; [|split].
    + unfold uniqueIDs. simpl. rewrite map_ids_kept; [exact Hu|].
      intros r. apply Hf.
    + intros m Hin Hcalc. simpl in Hin. apply in_map_iff in Hin.
      destruct Hin as [r [<- Hin]].
      destruct (Hf r) as [Ha [Hcc Hr]]. rewrite Hcc in Hcalc.
      destruct (Hc r Hin Hcalc) as [Hres Hbets]. split.
      * rewrite Hr. exact Hres.
      * rewrite Ha. exact Hbets.
    + apply (settledKept_trans db0 db); [exact Hk|].
      apply settledKept_map. intros r. destruct (Hf r) as [Ha [Hcc Hr]].
      split; [exact Ha|]. intros Hcalc. split; congruence.
  - split; [|split].
    + unfold uniqueIDs. simpl. rewrite map_app. simpl.
      apply NoDup_snoc; [exact Hu|]. apply not_in_ids. exact Hnew.
    + intros m Hin Hcalc. simpl in Hin. apply in_app_or in Hin.
      destruct Hin as [Hin|[<-|[]]]; [|congruence].
      exact (Hc m Hin Hcalc).
    + apply (settledKept_trans db0 db); [exact Hk|].
      intros i m Hi. exists m. split; [|auto].
      simpl. rewrite nth_error_app1; [exact Hi|].
      apply nth_error_Some. congruence.
Qed.

Lemma settleBet_status (matchAPIID result : string) (b : Bet) :
  status b <> "pending" -> status (settleBet matchAPIID result b) <> "pending".
Proof.
  intros H. rewrite settleBet_other; [exact H|]. right. exact H.
Qed.

Lemma settleBet_terminal (matchAPIID result : string) (b : Bet) :
  match_id b = matchAPIID ->
  status (settleBet matchAPIID result b) <> "pending".
Proof.
  intros Hm. destruct (String.eqb_spec (status b) "pending") as [Hs|Hs].
  - destruct (String.eqb_spec (bet_type b) result) as [Ht|Ht].
    + rewrite settleBet_won by assumption. discriminate.
    + rewrite settleBet_lost by assumption. discriminate.
  - apply settleBet_status. exact Hs.
Qed.

Lemma settlement_consistent (db : DB) (matchAPIID result : string) :
  settledConsistent db -> settledConsistent (settlement db matchAPIID result).
Proof.
  intros Hc m Hin Hcalc. simpl in Hin.
  destruct (Hc m Hin Hcalc) as [Hres Hbets]. split; [exact Hres|].
  intros b' Hb' Hid. simpl in Hb'. apply in_map_iff in Hb'.
  destruct Hb' as [b [<- Hb]]. rewrite settleBet_match_id in Hid.
  apply settleBet_status. exact (Hbets b Hb Hid).
Qed.

Lemma marked_settlement_consistent (t : Time) (db : DB)
    (apiID result : string) :
  settledConsistent db ->
  settledConsistent (marked t (settlement db apiID result) apiID result).
Proof.
  intros Hc m' Hin Hcalc. simpl in Hin. apply in_map_iff in Hin.
  destruct Hin as [m [Hm' Hin]].
  destruct (hasAPIID apiID m) eqn:Hid.
  - subst m'. simpl. split; [eexists; reflexivity|].
    intros b' Hb' Hbid. apply in_map_iff in Hb'. destruct Hb' as [b [<- Hb]].
    rewrite settleBet_match_id in Hbid. apply settleBet_terminal.
    apply hasAPIID_true in Hid. congruence.
  - subst m'. destruct (Hc m Hin Hcalc) as [Hres Hbets]. split; [exact Hres|].
    intros b' Hb' Hbid. simpl in Hb'. apply in_map_iff in Hb'.
    destruct Hb' as [b [<- Hb]]. rewrite settleBet_match_id in Hbid.
    apply settleBet_status. exact (Hbets b Hb Hbid).
Qed.

Lemma markCalculated_id (t : Time) (result : string) (r : Match) :
  APIID (markCalculated t result r) = APIID r.
Proof. reflexivity. Qed.

Lemma calcHandler_consistentSince (admin : bool) (env : CalcEnv) (db0 : DB) :
  uniqueIDs db0 -> settledConsistent db0 ->
  consistentSince db0 (snd (calcHandler admin env db0)).
Proof.
  intros Hu0 Hc0.
  apply (calcHandler_invariant (consistentSince db0)).
  - intros c db r t Hc Hcu [Hu [Hcons Hk]].
    assert (Hs : consistentSince db0 (settlement db (APIID c) r)).
    { split; [exact Hu|]. split; [|exact Hk].
      apply settlement_consistent. exact Hcons. }
    split; [exact Hs|].
    split; [|split].
    + unfold uniqueIDs. simpl. rewrite map_ids_kept; [exact Hu|].
      intros x. destruct (hasAPIID (APIID c) x); reflexivity.
    + apply marked_settlement_consistent. exact Hcons.
    + intros i m Hi. destruct (Hk i m Hi) as [m1 [Hi1 [Ha1 Hc1]]].
      exists (if hasAPIID (APIID c) m1 then markCalculated t r m1 else m1).
      split; [|split].
      * simpl.
        apply (nth_error_map_some
                 (fun r0 => if hasAPIID (APIID c) r0 then markCalculated t r r0
                            else r0)).
        exact Hi1.
      * destruct (hasAPIID (APIID c) m1); [rewrite markCalculated_id|]; exact Ha1.
      * intros Hcalc. destruct (hasAPIID (APIID c) m1) eqn:Hid; [|auto].
        exfalso. apply hasAPIID_true in Hid.
        assert (m = c).
        { apply (NoDup_map_eq APIID (epl_matches db0)); try assumption.
          - apply nth_error_In in Hi. exact Hi.
          - congruence. }
        subst c. apply completedUncalculated_not_calculated in Hcu. congruence.
  - split; [exact Hu0|]. split; [exact Hc0|apply settledKept_refl].
Qed.

Lemma step_consistentSince (db db' : DB) :
  uniqueIDs db -> settledConsistent db -> step db db' ->
  consistentSince db db'.
Proof.
  intros Hu Hc Hstep.
  assert (H0 : consistentSince db db).
  { split; [exact Hu|]. split; [exact Hc|apply settledKept_refl]. }
  destruct Hstep.
  - apply oddsSyncHandler_invariant; [|exact H0].
    intros d d'. apply write_consistentSince.
  - apply scoresSyncHandler_invariant; [|exact H0].
    intros d d'. apply write_consistentSince.
  - apply calcHandler_consistentSince; assumption.
Qed.

Lemma reachable_consistent (db : DB) :
  reachable db -> uniqueIDs db /\ settledConsistent db.
Proof.
  induction 1 as [db Hu Hn|db db' Hr [Hu Hc] Hstep].
  - split; [exact Hu|]. intros m Hin Hcalc. rewrite (Hn m Hin) in Hcalc.
    discriminate.
  - destruct (step_consistentSince db db' Hu Hc Hstep) as [Hu' [Hc' _]].
    split; assumption.
Qed.

Lemma later_kept (db db' : DB) :
  reachable db -> later db db' -> reachable db' /\ settledKept db db'.
Proof.
  intros Hr Hl. induction Hl as [db|db db' db'' Hl IH Hstep].
  - split; [exact Hr|apply settledKept_refl].
  - destruct (IH Hr) as [Hr' Hk]. split.
    + apply (reach_step db'); assumption.
    + apply (settledKept_trans db db'); [exact Hk|].
      destruct (reachable_consistent db' Hr') as [Hu Hc].
      destruct (step_consistentSince db' db'' Hu Hc Hstep) as [_ [_ Hk']].
      exact Hk'.
Qed.

(** C7.  In every state that odds syncs, scores syncs and settlements reach
    from tables without a settled match, a calculated match has a result
    and no pending wager refers to it; and whatever operations follow, its
    row stays calculated with the same result. *)
Theorem settled_is_terminal (db : DB) :
  reachable db ->
  (forall m, In m (epl_matches db) -> Calculated m = true ->
     (exists r, Result m = Some r)
     /\ forall b, In b (bets db) -> match_id b = APIID m ->
                  status b <> "pending")
  /\ (forall db', later db db' ->
        forall i m, nth_error (epl_matches db) i = Some m ->
          Calculated m = true ->
          exists m',
            nth_error (epl_matches db') i = Some m'
            /\ APIID m' = APIID m
            /\ Calculated m' = true /\ Result m' = Result m).
Proof.
  intros Hr. split.
  - exact (proj2 (reachable_consistent db Hr)).
  - intros db' Hl i m Hi Hcalc.
    destruct (later_kept db db' Hr Hl) as [_ Hk].
    destruct (Hk i m Hi) as [m' [Hi' [Ha Hc]]].
    exists m'. destruct (Hc Hcalc). auto.
Qed.

Lemma settled_is_terminal_witness :
  let db1 := snd (calcHandler true noCalcFaults ledgerDB_demo) in
  let db2 := snd (oddsSyncHandler false true "key"
                    (Reply 200 (Some [oddsRecord_demo])) batchEnvs_demo db1) in
  (forall m, In m (epl_matches db1) -> Calculated m = true ->
     (exists r, Result m = Some r)
     /\ forall b, In b (bets db1) -> match_id b = APIID m ->
                  status b <> "pending")
  /\ exists m',
       nth_error (epl_matches db2) 0 = Some m'
       /\ APIID m' = "fx-1"
       /\ Calculated m' = true /\ Result m' = Some "home".
Proof.
  intros db1 db2.
  assert (Hr : reachable db1).
  { apply (reach_step ledgerDB_demo).
    - apply reach_start.
      + unfold uniqueIDs. simpl. constructor; [intros []|constructor].
      + intros m [<-|[]]. reflexivity.
    - apply step_settle. }
  split.
  - exact (proj1 (settled_is_terminal db1 Hr)).
  - exact (proj2 (settled_is_terminal db1 Hr) db2
             (later_step db1 db1 db2 (later_now db1)
                (step_odds_sync false true "key"
                   (Reply 200 (Some [oddsRecord_demo])) batchEnvs_demo db1))
             0%nat (markCalculated 1700020000 "home" storedMatch_demo) eq_refl eq_refl).
Defined.

(** ** Settling twice *)

Lemma creditWinners_error (cf : nat -> bool) (ws : list winningBet) :
  forall k c w0,
    pending c = Some w0 ->
    fst (creditWinners cf k ws c) = creditError cf k ws.
Proof.
  induction ws as [|w ws IH]; intros k c w0 Hp; simpl; [reflexivity|].
  unfold txCredit. destruct (cf k); [reflexivity|]. rewrite Hp.
  apply (IH _ _ (withUsers w0 (map (credit w) (users w0)))). reflexivity.
Qed.

(** The transaction in closed form. *)
Lemma UpdateBetsStatusAndUserMoney_closed (f : TxFaults) (db : DB)
    (matchAPIID result : string) :
  UpdateBetsStatusAndUserMoney f db matchAPIID result
  = match txError f (returnedRows matchAPIID result (bets db)) with
    | Some e => (Some e, db)
    | None => (None, settlement db matchAPIID result)
    end.
Proof.
  unfold UpdateBetsStatusAndUserMoney, Begin, txError, returnedRows. simpl.
  destruct (begin_fails f); [reflexivity|].
  unfold txBody, txUpdateBets. simpl.
  destruct (update_fails f); [reflexivity|].
  destruct (collectWinners (scan_fails f) 0 _ []) as [ws|e] eqn:Hcw;
    [|reflexivity].
  set (c := {| committed := db; pending := _ |}).
  pose proof (creditWinners_error (credit_fails f) ws 0 c _ eq_refl) as Herr.
  pose proof (creditWinners_committed (credit_fails f) ws 0 c) as Hcm.
  destruct (creditWinners (credit_fails f) 0 ws c) as [[e|] c'] eqn:Hcr;
    simpl in Herr, Hcm; rewrite <- Herr.
  - rewrite Hcm. reflexivity.
  - eapply creditWinners_ok in Hcr; [|reflexivity]. subst c'.
    unfold Commit. destruct (commit_fails f); [reflexivity|]. simpl.
    apply collectWinners_ok in Hcw. simpl in Hcw. rewrite returned_winners in Hcw.
    unfold settlement. rewrite Hcw, creditAll_payoutDue. reflexivity.
Qed.

Lemma filter_filter_implied {A : Type} (p q : A -> bool) (l : list A) :
  (forall x, p x = true -> q x = true) ->
  filter p (filter q l) = filter p l.
Proof.
  intros H. induction l as [|x l IH]; simpl; [reflexivity|].
  destruct (q x) eqn:Hq; simpl.
  - rewrite IH. reflexivity.
  - destruct (p x) eqn:Hp; [|exact IH].
    rewrite (H x Hp) in Hq. discriminate.
Qed.

Lemma filter_map_kept {A : Type} (q : A -> bool) (f : A -> A) (l : list A) :
  (forall x, q (f x) = q x) ->
  filter q (map f l) = map f (filter q l).
Proof.
  intros H. induction l as [|x l IH]; simpl; [reflexivity|].
  rewrite H. destruct (q x); simpl; rewrite IH; reflexivity.
Qed.

Lemma isPendingOn_notOn (matchAPIID other : string) (b : Bet) :
  matchAPIID <> other -> isPendingOn matchAPIID b = true -> notOn other b = true.
Proof.
  intros Hne H. unfold isPendingOn in H. apply andb_true_iff in H.
  destruct H as [H _]. apply String.eqb_eq in H.
  unfold notOn. apply negb_true_iff. apply String.eqb_neq. congruence.
Qed.

Lemma returnedRows_without (matchAPIID other result : string) (bs : list Bet) :
  matchAPIID <> other ->
  returnedRows matchAPIID result (filter (notOn other) bs)
  = returnedRows matchAPIID result bs.
Proof.
  intros Hne. unfold returnedRows. rewrite filter_filter_implied; [reflexivity|].
  intros b. apply isPendingOn_notOn. exact Hne.
Qed.

Lemma payoutDue_without (matchAPIID other result : string) (bs : list Bet)
    (uid : string) :
  matchAPIID <> other ->
  payoutDue matchAPIID result (filter (notOn other) bs) uid
  = payoutDue matchAPIID result bs uid.
Proof.
  intros Hne. unfold payoutDue. rewrite filter_filter_implied; [reflexivity|].
  intros b H. apply andb_true_iff in H. destruct H as [H _].
  rewrite wins_pending in H. apply andb_true_iff in H. destruct H as [H _].
  exact (isPendingOn_notOn _ _ _ Hne H).
Qed.

Lemma settlement_without (db : DB) (matchAPIID other result : string) :
  matchAPIID <> other ->
  settlement (withoutWagersOn other db) matchAPIID result
  = withoutWagersOn other (settlement db matchAPIID result).
Proof.
  intros Hne. unfold settlement, withoutWagersOn, withBets. simpl. f_equal.
  - symmetry. apply filter_map_kept. intros b. unfold notOn.
    rewrite settleBet_match_id. reflexivity.
  - apply map_ext. intros u. unfold credited.
    rewrite payoutDue_without by exact Hne. reflexivity.
Qed.

Lemma calcStep_without (env : CalcEnv) (i : nat) (c : Match) (other : string)
    (db : DB) (n : Z) (l : list CalculatedMatch) :
  APIID c <> other ->
  calcStep env i c (withoutWagersOn other db, n, l)
  = liftDB (withoutWagersOn other) (calcStep env i c (db, n, l)).
Proof.
  intros Hne. unfold calcStep.
  destruct (HomeScore c) as [hs|]; [|reflexivity].
  destruct (AwayScore c) as [aw|]; [|reflexivity].
  rewrite !UpdateBetsStatusAndUserMoney_closed.
  change (bets (withoutWagersOn other db)) with (filter (notOn other) (bets db)).
  rewrite returnedRows_without by exact Hne.
  destruct (txError _ _); [reflexivity|].
  rewrite settlement_without by exact Hne.
  unfold UpdateMatchCalculated. destruct (mark_fails env i); reflexivity.
Qed.

Lemma calcLoop_without (env : CalcEnv) (other : string) (cands : list Match) :
  (forall c, In c cands -> APIID c <> other) ->
  forall i st,
    calcLoop env i cands (liftDB (withoutWagersOn other) st)
    = liftDB (withoutWagersOn other) (calcLoop env i cands st).
Proof.
  induction cands as [|c cands IH]; intros Hne i st; [reflexivity|].
  destruct st as [[db n] l]. cbn [calcLoop liftDB].
  rewrite calcStep_without by (apply Hne; left; reflexivity).
  apply IH. intros c' Hc'. apply Hne. right. exact Hc'.
Qed.

(** The second run credits the same balances with or without the wagers on
    a match that is not a candidate. *)
Lemma calcHandler_users_without (admin : bool) (env : CalcEnv) (db : DB)
    (m : Match) :
  uniqueIDs db -> In m (epl_matches db) -> completedUncalculated m = false ->
  users (snd (calcHandler admin env (withoutWagersOn (APIID m) db)))
  = users (snd (calcHandler admin env db)).
Proof.
  intros Hu Hin Hm. unfold calcHandler. destruct admin; [|reflexivity]. simpl.
  unfold GetCompletedUncalculatedMatches.
  destruct (select_fails env); [reflexivity|].
  change (epl_matches (withoutWagersOn (APIID m) db)) with (epl_matches db).
  pose proof (calcLoop_without env (APIID m)
                (filter completedUncalculated (epl_matches db))) as H.
  assert (Hne : forall c,
             In c (filter completedUncalculated (epl_matches db)) ->
             APIID c <> APIID m).
  { intros c Hc. apply filter_In in Hc. destruct Hc as [Hc Hcu]. intros Heq.
    assert (c = m) by (apply (NoDup_map_eq APIID (epl_matches db)); assumption).
    subst c. congruence. }
  specialize (H Hne 0%nat (db, 0, [])).
  cbn [liftDB] in H. rewrite H.
  destruct (calcLoop env 0 _ (db, 0, [])) as [[db' n] l]. reflexivity.
Qed.

Lemma calcHandler_uniqueIDs (admin : bool) (env : CalcEnv) (db : DB) :
  uniqueIDs db -> uniqueIDs (snd (calcHandler admin env db)).
Proof.
  intros Hu. apply (calcHandler_invariant uniqueIDs); [|exact Hu].
  intros c db' r t _ _ Hu'. split; [exact Hu'|].
  unfold uniqueIDs. simpl. rewrite map_ids_kept; [exact Hu'|].
  intros x. destruct (hasAPIID (APIID c) x); reflexivity.
Qed.

Lemma markCalculated_not_candidate (t : Time) (result : string) (r : Match) :
  completedUncalculated (markCalculated t result r) = false.
Proof.
  unfold completedUncalculated. simpl. rewrite andb_false_r. reflexivity.
Qed.

(** After a run without failures, a row that is still a candidate stems
    from a candidate the loop did not go through. *)
Lemma calcLoop_clean_leftovers (env : CalcEnv) (cands : list Match) :
  (forall i, tx_faults env i = noTxFaults) ->
  (forall i, mark_fails env i = false) ->
  (forall c, In c cands -> completedUncalculated c = true) ->
  forall i db n l row',
    In row' (epl_matches (fst (fst (calcLoop env i cands (db, n, l))))) ->
    completedUncalculated row' = true ->
    exists row,
      In row (epl_matches db) /\ completedUncalculated row = true
      /\ APIID row = APIID row' /\ ~ In (APIID row) (map APIID cands).
Proof.
  intros Htx Hmk. induction cands as [|c cands IH];
    intros Hc i db n l row' Hin Hcu; cbn [calcLoop] in Hin.
  - simpl in Hin. exists row'. repeat split; try assumption. intros [].
  - destruct (proj1 (completedUncalculated_true c) (Hc c (or_introl eq_refl)))
      as [_ [_ [[hs [Hh _]] [aw [Ha _]]]]].
    rewrite (calcStep_settles env i c db n l hs aw Hh Ha (Htx i) (Hmk i)) in Hin.
    destruct (IH (fun c' Hc' => Hc c' (or_intror Hc')) _ _ _ _ row' Hin Hcu)
      as [row1 [Hin1 [Hcu1 [Hid1 Hnot1]]]].
    simpl in Hin1. apply in_map_iff in Hin1. destruct Hin1 as [row [Hrow Hin0]].
    destruct (hasAPIID (APIID c) row) eqn:Hid.
    + subst row1. rewrite markCalculated_not_candidate in Hcu1. discriminate.
    + subst row1. exists row. repeat split; try assumption.
      simpl. intros [Heq|Hin']; [|contradiction].
      apply hasAPIID_false in Hid. congruence.
Qed.

Lemma filter_nil {A : Type} (p : A -> bool) (l : list A) :
  (forall x, In x l -> p x = false) -> filter p l = [].
Proof.
  induction l as [|x l IH]; intros H; simpl; [reflexivity|].
  rewrite (H x (or_introl eq_refl)). apply IH.
  intros y Hy. apply H. right. exact Hy.
Qed.

Lemma calcHandler_clean_no_candidates (env : CalcEnv) (db : DB) :
  cleanRun env ->
  filter completedUncalculated (epl_matches (snd (calcHandler true env db))) = [].
Proof.
  intros [Hsel [Htx Hmk]]. apply filter_nil. intros row' Hin.
  destruct (completedUncalculated row') eqn:Hcu; [exfalso|reflexivity].
  unfold calcHandler, GetCompletedUncalculatedMatches in Hin.
  rewrite Hsel in Hin. simpl in Hin.
  pose proof (calcLoop_clean_leftovers env
                (filter completedUncalculated (epl_matches db)) Htx Hmk
                (fun c Hc => proj2 (proj1 (filter_In _ _ _) Hc))
                0%nat db 0 [] row') as H.
  destruct (calcLoop env 0 _ (db, 0, [])) as [[db' n] l]. simpl in H, Hin.
  destruct (H Hin Hcu) as [row [Hrow [Hrcu [_ Hnot]]]].
  apply Hnot. apply in_map. apply filter_In. split; assumption.
Qed.

Lemma calcHandler_no_candidates (admin : bool) (env : CalcEnv) (db : DB) :
  filter completedUncalculated (epl_matches db) = [] ->
  snd (calcHandler admin env db) = db.
Proof.
  intros H. unfold calcHandler, GetCompletedUncalculatedMatches.
  destruct admin; [|reflexivity]. simpl.
  destruct (select_fails env); [reflexivity|]. rewrite H. reflexivity.
Qed.

(** C3.  Settling twice.  For a match that is calculated after the first
    run, the second run leaves its row (flag and result) and every wager on
    it as they are, and credits the balances exactly as it would without
    the wagers on that match.  After a first run in which no store call
    failed, the second run changes nothing at all. *)
Theorem settle_idempotent (env1 env2 : CalcEnv) (db0 : DB) :
  uniqueIDs db0 ->
  let db1 := snd (calcHandler true env1 db0) in
  let db2 := snd (calcHandler true env2 db1) in
  (forall i m,
     nth_error (epl_matches db1) i = Some m -> Calculated m = true ->
     nth_error (epl_matches db2) i = Some m
     /\ (forall j b, nth_error (bets db1) j = Some b -> match_id b = APIID m ->
                     nth_error (bets db2) j = Some b)
     /\ users db2
        = users (snd (calcHandler true env2 (withoutWagersOn (APIID m) db1))))
  /\ (cleanRun env1 -> db2 = db1).
Proof.
  intros Hu0 db1 db2.
  assert (Hu1 : uniqueIDs db1) by (apply calcHandler_uniqueIDs; exact Hu0).
  split.
  - intros i m Hi Hcalc.
    assert (Hm : completedUncalculated m = false).
    { unfold completedUncalculated. rewrite Hcalc. simpl.
      rewrite andb_false_r. reflexivity. }
    assert (Hin : In m (epl_matches db1)) by (apply nth_error_In in Hi; exact Hi).
    split; [|split].
    + apply calcHandler_keeps_row; assumption.
    + intros j b Hj Hb.
      apply (calcHandler_keeps_wager true env2 db1 m); assumption.
    + symmetry. apply calcHandler_users_without; assumption.
  - intros Hclean. apply calcHandler_no_candidates.
    apply calcHandler_clean_no_candidates. exact Hclean.
Qed.

Lemma settle_idempotent_witness :
  let db1 := snd (calcHandler true firstTxFails_demo twoFinishedDB_demo) in
  let db2 := snd (calcHandler true noCalcFaults db1) in
  nth_error (epl_matches db2) 1
  = Some (markCalculated 1700020000 "draw" settledMatch_demo)
  /\ nth_error (bets db2) 2 = Some (withStatus "won" betOnFour_demo)
  /\ snd (calcHandler true noCalcFaults
            (snd (calcHandler true noCalcFaults twoFinishedDB_demo)))
     = snd (calcHandler true noCalcFaults twoFinishedDB_demo).
Proof.
  assert (Hu : uniqueIDs twoFinishedDB_demo).
  { unfold uniqueIDs. simpl. constructor.
    - intros [H|[]]. discriminate H.
    - constructor; [intros []|constructor]. }
  pose proof (proj1 (settle_idempotent firstTxFails_demo noCalcFaults
                       twoFinishedDB_demo Hu)
                1%nat (markCalculated 1700020000 "draw" settledMatch_demo)
                eq_refl eq_refl) as [Hrow [Hbets _]].
  split; [exact Hrow|].
  split; [exact (Hbets 2%nat (withStatus "won" betOnFour_demo) eq_refl eq_refl)|].
  apply (proj2 (settle_idempotent noCalcFaults noCalcFaults twoFinishedDB_demo Hu)).
  repeat split.
Defined.

(** * Further properties of the engine *)

(** ** What the sync pipelines write *)

Lemma processOddsEvent_scores (shared : bool) (ev : OddsAPIEvent) :
  HomeScore (processOddsEvent shared ev) = None
  /\ AwayScore (processOddsEvent shared ev) = None.
Proof.
  unfold processOddsEvent. destruct (extractOdds shared ev) as [[h d] a].
  split; reflexivity.
Qed.

Lemma present_not_sentinel (v : Z) : present v <> Some (-1).
Proof.
  unfold present. destruct (Z.eqb_spec v (-1)) as [->|Hne]; [discriminate|].
  intros H. injection H as H. contradiction.
Qed.

Lemma processScoreEvent_scores (ev : ScoresAPIEvent) :
  HomeScore (processScoreEvent ev) <> Some (-1)
  /\ AwayScore (processScoreEvent ev) <> Some (-1).
Proof.
  unfold processScoreEvent. destruct (scoreLoop _ _ _ _ _) as [h a]. simpl.
  split; apply present_not_sentinel.
Qed.

Lemma UpdateMatchByAPIID_feedWrite (fails : bool) (db : DB) (apiID : string)
    (now : Time) (fact : Match) :
  HomeScore fact <> Some (-1) -> AwayScore fact <> Some (-1) ->
  feedWrite db (snd (UpdateMatchByAPIID fails now db apiID fact)).
Proof.
  intros Hh Ha. unfold UpdateMatchByAPIID. destruct fails; [apply feed_none|].
  destruct (find _ _); simpl; [apply feed_update; assumption|apply feed_none].
Qed.

Lemma insertMatch_feedWrite (fails : bool) (newID : string) (now : Time)
    (db : DB) (fact : Match) :
  Calculated fact = false -> Result fact = None ->
  feedWrite db (snd (insertMatch fails newID now db fact)).
Proof.
  intros Hc Hr. unfold insertMatch. destruct fails; [apply feed_none|].
  destruct (existsb _ _) eqn:Hex; [apply feed_none|]. simpl.
  apply feed_insert; simpl; try assumption; try discriminate.
Qed.

Lemma UpsertMatch_feedWrite (env : StoreEnv) (db : DB) (fact : Match) :
  HomeScore fact <> Some (-1) -> AwayScore fact <> Some (-1) ->
  Calculated fact = false -> Result fact = None ->
  feedWrite db (snd (UpsertMatch env db fact)).
Proof.
  intros Hh Ha Hc Hr. unfold UpsertMatch. destruct (GetMatchByAPIID _ _ _).
  - apply UpdateMatchByAPIID_feedWrite; assumption.
  - apply insertMatch_feedWrite; assumption.
Qed.

Lemma oddsSyncStep_feedWrite (shared : bool) (env : StoreEnv)
    (ev : OddsAPIEvent) (db : DB) (res : Results) :
  feedWrite db (fst (oddsSyncStep shared env ev (db, res))).
Proof.
  destruct (processOddsEvent_fields shared ev) as [_ [_ [Hc Hr]]].
  destruct (processOddsEvent_scores shared ev) as [Hh Ha].
  unfold oddsSyncStep. destruct (GetMatchByAPIID _ _ _) as [ex|e].
  - match goal with
    | |- context [UpdateMatchByAPIID ?f ?t db ?a ?m] =>
        assert (Hw : feedWrite db (snd (UpdateMatchByAPIID f t db a m)));
          [|destruct (UpdateMatchByAPIID f t db a m) as [[?|?] ?]; exact Hw]
    end.
    apply UpdateMatchByAPIID_feedWrite; simpl; congruence.
  - destruct (negb _); [apply feed_none|].
    assert (Hw : feedWrite db (snd (UpsertMatch env db (processOddsEvent shared ev)))).
    { apply UpsertMatch_feedWrite; congruence. }
    destruct (UpsertMatch env db _) as [[?|?] ?]; exact Hw.
Qed.

Lemma scoresSyncStep_feedWrite (env : StoreEnv) (ev : ScoresAPIEvent)
    (db : DB) (res : Results) :
  feedWrite db (fst (scoresSyncStep env ev (db, res))).
Proof.
  destruct (processScoreEvent_fields ev) as [_ [_ [Hc Hr]]].
  destruct (processScoreEvent_scores ev) as [Hh Ha].
  unfold scoresSyncStep. destruct (GetMatchByAPIID _ _ _) as [ex|e].
  - match goal with
    | |- context [UpdateMatchByAPIID ?f ?t db ?a ?m] =>
        assert (Hw : feedWrite db (snd (UpdateMatchByAPIID f t db a m)));
          [|destruct (UpdateMatchByAPIID f t db a m) as [[?|?] ?]; exact Hw]
    end.
    apply UpdateMatchByAPIID_feedWrite; simpl; assumption.
  - assert (Hw : feedWrite db
             (snd (UpsertMatch env db
                     (withOdds None None None (processScoreEvent ev))))).
    { apply UpsertMatch_feedWrite; simpl; assumption. }
    destruct (UpsertMatch env db _) as [[?|?] ?]; exact Hw.
Qed.

Lemma syncLoop_feed_invariant {E : Type} (P : DB -> Prop)
    (step : StoreEnv -> E -> DB * Results -> DB * Results)
    (envs : nat -> StoreEnv) :
  (forall env e db res, feedWrite db (fst (step env e (db, res)))) ->
  (forall db db', feedWrite db db' -> P db -> P db') ->
  forall l i st, P (fst st) -> P (fst (syncLoop step envs i l st)).
Proof.
  intros Hstep HP. induction l as [|e l IH]; intros i st H; simpl; [exact H|].
  apply IH. destruct st as [db res]. simpl in H.
  apply (HP db); [apply Hstep|exact H].
Qed.

(** A property of the tables that the writes of the sync pipelines, the
    committed settlement transactions and the follow-up writes keep is kept
    by every operation of the engine. *)
Lemma step_invariant (P : DB -> Prop) :
  (forall db db', feedWrite db db' -> P db -> P db') ->
  (forall db matchAPIID result, P db -> P (settlement db matchAPIID result)) ->
  (forall t db apiID result, P db -> P (marked t db apiID result)) ->
  forall db db', step db db' -> P db -> P db'.
Proof.
  intros Hfeed Hsettle Hmark db db' Hstep H. destruct Hstep.
  - unfold oddsSyncHandler. destruct admin; simpl; [|exact H].
    destruct (fetchOddsFromAPI apiKey reply) as [[|ev evs]|e]; simpl; try exact H.
    pose proof (syncLoop_feed_invariant P (oddsSyncStep shared) envs
                  (oddsSyncStep_feedWrite shared) Hfeed (ev :: evs) 0%nat
                  (db, noResults) H) as Hl.
    destruct (syncLoop _ _ _ _ _) as [db' res]. exact Hl.
  - unfold scoresSyncHandler. destruct admin; simpl; [|exact H].
    destruct (fetchScoresFromAPI apiKey reply) as [[|ev evs]|e]; simpl; try exact H.
    pose proof (syncLoop_feed_invariant P scoresSyncStep envs
                  scoresSyncStep_feedWrite Hfeed (ev :: evs) 0%nat
                  (db, noResults) H) as Hl.
    destruct (syncLoop _ _ _ _ _) as [db' res]. exact Hl.
  - apply (calcHandler_invariant P); [|exact H].
    intros c db' r t _ _ HP. split.
    + apply Hsettle. exact HP.
    + apply Hmark. apply Hsettle. exact HP.
Qed.

Lemma later_invariant (P : DB -> Prop) :
  (forall db db', feedWrite db db' -> P db -> P db') ->
  (forall db matchAPIID result, P db -> P (settlement db matchAPIID result)) ->
  (forall t db apiID result, P db -> P (marked t db apiID result)) ->
  forall db db', later db db' -> P db -> P db'.
Proof.
  intros Hfeed Hsettle Hmark db db' Hl H.
  induction Hl as [db|db db' db'' Hl IH Hstep]; [exact H|].
  apply (step_invariant P Hfeed Hsettle Hmark db' db'' Hstep). apply IH. exact H.
Qed.

(** ** Invariants of the match table *)

Lemma feedWrite_uniqueIDs (db db' : DB) :
  feedWrite db db' -> uniqueIDs db -> uniqueIDs db'.
Proof.
  intros Hw Hu. destruct Hw as [db|db apiID now fact _ _|db row _ _ _ _ Hnew].
  - exact Hu.
  - unfold uniqueIDs. simpl. rewrite map_ids_kept; [exact Hu|].
    intros r. destruct (hasAPIID apiID r); reflexivity.
  - unfold uniqueIDs. simpl. rewrite map_app. simpl.
    apply NoDup_snoc; [exact Hu|]. apply not_in_ids. exact Hnew.
Qed.

(** X1.  No operation of the engine, whatever lookups and writes fail,
    leaves two rows with the same fixture id in the match table. *)
Theorem fixture_ids_stay_unique (db db' : DB) :
  uniqueIDs db -> later db db' -> uniqueIDs db'.
Proof.
  intros Hu Hl. apply (later_invariant uniqueIDs) with (db := db);
    try assumption.
  - apply feedWrite_uniqueIDs.
  - intros d id r H. exact H.
  - intros t d id r H. unfold uniqueIDs. simpl.
    rewrite map_ids_kept; [exact H|].
    intros x. destruct (hasAPIID id x); reflexivity.
Qed.

Lemma fixture_ids_stay_unique_witness :
  uniqueIDs
    (snd (oddsSyncHandler false true "key"
            (Reply 200 (Some (oddsRecord_demo :: nineValid_demo)))
            batchEnvs_demo matchDB_demo)).
Proof.
  apply (fixture_ids_stay_unique matchDB_demo).
  - unfold uniqueIDs. simpl. constructor; [intros []|constructor].
  - apply (later_step matchDB_demo matchDB_demo); [apply later_now|].
    apply step_odds_sync.
Defined.

Lemma orStored_not_none {A : Type} (incoming stored : option A) :
  stored <> None -> orStored incoming stored <> None.
Proof. destruct incoming; simpl; [discriminate|auto]. Qed.

(** X2.  The engine never stores a null score: when every stored score is
    non-null, as in an empty table, every stored score is non-null after
    any operations.  An absent score is stored as -1: the row that
    [UpsertMatch] then inserts for a fixture that is not stored holds -1
    for a score that the fact lacks and the fact's score otherwise. *)
Theorem scores_never_null (db db' : DB) :
  scoresStored db -> later db db' ->
  (forall m, In m (epl_matches db') ->
     exists hs aw, HomeScore m = Some hs /\ AwayScore m = Some aw)
  /\ (forall env fact row db'',
        find (hasAPIID (APIID fact)) (epl_matches db') = None ->
        UpsertMatch env db' fact = (Ok row, db'') ->
        epl_matches db'' = (epl_matches db' ++ [row])%list
        /\ (HomeScore fact = None -> HomeScore row = Some (-1))
        /\ (AwayScore fact = None -> AwayScore row = Some (-1))
        /\ (forall v, HomeScore fact = Some v -> HomeScore row = Some v)
        /\ (forall v, AwayScore fact = Some v -> AwayScore row = Some v)).
Proof.
  intros Hs Hl.
  assert (H : scoresStored db').
  { apply (later_invariant scoresStored) with (db := db); try assumption.
    - intros d d' Hw Hd. destruct Hw as [d|d apiID now fact _ _|d row _ _ Hh Ha _].
      + exact Hd.
      + intros m Hin. simpl in Hin. apply in_map_iff in Hin.
        destruct Hin as [r [<- Hin]]. destruct (Hd r Hin) as [H1 H2].
        destruct (hasAPIID apiID r); [|auto].
        simpl. split; apply orStored_not_none; assumption.
      + intros m Hin. simpl in Hin. apply in_app_or in Hin.
        destruct Hin as [Hin|[<-|[]]]; [exact (Hd m Hin)|auto].
    - intros d id r Hd. exact Hd.
    - intros t d id r Hd m Hin. simpl in Hin. apply in_map_iff in Hin.
      destruct Hin as [x [<- Hin]]. destruct (Hd x Hin) as [H1 H2].
      destruct (hasAPIID id x); auto. }
  split.
  - intros m Hin. destruct (H m Hin) as [H1 H2].
    destruct (HomeScore m) as [hs|]; [|contradiction].
    destruct (AwayScore m) as [aw|]; [|contradiction].
    exists hs, aw. auto.
  - intros env fact row db'' Hnone Hups.
    rewrite (UpsertMatch_absent env db' fact Hnone) in Hups.
    unfold insertMatch in Hups.
    destruct (write_fails env); [discriminate|].
    rewrite (find_none_existsb _ _ Hnone) in Hups.
    injection Hups as <- <-. cbn [withMatches epl_matches HomeScore AwayScore].
    split; [reflexivity|].
    split; [intros ->; reflexivity|]. split; [intros ->; reflexivity|].
    split; intros v ->; reflexivity.
Qed.

Lemma scores_never_null_witness :
  let db' := snd (scoresSyncHandler true "key"
                    (Reply 200 (Some [scoresRecord_noScore]))
                    batchEnvs_demo emptyDB) in
  (exists m,
      In m (epl_matches db')
      /\ exists hs aw, HomeScore m = Some hs /\ AwayScore m = Some aw)
  /\ exists row db'',
       UpsertMatch (noStoreFaults "row-9") db' factNoOdds_demo = (Ok row, db'')
       /\ epl_matches db'' = (epl_matches db' ++ [row])%list
       /\ HomeScore row = Some (-1) /\ AwayScore row = Some (-1).
Proof.
  intros db'.
  assert (Hl : later emptyDB db').
  { apply (later_step emptyDB emptyDB); [apply later_now|].
    apply step_scores_sync. }
  destruct (scores_never_null emptyDB db' (fun m (H : In m []) => match H with end)
              Hl) as [Hrows Hins].
  split.
  - eexists. split; [left; reflexivity|]. apply Hrows. left. reflexivity.
  - eexists. eexists. split; [reflexivity|].
    destruct (Hins (noStoreFaults "row-9") factNoOdds_demo _ _ eq_refl eq_refl)
      as [H1 [H2 [H3 _]]].
    split; [exact H1|]. split; [exact (H2 eq_refl)|exact (H3 eq_refl)].
Defined.

(** A property of a row that merge-updates with normalized facts and the
    follow-up write keep holds for the row at the same position after any
    operations. *)
Lemma row_invariant (Q : Match -> Prop) :
  (forall now fact r,
     HomeScore fact <> Some (-1) -> AwayScore fact <> Some (-1) ->
     Q r -> Q (setColumns now fact r)) ->
  (forall t result r, Q r -> Q (markCalculated t result r)) ->
  forall db db' i m,
    later db db' -> nth_error (epl_matches db) i = Some m -> Q m ->
    exists m', nth_error (epl_matches db') i = Some m' /\ Q m'.
Proof.
  intros Hset Hmark db db' i m Hl Hi HQ.
  apply (later_invariant
           (fun d => exists m', nth_error (epl_matches d) i = Some m' /\ Q m'))
    with (db := db); try assumption.
  - intros d d' Hw [m' [Hi' HQ']].
    destruct Hw as [d|d apiID now fact Hh Ha|d row _ _ _ _ _].
    + exists m'. auto.
    + exists (if hasAPIID apiID m' then setColumns now fact m' else m'). split.
      * simpl.
        apply (nth_error_map_some
                 (fun r => if hasAPIID apiID r then setColumns now fact r else r)).
        exact Hi'.
      * destruct (hasAPIID apiID m'); [apply Hset; assumption|exact HQ'].
    + exists m'. split; [|exact HQ']. simpl.
      rewrite nth_error_app1; [exact Hi'|]. apply nth_error_Some. congruence.
  - intros d id r H. exact H.
  - intros t d id r [m' [Hi' HQ']].
    exists (if hasAPIID id m' then markCalculated t r m' else m'). split.
    + simpl.
      apply (nth_error_map_some
               (fun x => if hasAPIID id x then markCalculated t r x else x)).
      exact Hi'.
    + destruct (hasAPIID id m'); [apply Hmark|]; exact HQ'.
  - exists m. auto.
Qed.

Lemma orStored_known (incoming stored : option Z) :
  incoming <> Some (-1) -> known stored -> known (orStored incoming stored).
Proof.
  intros Hi Hk. destruct incoming as [v|]; simpl; [|exact Hk].
  exists v. split; [reflexivity|]. intros ->. apply Hi. reflexivity.
Qed.

(** X3.  A score that the feed reported once is never erased: whatever
    operations follow, the row still holds a score that is neither null nor
    -1 (a later score update may replace it by another reported score). *)
Theorem known_score_never_erased (db db' : DB) (i : nat) (m : Match) :
  later db db' ->
  nth_error (epl_matches db) i = Some m ->
  (known (HomeScore m) ->
   exists m', nth_error (epl_matches db') i = Some m' /\ known (HomeScore m'))
  /\ (known (AwayScore m) ->
      exists m', nth_error (epl_matches db') i = Some m' /\ known (AwayScore m')).
Proof.
  intros Hl Hi. split; intros Hk.
  - apply (row_invariant (fun r => known (HomeScore r))) with (db := db) (m := m);
      try assumption.
    + intros now fact r Hh _ Hr. simpl. apply orStored_known; assumption.
    + intros t res r Hr. exact Hr.
  - apply (row_invariant (fun r => known (AwayScore r))) with (db := db) (m := m);
      try assumption.
    + intros now fact r _ Ha Hr. simpl. apply orStored_known; assumption.
    + intros t res r Hr. exact Hr.
Qed.

Lemma known_score_never_erased_witness :
  exists m',
    nth_error (epl_matches afterBlankScores_demo) 0 = Some m'
    /\ known (HomeScore m').
Proof.
  apply (proj1 (known_score_never_erased ledgerDB_demo afterBlankScores_demo
                  0 storedMatch_demo
                  (later_step _ _ _ (later_now ledgerDB_demo)
                     (step_scores_sync true "key"
                        (Reply 200 (Some [scoresRecord_blank]))
                        batchEnvs_demo ledgerDB_demo))
                  eq_refl)).
  exists 2. split; [reflexivity|discriminate].
Defined.

(** X4.  Odds that are stored are never erased: whatever operations follow,
    a row that holds home, draw or away odds still holds some. *)
Theorem odds_never_erased (db db' : DB) (i : nat) (m : Match) :
  later db db' ->
  nth_error (epl_matches db) i = Some m ->
  (HomeOdds m <> None ->
   exists m', nth_error (epl_matches db') i = Some m' /\ HomeOdds m' <> None)
  /\ (DrawOdds m <> None ->
      exists m', nth_error (epl_matches db') i = Some m' /\ DrawOdds m' <> None)
  /\ (AwayOdds m <> None ->
      exists m', nth_error (epl_matches db') i = Some m' /\ AwayOdds m' <> None).
Proof.
  intros Hl Hi. split; [|split]; intros Hk.
  - apply (row_invariant (fun r => HomeOdds r <> None)) with (db := db) (m := m);
      try assumption.
    + intros now fact r _ _ Hr. simpl. apply orStored_not_none. exact Hr.
    + intros t res r Hr. exact Hr.
  - apply (row_invariant (fun r => DrawOdds r <> None)) with (db := db) (m := m);
      try assumption.
    + intros now fact r _ _ Hr. simpl. apply orStored_not_none. exact Hr.
    + intros t res r Hr. exact Hr.
  - apply (row_invariant (fun r => AwayOdds r <> None)) with (db := db) (m := m);
      try assumption.
    + intros now fact r _ _ Hr. simpl. apply orStored_not_none. exact Hr.
    + intros t res r Hr. exact Hr.
Qed.

Lemma odds_never_erased_witness :
  exists m',
    nth_error (epl_matches afterBlankScores_demo) 0 = Some m'
    /\ HomeOdds m' <> None.
Proof.
  apply (proj1 (odds_never_erased ledgerDB_demo afterBlankScores_demo
                  0 storedMatch_demo
                  (later_step _ _ _ (later_now ledgerDB_demo)
                     (step_scores_sync true "key"
                        (Reply 200 (Some [scoresRecord_blank]))
                        batchEnvs_demo ledgerDB_demo))
                  eq_refl)).
  discriminate.
Defined.

(** ** Invariants of the ledger *)

Lemma sameWager_refl (b : Bet) : sameWager b b.
Proof. repeat split. Qed.

Lemma wagerAged_refl (b : Bet) : wagerAged b b.
Proof. split; [apply sameWager_refl|]. split; [reflexivity|left; reflexivity]. Qed.

Lemma wagerAged_trans (b1 b2 b3 : Bet) :
  wagerAged b1 b2 -> wagerAged b2 b3 -> wagerAged b1 b3.
Proof.
  intros [Hs12 [Hk12 Ht12]] [Hs23 [Hk23 Ht23]]. split; [|split].
  - unfold sameWager in *. intuition congruence.
  - intros Hne. rewrite (Hk12 Hne) in *. apply Hk23. exact Hne.
  - destruct Ht23 as [H|H]; [|right; exact H].
    rewrite H. exact Ht12.
Qed.

Lemma settleBet_aged (matchAPIID result : string) (b : Bet) :
  wagerAged b (settleBet matchAPIID result b).
Proof.
  unfold settleBet. destruct (isPendingOn matchAPIID b) eqn:Hp;
    [|apply wagerAged_refl].
  split; [repeat split|]. split.
  - intros Hne. unfold isPendingOn in Hp. apply andb_true_iff in Hp.
    destruct Hp as [_ Hp]. apply String.eqb_eq in Hp. contradiction.
  - right. simpl. unfold newStatus.
    destruct (bet_type b =? result)%string; [left|right]; reflexivity.
Qed.

Lemma ledgerAged_refl (db : DB) : ledgerAged db db.
Proof.
  split; [reflexivity|]. intros j b Hj. exists b. split; [exact Hj|].
  apply wagerAged_refl.
Qed.

Lemma ledgerAged_settlement (db0 db : DB) (matchAPIID result : string) :
  ledgerAged db0 db -> ledgerAged db0 (settlement db matchAPIID result).
Proof.
  intros [Hlen Hrows]. split.
  - simpl. rewrite length_map. exact Hlen.
  - intros j b Hj. destruct (Hrows j b Hj) as [b1 [Hj1 Ha1]].
    exists (settleBet matchAPIID result b1). split.
    + simpl. apply nth_error_map_some. exact Hj1.
    + apply (wagerAged_trans b b1); [exact Ha1|apply settleBet_aged].
Qed.

(** X5.  Whatever operations run, the wagers are neither added, removed nor
    reordered; a wager keeps every column but its status; a wager that is
    not pending is never written again; and a status only ever changes from
    "pending" to "won" or "lost". *)
Theorem wagers_only_leave_pending (db db' : DB) :
  later db db' ->
  List.length (bets db') = List.length (bets db)
  /\ forall j b, nth_error (bets db) j = Some b ->
       exists b',
         nth_error (bets db') j = Some b'
         /\ sameWager b b'
         /\ (status b <> "pending" -> b' = b)
         /\ (status b' = status b \/ status b' = "won" \/ status b' = "lost").
Proof.
  intros Hl.
  assert (H : ledgerAged db db').
  { apply (later_invariant (ledgerAged db)) with (db := db).
    - intros d d' Hw Hd. destruct Hw; exact Hd.
    - intros d id r Hd. apply ledgerAged_settlement. exact Hd.
    - intros t d id r Hd. exact Hd.
    - exact Hl.
    - apply ledgerAged_refl. }
  destruct H as [Hlen Hrows]. split; [exact Hlen|].
  intros j b Hj. destruct (Hrows j b Hj) as [b' [Hj' [Hs [Hk Ht]]]].
  exists b'. auto.
Qed.

Lemma wagers_only_leave_pending_witness :
  List.length (bets (snd (calcHandler true noCalcFaults twoFinishedDB_demo)))
  = 3%nat.
Proof.
  exact (proj1 (wagers_only_leave_pending twoFinishedDB_demo
                  (snd (calcHandler true noCalcFaults twoFinishedDB_demo))
                  (later_step _ _ _ (later_now twoFinishedDB_demo)
                     (step_settle true noCalcFaults twoFinishedDB_demo)))).
Defined.

Lemma feedWrite_ledger (db db' : DB) :
  feedWrite db db' -> bets db' = bets db /\ users db' = users db.
Proof. intros Hw. destruct Hw; split; reflexivity. Qed.

Lemma syncFrame_refl (db : DB) : syncFrame db db.
Proof.
  split; [reflexivity|]. split; [reflexivity|]. split; [lia|].
  intros i m Hi. exists m. auto.
Qed.

Lemma feedWrite_syncFrame (db0 db db' : DB) :
  feedWrite db db' -> syncFrame db0 db -> syncFrame db0 db'.
Proof.
  intros Hw [Hb [Hu [Hlen Hrows]]].
  destruct Hw as [db|db apiID now fact _ _|db row _ _ _ _ _].
  - repeat split; assumption.
  - split; [exact Hb|]. split; [exact Hu|]. split.
    + simpl. rewrite length_map. exact Hlen.
    + intros i m Hi. destruct (Hrows i m Hi) as [m1 [Hi1 [H1 [H2 [H3 H4]]]]].
      exists (if hasAPIID apiID m1 then setColumns now fact m1 else m1). split.
      * simpl.
        apply (nth_error_map_some
                 (fun r => if hasAPIID apiID r then setColumns now fact r else r)).
        exact Hi1.
      * destruct (hasAPIID apiID m1); simpl; auto.
  - split; [exact Hb|]. split; [exact Hu|]. split.
    + simpl. rewrite length_app. lia.
    + intros i m Hi. destruct (Hrows i m Hi) as [m1 [Hi1 H]].
      exists m1. split; [|exact H]. simpl.
      rewrite nth_error_app1; [exact Hi1|]. apply nth_error_Some. congruence.
Qed.

(** X6.  An odds sync or a scores sync, whatever the feed answers and
    whatever fails, writes no wager and no balance, removes and moves no
    match row, and leaves on every row the surrogate id, the fixture id,
    the calculated flag and the result: a sync never settles and never
    unsettles a match. *)
Theorem sync_frame (shared admin : bool) (apiKey : string)
    (oddsReply : HTTPReply RawOddsRecord)
    (scoresReply : HTTPReply RawScoresRecord)
    (envs : nat -> StoreEnv) (db : DB) :
  forall db',
    db' = snd (oddsSyncHandler shared admin apiKey oddsReply envs db)
    \/ db' = snd (scoresSyncHandler admin apiKey scoresReply envs db) ->
    bets db' = bets db /\ users db' = users db
    /\ (List.length (epl_matches db) <= List.length (epl_matches db'))%nat
    /\ forall i m, nth_error (epl_matches db) i = Some m ->
         exists m',
           nth_error (epl_matches db') i = Some m'
           /\ ID m' = ID m /\ APIID m' = APIID m
           /\ Calculated m' = Calculated m /\ Result m' = Result m.
Proof.
  intros db' Hdb'. change (syncFrame db db').
  destruct Hdb' as [-> | ->].
  - unfold oddsSyncHandler. destruct admin; simpl; [|apply syncFrame_refl].
    destruct (fetchOddsFromAPI apiKey oddsReply) as [[|ev evs]|e]; simpl;
      try apply syncFrame_refl.
    pose proof (syncLoop_feed_invariant (syncFrame db) (oddsSyncStep shared) envs
                  (oddsSyncStep_feedWrite shared) (feedWrite_syncFrame db)
                  (ev :: evs) 0%nat (db, noResults) (syncFrame_refl db)) as Hl.
    destruct (syncLoop _ _ _ _ _) as [d res]. exact Hl.
  - unfold scoresSyncHandler. destruct admin; simpl; [|apply syncFrame_refl].
    destruct (fetchScoresFromAPI apiKey scoresReply) as [[|ev evs]|e]; simpl;
      try apply syncFrame_refl.
    pose proof (syncLoop_feed_invariant (syncFrame db) scoresSyncStep envs
                  scoresSyncStep_feedWrite (feedWrite_syncFrame db)
                  (ev :: evs) 0%nat (db, noResults) (syncFrame_refl db)) as Hl.
    destruct (syncLoop _ _ _ _ _) as [d res]. exact Hl.
Qed.

Lemma sync_frame_witness :
  bets afterBlankScores_demo = bets ledgerDB_demo
  /\ users afterBlankScores_demo = users ledgerDB_demo.
Proof.
  destruct (sync_frame false true "key" NoReply
              (Reply 200 (Some [scoresRecord_blank])) batchEnvs_demo
              ledgerDB_demo afterBlankScores_demo (or_intror eq_refl))
    as [Hb [Hu _]].
  split; assumption.
Defined.

(** ** Reporting a record twice *)

Lemma insertMatch_newRow (newID : string) (now : Time) (db : DB)
    (fact : Match) :
  existsb (hasAPIID (APIID fact)) (epl_matches db) = false ->
  insertMatch false newID now db fact
  = (Ok (newRow newID now fact),
     withMatches db (epl_matches db ++ [newRow newID now fact])%list).
Proof. intros H. unfold insertMatch. rewrite H. reflexivity. Qed.

Lemma insertMatch_taken (fails : bool) (newID : string) (now : Time) (db : DB)
    (fact : Match) :
  existsb (hasAPIID (APIID fact)) (epl_matches db) = true ->
  snd (insertMatch fails newID now db fact) = db.
Proof.
  intros H. unfold insertMatch. destruct fails; [reflexivity|].
  rewrite H. reflexivity.
Qed.

Lemma orStored_absorbs (o o' s : option Z) :
  absorbs o o' -> orStored o (orStored o' s) = orStored o' s.
Proof.
  intros [->| ->]; [reflexivity|]. destruct o'; reflexivity.
Qed.

Lemma orStored_twice (o s : option Z) :
  orStored o (orStored o s) = orStored o s.
Proof. destruct o; reflexivity. Qed.

Lemma orStored_absorbs_new (o o' : option Z) :
  absorbs o o' -> orStored o o' = o'.
Proof. intros [->| ->]; [reflexivity|]. destruct o'; reflexivity. Qed.

Lemma keep_text (t s : string) :
  (if (t =? "")%string then (if (t =? "")%string then s else t) else t)
  = (if (t =? "")%string then s else t).
Proof. destruct (t =? "")%string; reflexivity. Qed.

Lemma keep_time (t s : Z) :
  (if t =? 0 then (if t =? 0 then s else t) else t)
  = (if t =? 0 then s else t).
Proof. destruct (t =? 0); reflexivity. Qed.

(** A merge-update with a fact that a row already absorbed writes
    [updated_at] and nothing else. *)
Lemma setColumns_absorbed (t2 t1 : Time) (f2 f1 r : Match) :
  sameReport f2 f1 -> oddsAbsorbed f2 f1 ->
  setColumns t2 f2 (setColumns t1 f1 r) = stamp t2 (setColumns t1 f1 r).
Proof.
  intros [H1 [H2 [H3 [H4 [H5 H6]]]]] [Ho1 [Ho2 Ho3]].
  unfold setColumns, stamp. simpl. rewrite H1, H2, H3, H4, H5, H6.
  rewrite keep_text, keep_text, keep_time.
  rewrite (orStored_absorbs _ _ _ Ho1), (orStored_absorbs _ _ _ Ho2),
    (orStored_absorbs _ _ _ Ho3), !orStored_twice.
  reflexivity.
Qed.

Lemma keep_text_new (t : string) :
  (if (t =? "")%string then t else t) = t.
Proof. destruct (t =? "")%string; reflexivity. Qed.

Lemma keep_time_new (t : Z) : (if t =? 0 then t else t) = t.
Proof. destruct (t =? 0); reflexivity. Qed.

Lemma orStored_sentinel (s : option Z) :
  orStored s (Some (orSentinel s)) = Some (orSentinel s).
Proof. destruct s; reflexivity. Qed.

Lemma setColumns_newRow (t2 t1 : Time) (f2 f : Match) (newID : string) :
  sameReport f2 f -> oddsAbsorbed f2 f ->
  setColumns t2 f2 (newRow newID t1 f) = stamp t2 (newRow newID t1 f).
Proof.
  intros [H1 [H2 [H3 [H4 [H5 H6]]]]] [Ho1 [Ho2 Ho3]].
  unfold setColumns, newRow, stamp. simpl. rewrite H1, H2, H3, H4, H5, H6.
  rewrite !keep_text_new, keep_time_new, !orStored_sentinel.
  rewrite (orStored_absorbs_new _ _ Ho1), (orStored_absorbs_new _ _ Ho2),
    (orStored_absorbs_new _ _ Ho3).
  reflexivity.
Qed.

Lemma map_fixed {A : Type} (f : A -> A) (l : list A) :
  (forall x, In x l -> f x = x) -> map f l = l.
Proof.
  intros H. induction l as [|x l IH]; simpl; [reflexivity|].
  rewrite (H x (or_introl eq_refl)), IH; [reflexivity|].
  intros y Hy. apply H. right. exact Hy.
Qed.

Lemma withMatches_same (db : DB) : withMatches db (epl_matches db) = db.
Proof. destruct db; reflexivity. Qed.

Lemma find_existsb {A : Type} (p : A -> bool) (l : list A) (x : A) :
  find p l = Some x -> existsb p l = true.
Proof.
  intros H. apply find_some in H. apply existsb_exists. exists x. exact H.
Qed.

Lemma find_map_kept {A : Type} (p : A -> bool) (f : A -> A) (l : list A) :
  (forall x, p (f x) = p x) ->
  find p (map f l) = option_map f (find p l).
Proof.
  intros H. induction l as [|x l IH]; simpl; [reflexivity|].
  rewrite H. destruct (p x); [reflexivity|exact IH].
Qed.

Lemma find_snoc_new {A : Type} (p : A -> bool) (l : list A) (x : A) :
  find p l = None -> p x = true -> find p (l ++ [x])%list = Some x.
Proof.
  intros Hn Hx. induction l as [|y l IH]; simpl in *.
  - rewrite Hx. reflexivity.
  - destruct (p y); [discriminate|]. apply IH. exact Hn.
Qed.

Lemma hasAPIID_setColumns (apiID : string) (now : Time) (fact r : Match) :
  hasAPIID apiID (setColumns now fact r) = hasAPIID apiID r.
Proof. reflexivity. Qed.

Lemma upd_keeps_id (apiID : string) (now : Time) (fact : Match) (x : Match) :
  hasAPIID apiID (if hasAPIID apiID x then setColumns now fact x else x)
  = hasAPIID apiID x.
Proof. destruct (hasAPIID apiID x) eqn:H; exact H. Qed.

Lemma stamp_keeps_id (apiID : string) (t : Time) (x : Match) :
  hasAPIID apiID (if hasAPIID apiID x then stamp t x else x)
  = hasAPIID apiID x.
Proof. destruct (hasAPIID apiID x) eqn:H; exact H. Qed.

(** A merge-update that every row with the id already absorbed writes
    [updated_at] on these rows, unless it fails. *)
Lemma UpdateMatchByAPIID_absorbed (fails : bool) (db : DB) (apiID : string)
    (now : Time) (fact ex : Match) :
  find (hasAPIID apiID) (epl_matches db) = Some ex ->
  (forall r, In r (epl_matches db) -> hasAPIID apiID r = true ->
             setColumns now fact r = stamp now r) ->
  snd (UpdateMatchByAPIID fails now db apiID fact)
  = if fails then db else touched now apiID db.
Proof.
  intros Hfind H. unfold UpdateMatchByAPIID. destruct fails; [reflexivity|].
  assert (Hmap : map (fun r => if hasAPIID apiID r then setColumns now fact r
                               else r) (epl_matches db)
                 = map (fun r => if hasAPIID apiID r then stamp now r else r)
                       (epl_matches db)).
  { apply map_ext_in. intros r Hin.
    destruct (hasAPIID apiID r) eqn:Hid; [|reflexivity]. apply H; assumption. }
  rewrite Hmap.
  rewrite (find_map_kept _ (fun r => if hasAPIID apiID r then stamp now r
                                     else r))
    by (intros x; apply stamp_keeps_id).
  rewrite Hfind. reflexivity.
Qed.

Lemma touched_absent (t : Time) (apiID : string) (db : DB) :
  find (hasAPIID apiID) (epl_matches db) = None -> touched t apiID db = db.
Proof.
  intros Hnone. unfold touched. rewrite map_fixed; [apply withMatches_same|].
  intros r Hin. rewrite (find_none _ _ Hnone r Hin). reflexivity.
Qed.

Lemma sameColumns_stamp (t : Time) (r : Match) : sameColumns r (stamp t r).
Proof. unfold sameColumns. simpl. repeat split. Qed.

Lemma sameColumns_refl (r : Match) : sameColumns r r.
Proof. unfold sameColumns. repeat split. Qed.

(** What [restamped] says row by row. *)
Lemma restamped_rows (env : StoreEnv) (apiID : string) (db db' : DB) :
  restamped env apiID db db' ->
  bets db' = bets db /\ users db' = users db
  /\ List.length (epl_matches db') = List.length (epl_matches db)
  /\ forall i r, nth_error (epl_matches db) i = Some r ->
       exists r',
         nth_error (epl_matches db') i = Some r'
         /\ sameColumns r r'
         /\ (APIID r <> apiID -> UpdatedAt r' = UpdatedAt r)
         /\ (UpdatedAt r' = UpdatedAt r \/ UpdatedAt r' = write_time env)
         /\ (write_fails env = true -> UpdatedAt r' = UpdatedAt r)
         /\ (APIID r = apiID -> get_fails env = false ->
             write_fails env = false -> UpdatedAt r' = write_time env).
Proof.
  intros [Hcases [Hfail Hwrite]].
  assert (Hstamp : forall i r,
             nth_error (epl_matches db) i = Some r ->
             nth_error (epl_matches (touched (write_time env) apiID db)) i
             = Some (if hasAPIID apiID r then stamp (write_time env) r
                     else r)).
  { intros i r Hi. unfold touched. cbn [withMatches epl_matches].
    apply (nth_error_map_some
             (fun r => if hasAPIID apiID r then stamp (write_time env) r
                       else r)).
    exact Hi. }
  split; [|split; [|split]].
  - destruct Hcases as [->| ->]; reflexivity.
  - destruct Hcases as [->| ->]; reflexivity.
  - destruct Hcases as [->| ->]; [reflexivity|]. apply length_map.
  - intros i r Hi.
    destruct Hcases as [Hsame|Htouched].
    + exists r. rewrite Hsame. split; [exact Hi|].
      split; [apply sameColumns_refl|]. split; [reflexivity|].
      split; [left; reflexivity|]. split; [reflexivity|].
      intros Hid Hg Hw. pose proof (Hwrite Hg Hw) as Heq.
      rewrite Hsame in Heq.
      pose proof (Hstamp i r Hi) as Hi'. rewrite <- Heq, Hi in Hi'.
      rewrite (proj2 (hasAPIID_true apiID r) Hid) in Hi'.
      injection Hi' as Hr. rewrite Hr at 1. reflexivity.
    + exists (if hasAPIID apiID r then stamp (write_time env) r else r).
      rewrite Htouched. split; [exact (Hstamp i r Hi)|].
      destruct (hasAPIID apiID r) eqn:Hid.
      * apply hasAPIID_true in Hid.
        split; [apply sameColumns_stamp|].
        split; [intros Hne; contradiction|].
        split; [right; reflexivity|]. split; [|reflexivity].
        intros Hw. pose proof (Hfail Hw) as Heq. rewrite Htouched in Heq.
        pose proof (Hstamp i r Hi) as Hi'. rewrite Heq, Hi in Hi'.
        rewrite (proj2 (hasAPIID_true apiID r) Hid) in Hi'.
        injection Hi' as Hr. rewrite Hr at 2. reflexivity.
      * apply hasAPIID_false in Hid.
        split; [apply sameColumns_refl|]. split; [reflexivity|].
        split; [left; reflexivity|]. split; [reflexivity|].
        intros He. contradiction.
Qed.

Lemma restamped_none (env : StoreEnv) (apiID : string) (db : DB) :
  find (hasAPIID apiID) (epl_matches db) = None -> restamped env apiID db db.
Proof.
  intros H. split; [left; reflexivity|]. split; [reflexivity|].
  intros _ _. symmetry. apply touched_absent. exact H.
Qed.

Lemma restamped_write (env : StoreEnv) (apiID : string) (db : DB) :
  restamped env apiID db
    (if write_fails env then db else touched (write_time env) apiID db).
Proof.
  unfold restamped. destruct (write_fails env).
  - split; [left; reflexivity|]. split; [reflexivity|]. intros _ H.
    discriminate.
  - split; [right; reflexivity|]. split; [intros H; discriminate|].
    reflexivity.
Qed.

Lemma restamped_upsert (env : StoreEnv) (apiID : string) (db db' : DB) :
  get_fails env = true ->
  db' = db \/ db' = (if write_fails env then db
                     else touched (write_time env) apiID db) ->
  restamped env apiID db db'.
Proof.
  intros Hg [->| ->].
  - split; [left; reflexivity|]. split; [reflexivity|].
    intros H. rewrite Hg in H. discriminate.
  - destruct (restamped_write env apiID db) as [H1 [H2 _]].
    split; [exact H1|]. split; [exact H2|].
    intros H. rewrite Hg in H. discriminate.
Qed.

(** The scores step on tables that already absorbed the event. *)
Lemma scoresSyncStep_absorbed (env : StoreEnv) (ev : ScoresAPIEvent) (db : DB)
    (res : Results) (ex : Match) :
  find (hasAPIID (se_ID ev)) (epl_matches db) = Some ex ->
  (forall t r, In r (epl_matches db) -> hasAPIID (se_ID ev) r = true ->
     setColumns t (withOddsOf ex (processScoreEvent ev)) r = stamp t r
     /\ setColumns t (withOdds None None None (processScoreEvent ev)) r
        = stamp t r) ->
  restamped env (se_ID ev) db (fst (scoresSyncStep env ev (db, res))).
Proof.
  intros Hfind Habs.
  destruct (processScoreEvent_fields ev) as [Hid _].
  unfold scoresSyncStep. rewrite Hid. unfold GetMatchByAPIID at 1.
  destruct (get_fails env) eqn:Hg.
  - apply restamped_upsert; [exact Hg|].
    assert (Hu : snd (UpsertMatch env db
                        (withOdds None None None (processScoreEvent ev))) = db
                 \/ snd (UpsertMatch env db
                           (withOdds None None None (processScoreEvent ev)))
                    = (if write_fails env then db
                       else touched (write_time env) (se_ID ev) db)).
    { unfold UpsertMatch. simpl. rewrite Hid.
      destruct (GetMatchByAPIID _ _ _).
      - right. apply (UpdateMatchByAPIID_absorbed _ _ _ _ _ ex Hfind).
        intros r Hin Hr. apply (Habs _ r Hin Hr).
      - left. apply insertMatch_taken. simpl. rewrite Hid.
        apply (find_existsb _ _ ex Hfind). }
    destruct (UpsertMatch env db _) as [[?|?] ?]; exact Hu.
  - rewrite Hfind. cbn [withOdds APIID]. rewrite Hid.
    assert (Hu : snd (UpdateMatchByAPIID (write_fails env) (write_time env) db
                        (se_ID ev) (withOddsOf ex (processScoreEvent ev)))
                 = if write_fails env then db
                   else touched (write_time env) (se_ID ev) db).
    { apply (UpdateMatchByAPIID_absorbed _ _ _ _ _ ex Hfind).
      intros r Hin Hr. apply (Habs _ r Hin Hr). }
    unfold withOddsOf in Hu.
    assert (Hr : restamped env (se_ID ev) db
                   (snd (UpdateMatchByAPIID (write_fails env) (write_time env)
                           db (se_ID ev)
                           (withOdds (HomeOdds ex) (DrawOdds ex) (AwayOdds ex)
                              (processScoreEvent ev))))).
    { rewrite Hu. apply restamped_write. }
    destruct (UpdateMatchByAPIID _ _ _ _ _) as [[?|?] ?]; exact Hr.
Qed.

Lemma sameReport_refl (f : Match) : sameReport f f.
Proof. repeat split. Qed.

Lemma sameReport_withOdds (h d a h' d' a' : option Z) (f : Match) :
  sameReport (withOdds h d a f) (withOdds h' d' a' f).
Proof. repeat split. Qed.

(** X7.  Reporting a score record again changes nothing but a time stamp:
    after a scores-sync step that met no store failure, a second step for
    the same record leaves every wager and balance, the number and order
    of the match rows and every column of every row but [updated_at].
    That column changes on rows of the reported fixture only: it is
    written anew when neither the lookup nor the write of the second step
    fails, and it stays when the write fails. *)
Theorem score_report_twice (env1 env2 : StoreEnv) (ev : ScoresAPIEvent)
    (db : DB) (res1 res2 : Results) :
  noFaults env1 ->
  let db1 := fst (scoresSyncStep env1 ev (db, res1)) in
  let db2 := fst (scoresSyncStep env2 ev (db1, res2)) in
  bets db2 = bets db1 /\ users db2 = users db1
  /\ List.length (epl_matches db2) = List.length (epl_matches db1)
  /\ forall i r, nth_error (epl_matches db1) i = Some r ->
       exists r',
         nth_error (epl_matches db2) i = Some r'
         /\ sameColumns r r'
         /\ (APIID r <> se_ID ev -> UpdatedAt r' = UpdatedAt r)
         /\ (UpdatedAt r' = UpdatedAt r \/ UpdatedAt r' = write_time env2)
         /\ (write_fails env2 = true -> UpdatedAt r' = UpdatedAt r)
         /\ (APIID r = se_ID ev -> get_fails env2 = false ->
             write_fails env2 = false -> UpdatedAt r' = write_time env2).
Proof.
  intros [Hg [Hug Hw]] db1 db2.
  apply (restamped_rows env2 (se_ID ev) db1 db2). unfold db2.
  destruct (processScoreEvent_fields ev) as [Hid _].
  set (f0 := processScoreEvent ev) in *.
  destruct (find (hasAPIID (se_ID ev)) (epl_matches db)) as [ex|] eqn:Hfind.
  - (* the first step is a merge-update *)
    set (upd := fun r => if hasAPIID (se_ID ev) r
                         then setColumns (write_time env1) (withOddsOf ex f0) r
                         else r).
    assert (Hdb1 : db1 = withMatches db (map upd (epl_matches db))).
    { unfold db1, scoresSyncStep. fold f0. rewrite Hid, Hg, Hw.
      unfold GetMatchByAPIID. rewrite Hfind. cbn [withOdds APIID]. rewrite Hid.
      unfold UpdateMatchByAPIID. fold (withOddsOf ex f0). fold upd.
      rewrite (find_map_kept _ upd) by (intros x; apply upd_keeps_id).
      rewrite Hfind. reflexivity. }
    rewrite Hdb1.
    apply (scoresSyncStep_absorbed env2 ev _ res2 (upd ex)).
    + simpl. rewrite (find_map_kept _ upd) by (intros x; apply upd_keeps_id).
      rewrite Hfind. reflexivity.
    + intros t r1 Hin Hr1. simpl in Hin. apply in_map_iff in Hin.
      destruct Hin as [r [<- Hin]].
      assert (Hr : hasAPIID (se_ID ev) r = true).
      { rewrite <- Hr1. unfold upd. symmetry. apply upd_keeps_id. }
      assert (Hex : hasAPIID (se_ID ev) ex = true).
      { apply find_some in Hfind. apply Hfind. }
      unfold upd. rewrite Hr, Hex. fold f0. split.
      * apply setColumns_absorbed; [apply sameReport_withOdds|].
        unfold oddsAbsorbed, absorbs. simpl.
        destruct (HomeOdds ex), (DrawOdds ex), (AwayOdds ex); simpl; auto.
      * apply setColumns_absorbed; [apply sameReport_withOdds|].
        unfold oddsAbsorbed, absorbs. simpl. auto.
  - (* the first step creates the match *)
    set (fN := withOdds None None None f0).
    set (row := newRow (new_id env1) (write_time env1) fN).
    assert (Hdb1 : db1 = withMatches db (epl_matches db ++ [row])%list).
    { unfold db1, scoresSyncStep. fold f0. rewrite Hid, Hg. fold fN.
      unfold GetMatchByAPIID. rewrite Hfind.
      unfold UpsertMatch. rewrite Hug, Hw. unfold GetMatchByAPIID.
      change (APIID fN) with (APIID f0). rewrite Hid, Hfind.
      rewrite insertMatch_newRow; [reflexivity|].
      change (APIID fN) with (APIID f0). rewrite Hid.
      apply find_none_existsb. exact Hfind. }
    rewrite Hdb1.
    assert (Hnew : hasAPIID (se_ID ev) row = true).
    { apply hasAPIID_true. exact Hid. }
    apply (scoresSyncStep_absorbed env2 ev _ res2 row).
    + simpl. apply find_snoc_new; assumption.
    + intros t r Hin Hr. simpl in Hin. apply in_app_or in Hin.
      destruct Hin as [Hin|[<-|[]]].
      * rewrite (find_none _ _ Hfind r Hin) in Hr. discriminate.
      * fold f0. unfold row. split; apply setColumns_newRow;
          try apply sameReport_withOdds;
          unfold oddsAbsorbed, absorbs; simpl; auto.
Qed.

Lemma score_report_twice_witness :
  let db1 := fst (scoresSyncStep (noStoreFaults "row-2") scoreEvent_known
                    (ledgerDB_demo, noResults)) in
  let db2 := fst (scoresSyncStep laterWrite_demo scoreEvent_known
                    (db1, noResults)) in
  bets db2 = bets db1 /\ users db2 = users db1
  /\ List.length (epl_matches db2) = List.length (epl_matches db1)
  /\ exists r',
       nth_error (epl_matches db2) 1 = Some r'
       /\ HomeScore r' = Some 3 /\ AwayScore r' = Some 0
       /\ UpdatedAt r' = 1699995000.
Proof.
  destruct (score_report_twice (noStoreFaults "row-2") laterWrite_demo
              scoreEvent_known ledgerDB_demo noResults noResults
              (conj eq_refl (conj eq_refl eq_refl)))
    as [Hb [Hu [Hl Hrows]]].
  split; [exact Hb|]. split; [exact Hu|]. split; [exact Hl|].
  destruct (Hrows 1%nat _ eq_refl) as [r' [Hi [Hsame [_ [_ [_ Hstamp]]]]]].
  exists r'. split; [exact Hi|].
  destruct Hsame as [_ [_ [_ [_ [_ [_ [_ [_ [_ [Hh [Ha _]]]]]]]]]]].
  split; [exact Hh|]. split; [exact Ha|].
  exact (Hstamp eq_refl eq_refl eq_refl).
Defined.

(** The odds step on tables that already absorbed the event. *)
Lemma oddsSyncStep_absorbed (shared : bool) (env : StoreEnv) (ev : OddsAPIEvent)
    (db : DB) (res : Results) (ex : Match) :
  find (hasAPIID (oe_ID ev)) (epl_matches db) = Some ex ->
  (forall t r, In r (epl_matches db) -> hasAPIID (oe_ID ev) r = true ->
     setColumns t (premerged (processOddsEvent shared ev) ex) r = stamp t r
     /\ setColumns t (processOddsEvent shared ev) r = stamp t r) ->
  restamped env (oe_ID ev) db (fst (oddsSyncStep shared env ev (db, res))).
Proof.
  intros Hfind Habs.
  destruct (processOddsEvent_fields shared ev) as [Hid _].
  unfold oddsSyncStep. rewrite Hid. unfold GetMatchByAPIID at 1.
  destruct (get_fails env) eqn:Hg.
  - apply restamped_upsert; [exact Hg|].
    destruct (negb _); [left; reflexivity|].
    assert (Hu : snd (UpsertMatch env db (processOddsEvent shared ev)) = db
                 \/ snd (UpsertMatch env db (processOddsEvent shared ev))
                    = (if write_fails env then db
                       else touched (write_time env) (oe_ID ev) db)).
    { unfold UpsertMatch. rewrite Hid.
      destruct (GetMatchByAPIID _ _ _).
      - right. apply (UpdateMatchByAPIID_absorbed _ _ _ _ _ ex Hfind).
        intros r Hin Hr. apply (Habs _ r Hin Hr).
      - left. apply insertMatch_taken. rewrite Hid.
        apply (find_existsb _ _ ex Hfind). }
    destruct (UpsertMatch env db _) as [[?|?] ?]; exact Hu.
  - rewrite Hfind. cbn [withOdds APIID]. rewrite Hid.
    assert (Hu : snd (UpdateMatchByAPIID (write_fails env) (write_time env) db
                        (oe_ID ev) (premerged (processOddsEvent shared ev) ex))
                 = if write_fails env then db
                   else touched (write_time env) (oe_ID ev) db).
    { apply (UpdateMatchByAPIID_absorbed _ _ _ _ _ ex Hfind).
      intros r Hin Hr. apply (Habs _ r Hin Hr). }
    unfold premerged in Hu.
    assert (Hr : restamped env (oe_ID ev) db
                   (snd (UpdateMatchByAPIID (write_fails env) (write_time env)
                           db (oe_ID ev)
                           (withOdds
                              (orExisting
                                 (HomeOdds (processOddsEvent shared ev))
                                 (HomeOdds ex))
                              (orExisting
                                 (DrawOdds (processOddsEvent shared ev))
                                 (DrawOdds ex))
                              (orExisting
                                 (AwayOdds (processOddsEvent shared ev))
                                 (AwayOdds ex))
                              (processOddsEvent shared ev))))).
    { rewrite Hu. apply restamped_write. }
    destruct (UpdateMatchByAPIID _ _ _ _ _) as [[?|?] ?]; exact Hr.
Qed.

Lemma sameReport_withOdds_l (h d a : option Z) (f : Match) :
  sameReport (withOdds h d a f) f.
Proof. repeat split. Qed.

Lemma sameReport_withOdds_r (h d a : option Z) (f : Match) :
  sameReport f (withOdds h d a f).
Proof. repeat split. Qed.

(** X8.  Reporting an odds record again changes nothing but a time stamp:
    after an odds-sync step that met no store failure, a second step for
    the same record leaves every wager and balance, the number and order
    of the match rows and every column of every row but [updated_at].
    That column changes on rows of the reported fixture only: it is
    written anew when neither the lookup nor the write of the second step
    fails, and it stays when the write fails. *)
Theorem odds_report_twice (shared : bool) (env1 env2 : StoreEnv)
    (ev : OddsAPIEvent) (db : DB) (res1 res2 : Results) :
  noFaults env1 ->
  let db1 := fst (oddsSyncStep shared env1 ev (db, res1)) in
  let db2 := fst (oddsSyncStep shared env2 ev (db1, res2)) in
  bets db2 = bets db1 /\ users db2 = users db1
  /\ List.length (epl_matches db2) = List.length (epl_matches db1)
  /\ forall i r, nth_error (epl_matches db1) i = Some r ->
       exists r',
         nth_error (epl_matches db2) i = Some r'
         /\ sameColumns r r'
         /\ (APIID r <> oe_ID ev -> UpdatedAt r' = UpdatedAt r)
         /\ (UpdatedAt r' = UpdatedAt r \/ UpdatedAt r' = write_time env2)
         /\ (write_fails env2 = true -> UpdatedAt r' = UpdatedAt r)
         /\ (APIID r = oe_ID ev -> get_fails env2 = false ->
             write_fails env2 = false -> UpdatedAt r' = write_time env2).
Proof.
  intros [Hg [Hug Hw]] db1 db2.
  apply (restamped_rows env2 (oe_ID ev) db1 db2). unfold db2.
  destruct (processOddsEvent_fields shared ev) as [Hid _].
  set (f0 := processOddsEvent shared ev) in *.
  destruct (find (hasAPIID (oe_ID ev)) (epl_matches db)) as [ex|] eqn:Hfind.
  - (* the first step is a merge-update *)
    set (upd := fun r => if hasAPIID (oe_ID ev) r
                         then setColumns (write_time env1) (premerged f0 ex) r
                         else r).
    assert (Hdb1 : db1 = withMatches db (map upd (epl_matches db))).
    { unfold db1, oddsSyncStep. fold f0. rewrite Hid, Hg, Hw.
      unfold GetMatchByAPIID. rewrite Hfind. cbn [withOdds APIID]. rewrite Hid.
      unfold UpdateMatchByAPIID. fold (premerged f0 ex). fold upd.
      rewrite (find_map_kept _ upd) by (intros x; apply upd_keeps_id).
      rewrite Hfind. reflexivity. }
    rewrite Hdb1.
    apply (oddsSyncStep_absorbed shared env2 ev _ res2 (upd ex)).
    + simpl. rewrite (find_map_kept _ upd) by (intros x; apply upd_keeps_id).
      rewrite Hfind. reflexivity.
    + intros t r1 Hin Hr1. simpl in Hin. apply in_map_iff in Hin.
      destruct Hin as [r [<- Hin]].
      assert (Hr : hasAPIID (oe_ID ev) r = true).
      { rewrite <- Hr1. unfold upd. symmetry. apply upd_keeps_id. }
      assert (Hex : hasAPIID (oe_ID ev) ex = true).
      { apply find_some in Hfind. apply Hfind. }
      unfold upd. rewrite Hr, Hex. fold f0. split.
      * apply setColumns_absorbed; [apply sameReport_withOdds|].
        unfold oddsAbsorbed, absorbs. simpl.
        destruct (HomeOdds f0), (DrawOdds f0), (AwayOdds f0),
          (HomeOdds ex), (DrawOdds ex), (AwayOdds ex); simpl; auto.
      * apply setColumns_absorbed; [apply sameReport_withOdds_r|].
        unfold oddsAbsorbed, absorbs. simpl.
        destruct (HomeOdds f0), (DrawOdds f0), (AwayOdds f0); simpl; auto.
  - (* the first step looks at a fixture that is not stored *)
    destruct (allOdds f0) eqn:Hall.
    + set (row := newRow (new_id env1) (write_time env1) f0).
      assert (Hdb1 : db1 = withMatches db (epl_matches db ++ [row])%list).
      { unfold db1, oddsSyncStep. fold f0. rewrite Hid, Hg, Hall.
        unfold GetMatchByAPIID. rewrite Hfind. simpl.
        unfold UpsertMatch. rewrite Hug, Hw. unfold GetMatchByAPIID.
        rewrite Hid, Hfind.
        rewrite insertMatch_newRow; [reflexivity|].
        rewrite Hid. apply find_none_existsb. exact Hfind. }
      rewrite Hdb1.
      assert (Hnew : hasAPIID (oe_ID ev) row = true).
      { apply hasAPIID_true. exact Hid. }
      apply (oddsSyncStep_absorbed shared env2 ev _ res2 row).
      * simpl. apply find_snoc_new; assumption.
      * intros t r Hin Hr. simpl in Hin. apply in_app_or in Hin.
        destruct Hin as [Hin|[<-|[]]].
        -- rewrite (find_none _ _ Hfind r Hin) in Hr. discriminate.
        -- fold f0. unfold row. split; apply setColumns_newRow;
             try apply sameReport_withOdds_l; try apply sameReport_refl;
             unfold oddsAbsorbed, absorbs; simpl;
             destruct (HomeOdds f0), (DrawOdds f0), (AwayOdds f0); simpl; auto.
    + assert (Hskip : forall env res,
                 fst (oddsSyncStep shared env ev (db, res)) = db).
      { intros env res. unfold oddsSyncStep. fold f0. rewrite Hid, Hall.
        unfold GetMatchByAPIID. rewrite Hfind.
        destruct (get_fails env); reflexivity. }
      unfold db1. rewrite (Hskip env1 res1), (Hskip env2 res2).
      apply restamped_none. exact Hfind.
Qed.

Lemma odds_report_twice_witness :
  let db1 := fst (oddsSyncStep false (noStoreFaults "row-9") oddsEvent_demo
                    (matchDB_demo, noResults)) in
  let db2 := fst (oddsSyncStep false laterWrite_demo oddsEvent_demo
                    (db1, noResults)) in
  bets db2 = bets db1 /\ users db2 = users db1
  /\ List.length (epl_matches db2) = List.length (epl_matches db1)
  /\ exists r',
       nth_error (epl_matches db2) 0 = Some r'
       /\ HomeOdds r' = Some 155 /\ DrawOdds r' = Some 350
       /\ AwayOdds r' = Some 510
       /\ UpdatedAt r' = 1699995000.
Proof.
  destruct (odds_report_twice false (noStoreFaults "row-9") laterWrite_demo
              oddsEvent_demo matchDB_demo noResults noResults
              (conj eq_refl (conj eq_refl eq_refl)))
    as [Hb [Hu [Hl Hrows]]].
  split; [exact Hb|]. split; [exact Hu|]. split; [exact Hl|].
  destruct (Hrows 0%nat _ eq_refl) as [r' [Hi [Hsame [_ [_ [_ Hstamp]]]]]].
  exists r'. split; [exact Hi|].
  destruct Hsame as [_ [_ [_ [_ [_ [Hh [Hd [Ha _]]]]]]]].
  split; [exact Hh|]. split; [exact Hd|]. split; [exact Ha|].
  exact (Hstamp eq_refl eq_refl eq_refl).
Defined.

(** ** The counters of a sync *)

Lemma Decode_length {R E : Type} (one : R -> option E) (records : list R) :
  forall events, Decode one records = Some events ->
                 List.length events = List.length records.
Proof.
  induction records as [|r records IH]; intros events H; simpl in H.
  - injection H as <-. reflexivity.
  - destruct (one r); [|discriminate].
    destruct (Decode one records) as [es|]; [|discriminate].
    injection H as <-. simpl. rewrite (IH es eq_refl). reflexivity.
Qed.

Lemma fetchFromAPI_ok {R E : Type} (one : R -> option E) (apiKey : string)
    (reply : HTTPReply R) (events : list E) :
  fetchFromAPI one apiKey reply = Ok events ->
  exists records,
    reply = Reply 200 (Some records) /\ Decode one records = Some events
    /\ apiKey <> "".
Proof.
  unfold fetchFromAPI. destruct (String.eqb_spec apiKey "") as [|Hkey];
    [discriminate|].
  destruct reply as [|code [records|]]; try discriminate.
  - destruct (Z.eqb_spec code 200) as [->|]; simpl; [|discriminate].
    destruct (Decode one records) as [es|] eqn:Hd; [|discriminate].
    intros H. injection H as <-. exists records. auto.
  - destruct (negb (code =? 200)); discriminate.
Qed.

Lemma UpdateMatchByAPIID_found (db : DB) (apiID : string) (now : Time) (fact ex : Match) :
  find (hasAPIID apiID) (epl_matches db) = Some ex ->
  exists r db', UpdateMatchByAPIID false now db apiID fact = (Ok r, db').
Proof.
  intros Hfind. unfold UpdateMatchByAPIID.
  rewrite (find_map_kept _ (fun r => if hasAPIID apiID r then setColumns now fact r
                                     else r))
    by (intros x; apply upd_keeps_id).
  rewrite Hfind. simpl. eexists. eexists. reflexivity.
Qed.

Lemma oddsSyncStep_counts (shared : bool) (env : StoreEnv) (ev : OddsAPIEvent)
    (db : DB) (res : Results) :
  let res' := snd (oddsSyncStep shared env ev (db, res)) in
  (res' = res \/ res' = incCreated res \/ res' = incUpdated res
   \/ res' = incSkipped res)
  /\ (noFaults env -> res' <> res).
Proof.
  destruct (processOddsEvent_fields shared ev) as [Hid _].
  assert (Hne : incCreated res <> res /\ incUpdated res <> res
                /\ incSkipped res <> res).
  { destruct res as [c u s]. unfold incCreated, incUpdated, incSkipped. simpl.
    repeat split; intros H; injection H; lia. }
  destruct Hne as [Hc [Hu Hs]].
  unfold oddsSyncStep. rewrite Hid.
  destruct (GetMatchByAPIID (get_fails env) db (oe_ID ev)) as [ex|e] eqn:Hget.
  - cbn [withOdds APIID]. rewrite Hid. split.
    + destruct (UpdateMatchByAPIID _ _ _ _ _) as [[?|?] ?]; simpl; auto.
    + intros [Hg [_ Hw]]. rewrite Hw.
      unfold GetMatchByAPIID in Hget. rewrite Hg in Hget.
      destruct (find _ _) as [ex'|] eqn:Hfind; [|discriminate].
      match goal with
      | |- context [UpdateMatchByAPIID false ?t db ?a ?f] =>
          destruct (UpdateMatchByAPIID_found db a t f ex' Hfind) as [r [db' Hup]];
            rewrite Hup
      end.
      simpl. exact Hu.
  - destruct (allOdds (processOddsEvent shared ev)) eqn:Hall; simpl.
    + split.
      * destruct (UpsertMatch env db _) as [[?|?] ?]; simpl; auto.
      * intros [Hg [Hug Hw]].
        unfold GetMatchByAPIID in Hget. rewrite Hg in Hget.
        destruct (find _ _) eqn:Hfind; [discriminate|].
        rewrite UpsertMatch_absent by (rewrite Hid; exact Hfind).
        rewrite Hw, insertMatch_newRow; [exact Hc|].
        rewrite Hid. apply find_none_existsb. exact Hfind.
    + split; [auto|]. intros _. exact Hs.
Qed.

Lemma scoresSyncStep_counts (env : StoreEnv) (ev : ScoresAPIEvent)
    (db : DB) (res : Results) :
  let res' := snd (scoresSyncStep env ev (db, res)) in
  (res' = res \/ res' = incCreated res \/ res' = incUpdated res)
  /\ (noFaults env -> res' <> res).
Proof.
  destruct (processScoreEvent_fields ev) as [Hid _].
  assert (Hne : incCreated res <> res /\ incUpdated res <> res).
  { destruct res as [c u s]. unfold incCreated, incUpdated. simpl.
    split; intros H; injection H; lia. }
  destruct Hne as [Hc Hu].
  unfold scoresSyncStep. rewrite Hid.
  destruct (GetMatchByAPIID (get_fails env) db (se_ID ev)) as [ex|e] eqn:Hget.
  - cbn [withOdds APIID]. rewrite Hid. split.
    + destruct (UpdateMatchByAPIID _ _ _ _ _) as [[?|?] ?]; simpl; auto.
    + intros [Hg [_ Hw]]. rewrite Hw.
      unfold GetMatchByAPIID in Hget. rewrite Hg in Hget.
      destruct (find _ _) as [ex'|] eqn:Hfind; [|discriminate].
      match goal with
      | |- context [UpdateMatchByAPIID false ?t db ?a ?f] =>
          destruct (UpdateMatchByAPIID_found db a t f ex' Hfind) as [r [db' Hup]];
            rewrite Hup
      end.
      simpl. exact Hu.
  - split.
    + destruct (UpsertMatch env db _) as [[?|?] ?]; simpl; auto.
    + intros [Hg [Hug Hw]].
      unfold GetMatchByAPIID in Hget. rewrite Hg in Hget.
      destruct (find _ _) eqn:Hfind; [discriminate|].
      rewrite UpsertMatch_absent by (simpl; rewrite Hid; exact Hfind).
      rewrite Hw, insertMatch_newRow; [exact Hc|].
      simpl. rewrite Hid. apply find_none_existsb. exact Hfind.
Qed.

Lemma counted_step (res res' : Results) :
  res' = res \/ res' = incCreated res \/ res' = incUpdated res
  \/ res' = incSkipped res ->
  counted res <= counted res' <= counted res + 1
  /\ (res' <> res -> counted res' = counted res + 1)
  /\ skipped res <= skipped res'.
Proof.
  unfold counted.
  intros [->|[->|[->| ->]]]; simpl;
    (split; [lia|split; [intros H; try lia; exfalso; apply H; reflexivity|lia]]).
Qed.

Lemma syncLoop_counted {E : Type}
    (step : StoreEnv -> E -> DB * Results -> DB * Results)
    (envs : nat -> StoreEnv) :
  (forall env e db res,
     let res' := snd (step env e (db, res)) in
     (res' = res \/ res' = incCreated res \/ res' = incUpdated res
      \/ res' = incSkipped res)
     /\ (noFaults env -> res' <> res)) ->
  forall l i st,
    let res' := snd (syncLoop step envs i l st) in
    counted (snd st) <= counted res'
    <= counted (snd st) + Z.of_nat (List.length l)
    /\ ((forall k, noFaults (envs k)) ->
        counted res' = counted (snd st) + Z.of_nat (List.length l)).
Proof.
  intros Hstep. induction l as [|e l IH]; intros i st; simpl.
  - split; [lia|]. intros _. lia.
  - destruct st as [db res].
    destruct (Hstep (envs i) e db res) as [Hcases Hno].
    destruct (counted_step res _ Hcases) as [Hb [Hexact _]].
    destruct (IH (S i) (step (envs i) e (db, res))) as [IHb IHe].
    simpl in *. split.
    + lia.
    + intros Hall. rewrite (IHe Hall), (Hexact (Hno (Hall i))). lia.
Qed.

(** X9.  The summary of an odds sync accounts for the records of the feed:
    created, updated and skipped together never exceed the number of
    records of the decoded reply, and equal it when no store call fails. *)
Theorem odds_sync_counts (shared : bool) (apiKey : string)
    (reply : HTTPReply RawOddsRecord) (events : list OddsAPIEvent)
    (envs : nat -> StoreEnv) (db : DB) :
  fetchOddsFromAPI apiKey reply = Ok events ->
  exists results,
    fst (oddsSyncHandler shared true apiKey reply envs db) = SyncSummary results
    /\ 0 <= counted results <= Z.of_nat (List.length events)
    /\ ((forall k, noFaults (envs k)) ->
        counted results = Z.of_nat (List.length events)).
Proof.
  intros Hfetch. unfold oddsSyncHandler. simpl. rewrite Hfetch.
  destruct events as [|ev evs].
  - exists noResults. simpl. split; [reflexivity|]. split; [unfold counted; simpl; lia|].
    intros _. reflexivity.
  - destruct (syncLoop_counted (oddsSyncStep shared) envs
                (oddsSyncStep_counts shared) (ev :: evs) 0%nat (db, noResults))
      as [Hb He].
    destruct (syncLoop _ _ _ _ _) as [db' res]. exists res.
    split; [reflexivity|]. cbn [snd fst] in Hb, He.
    change (counted noResults) with 0 in *. split; [lia|].
    intros Hall. rewrite (He Hall). lia.
Qed.

Lemma odds_sync_counts_witness :
  exists results,
    fst (oddsSyncHandler false true "key"
           (Reply 200 (Some (oddsRecord_demo :: nineValid_demo)))
           batchEnvs_demo matchDB_demo)
    = SyncSummary results
    /\ counted results = 10.
Proof.
  destruct (odds_sync_counts false "key"
              (Reply 200 (Some (oddsRecord_demo :: nineValid_demo)))
              _ batchEnvs_demo matchDB_demo eq_refl)
    as [results [Hr [_ Hall]]].
  exists results. split; [exact Hr|].
  apply Hall. intros k. repeat split.
Defined.

Lemma scoresSyncStep_counts' (env : StoreEnv) (ev : ScoresAPIEvent)
    (db : DB) (res : Results) :
  let res' := snd (scoresSyncStep env ev (db, res)) in
  (res' = res \/ res' = incCreated res \/ res' = incUpdated res
   \/ res' = incSkipped res)
  /\ (noFaults env -> res' <> res).
Proof.
  destruct (scoresSyncStep_counts env ev db res) as [H1 H2].
  split; [|exact H2]. destruct H1 as [H|[H|H]]; auto.
Qed.

Lemma syncLoop_never_skips
    (envs : nat -> StoreEnv) (l : list ScoresAPIEvent) :
  forall i st, skipped (snd (syncLoop scoresSyncStep envs i l st))
               = skipped (snd st).
Proof.
  induction l as [|e l IH]; intros i st; cbn [syncLoop]; [reflexivity|].
  rewrite IH. destruct st as [db res].
  destruct (scoresSyncStep_counts (envs i) e db res) as [[H|[H|H]] _];
    cbv zeta in H; rewrite H; reflexivity.
Qed.

(** X10.  The summary of a scores sync: created and updated together never
    exceed the number of records of the decoded reply and equal it when no
    store call fails; nothing is ever counted as skipped. *)
Theorem scores_sync_counts (apiKey : string)
    (reply : HTTPReply RawScoresRecord) (events : list ScoresAPIEvent)
    (envs : nat -> StoreEnv) (db : DB) :
  fetchScoresFromAPI apiKey reply = Ok events ->
  exists results,
    fst (scoresSyncHandler true apiKey reply envs db) = SyncSummary results
    /\ skipped results = 0
    /\ 0 <= created results + updated results <= Z.of_nat (List.length events)
    /\ ((forall k, noFaults (envs k)) ->
        created results + updated results = Z.of_nat (List.length events)).
Proof.
  intros Hfetch. unfold scoresSyncHandler. simpl. rewrite Hfetch.
  destruct events as [|ev evs].
  - exists noResults. simpl. repeat split; try lia. 
  - destruct (syncLoop_counted scoresSyncStep envs
                scoresSyncStep_counts' (ev :: evs) 0%nat (db, noResults))
      as [Hb He].
    pose proof (syncLoop_never_skips envs (ev :: evs) 0%nat (db, noResults))
      as Hs.
    destruct (syncLoop _ _ _ _ _) as [db' res]. exists res.
    split; [reflexivity|]. cbn [snd fst] in Hb, He, Hs.
    unfold counted in *. cbn [created updated skipped noResults] in *.
    split; [exact Hs|]. split; [lia|].
    intros Hall. specialize (He Hall). lia.
Qed.

Lemma scores_sync_counts_witness :
  exists results,
    fst (scoresSyncHandler true "key"
           (Reply 200 (Some [scoresRecord_blank; scoresRecord_noScore]))
           batchEnvs_demo ledgerDB_demo)
    = SyncSummary results
    /\ created results + updated results = 2.
Proof.
  destruct (scores_sync_counts "key"
              (Reply 200 (Some [scoresRecord_blank; scoresRecord_noScore]))
              _ batchEnvs_demo ledgerDB_demo eq_refl)
    as [results [Hr [_ [_ Hall]]]].
  exists results. split; [exact Hr|].
  apply Hall. intros k. repeat split.
Defined.

(** ** Lookups after writes *)

(** X11.  What the store answers after an upsert: the row that a successful
    [UpsertMatch] returns is the row that a lookup of the fixture id finds
    afterwards, a failed one leaves the table as it was, and a merge-update
    for an id that is not stored reports that no row matched and writes
    nothing. *)
Theorem upsert_then_lookup (env : StoreEnv) (db : DB) (fact : Match) :
  (forall r db', UpsertMatch env db fact = (Ok r, db') ->
     GetMatchByAPIID false db' (APIID fact) = Ok r
     /\ In r (epl_matches db') /\ APIID r = APIID fact)
  /\ (forall e db', UpsertMatch env db fact = (Err e, db') -> db' = db)
  /\ (forall apiID now,
        find (hasAPIID apiID) (epl_matches db) = None ->
        UpdateMatchByAPIID false now db apiID fact = (Err ErrNoRows, db)
        /\ GetMatchByAPIID false db apiID = Err ErrNoRows).
Proof.
  split; [|split].
  - intros r db' H. unfold UpsertMatch in H.
    destruct (GetMatchByAPIID _ _ _) as [ex|e].
    + unfold UpdateMatchByAPIID in H. destruct (write_fails env); [discriminate|].
      destruct (find _ _) as [r'|] eqn:Hfind; [|discriminate].
      injection H as <- <-. unfold GetMatchByAPIID. simpl. rewrite Hfind.
      split; [reflexivity|]. apply find_some in Hfind.
      destruct Hfind as [Hin Hid]. split; [exact Hin|].
      apply hasAPIID_true. exact Hid.
    + unfold insertMatch in H. destruct (write_fails env); [discriminate|].
      destruct (existsb _ _) eqn:Hex; [discriminate|].
      injection H as <- <-. unfold GetMatchByAPIID. simpl.
      assert (Hnone : find (hasAPIID (APIID fact)) (epl_matches db) = None).
      { destruct (find _ _) as [x|] eqn:Hf; [|reflexivity].
        rewrite (find_existsb _ _ x Hf) in Hex. discriminate. }
      rewrite (find_snoc_new _ _ _ Hnone).
      * split; [reflexivity|]. split; [|reflexivity].
        apply in_or_app. right. left. reflexivity.
      * apply hasAPIID_true. reflexivity.
  - intros e db' H. unfold UpsertMatch in H.
    destruct (GetMatchByAPIID _ _ _) as [ex|e0].
    + unfold UpdateMatchByAPIID in H. destruct (write_fails env).
      * injection H as _ <-. reflexivity.
      * destruct (find _ _); [discriminate|]. injection H as _ <-. reflexivity.
    + unfold insertMatch in H. destruct (write_fails env).
      * injection H as _ <-. reflexivity.
      * destruct (existsb _ _); [|discriminate]. injection H as _ <-. reflexivity.
  - intros apiID now Hnone. unfold UpdateMatchByAPIID, GetMatchByAPIID.
    rewrite (find_map_kept _ (fun r => if hasAPIID apiID r then setColumns now fact r
                                       else r))
      by (intros x; apply upd_keeps_id).
    rewrite Hnone. split; reflexivity.
Qed.

Lemma upsert_then_lookup_witness :
  UpdateMatchByAPIID false 1699990000 matchDB_demo "fx-404" factNoOdds_demo
  = (Err ErrNoRows, matchDB_demo).
Proof.
  exact (proj1 (proj2 (proj2 (upsert_then_lookup (noStoreFaults "row")
                                matchDB_demo factNoOdds_demo))
                 "fx-404" 1699990000 eq_refl)).
Defined.

(** ** The ledger under settlement *)

Lemma settlement_no_pending (db : DB) (matchAPIID result : string) :
  noPendingOn matchAPIID db -> settlement db matchAPIID result = db.
Proof.
  intros Hnp. destruct db as [ms bs us]. unfold settlement. simpl.
  unfold noPendingOn in Hnp. simpl in Hnp. f_equal.
  - apply map_fixed. intros b Hb. apply settleBet_other.
    destruct (String.eqb_spec (match_id b) matchAPIID) as [Hm|Hm];
      [right; apply Hnp; assumption|left; exact Hm].
  - apply map_fixed. intros [i m] _. unfold credited. simpl.
    rewrite payoutDue_none; [rewrite Z.add_0_r; reflexivity|].
    intros b Hb _. unfold wins, isPendingOn.
    destruct (String.eqb_spec (match_id b) matchAPIID) as [Hm|Hm]; [|reflexivity].
    rewrite (proj2 (String.eqb_neq _ _) (Hnp b Hb Hm)). reflexivity.
Qed.

Lemma settlement_leaves_none_pending (db : DB) (matchAPIID result : string) :
  noPendingOn matchAPIID (settlement db matchAPIID result).
Proof.
  intros b' Hb' Hm. simpl in Hb'. apply in_map_iff in Hb'.
  destruct Hb' as [b [<- Hb]]. rewrite settleBet_match_id in Hm.
  apply settleBet_terminal. exact Hm.
Qed.

(** X12.  No double payout.  When no wager on a match is pending, a
    settlement transaction for it changes no table whether it commits or
    fails; this is the state a committed transaction leaves, so settling a
    match again, with whatever result and whatever failures, changes
    nothing. *)
Theorem settlement_retry_changes_nothing (f : TxFaults) (db : DB)
    (matchAPIID result result' : string) :
  (noPendingOn matchAPIID db ->
   snd (UpdateBetsStatusAndUserMoney f db matchAPIID result) = db)
  /\ snd (UpdateBetsStatusAndUserMoney f (settlement db matchAPIID result)
            matchAPIID result')
     = settlement db matchAPIID result.
Proof.
  assert (H : forall d r, noPendingOn matchAPIID d ->
                snd (UpdateBetsStatusAndUserMoney f d matchAPIID r) = d).
  { intros d r Hnp.
    destruct (UpdateBetsStatusAndUserMoney_cases f d matchAPIID r)
      as [[e He]|Hs].
    - rewrite He. reflexivity.
    - rewrite Hs. simpl. apply settlement_no_pending. exact Hnp. }
  split.
  - apply H.
  - apply H. apply settlement_leaves_none_pending.
Qed.

Lemma settlement_retry_changes_nothing_witness :
  snd (UpdateBetsStatusAndUserMoney noTxFaults ledgerDB_demo "fx-1" "home")
  = settledLedger_demo
  /\ snd (UpdateBetsStatusAndUserMoney noTxFaults settledLedger_demo "fx-1"
            "home") = settledLedger_demo
  /\ snd (UpdateBetsStatusAndUserMoney noTxFaults settledLedger_demo "fx-1"
            "draw") = settledLedger_demo.
Proof.
  split; [reflexivity|]. split.
  - apply (proj1 (settlement_retry_changes_nothing noTxFaults
                    settledLedger_demo "fx-1" "home" "home")).
    intros b [<-|[<-|[]]] _; discriminate.
  - apply (proj1 (settlement_retry_changes_nothing noTxFaults
                    settledLedger_demo "fx-1" "draw" "draw")).
    intros b [<-|[<-|[]]] _; discriminate.
Defined.

Lemma sum_indicator (us : list User) (x : string) (v : Z) :
  NoDup (map id us) -> In x (map id us) ->
  fold_right Z.add 0 (map (fun u => if (x =? id u)%string then v else 0) us) = v.
Proof.
  induction us as [|u us IH]; intros Hnd Hin; simpl in *; [contradiction|].
  inversion Hnd as [|? ? Hnot Hnd']; subst.
  destruct (String.eqb_spec x (id u)) as [->|Hne].
  - assert (Hz : fold_right Z.add 0
                   (map (fun u0 => if (id u =? id u0)%string then v else 0) us) = 0).
    { clear IH Hin Hnd Hnd'. induction us as [|w us IHus]; simpl; [reflexivity|].
      destruct (String.eqb_spec (id u) (id w)) as [Heq|_].
      - exfalso. apply Hnot. left. symmetry. exact Heq.
      - rewrite IHus; [reflexivity|]. intros Hin. apply Hnot. right. exact Hin. }
    rewrite Hz. lia.
  - destruct Hin as [Heq|Hin]; [congruence|]. rewrite (IH Hnd' Hin). lia.
Qed.

Lemma sum_zero (us : list User) :
  fold_right Z.add 0 (map (fun _ : User => 0) us) = 0.
Proof. induction us as [|u us IH]; simpl; [reflexivity|]. rewrite IH. reflexivity. Qed.

Lemma sum_add (f g : User -> Z) (us : list User) :
  fold_right Z.add 0 (map (fun u => f u + g u) us)
  = fold_right Z.add 0 (map f us) + fold_right Z.add 0 (map g us).
Proof. induction us as [|u us IH]; simpl; [reflexivity|]. rewrite IH. lia. Qed.

Lemma sum_payoutDue (matchAPIID result : string) (bs : list Bet) (us : list User) :
  NoDup (map id us) ->
  (forall b, In b bs -> wins matchAPIID result b = true ->
             In (user_id b) (map id us)) ->
  fold_right Z.add 0 (map (fun u => payoutDue matchAPIID result bs (id u)) us)
  = totalPayout matchAPIID result bs.
Proof.
  intros Hnd. induction bs as [|b bs IH]; intros Hfk.
  - unfold payoutDue, totalPayout. simpl. apply sum_zero.
  - assert (IH' := IH (fun b' Hb' => Hfk b' (or_intror Hb'))).
    unfold totalPayout in *. simpl.
    destruct (wins matchAPIID result b) eqn:Hw.
    + simpl. rewrite <- IH'.
      rewrite <- (sum_indicator us (user_id b) (potential_win b) Hnd
                    (Hfk b (or_introl eq_refl) Hw)) at 1.
      rewrite <- sum_add. f_equal. apply map_ext. intros u.
      unfold payoutDue. simpl. rewrite Hw. simpl.
      destruct (user_id b =? id u)%string; simpl; [reflexivity|lia].
    + rewrite <- IH'. f_equal. apply map_ext. intros u.
      unfold payoutDue. simpl. rewrite Hw. reflexivity.
Qed.

(** X13.  A committed settlement creates exactly the money it pays: with
    unique user ids and every winning wager owned by a stored user, the sum
    of all balances grows by the sum of the payouts of the winning
    wagers. *)
Theorem settlement_pays_the_winners (db : DB) (matchAPIID result : string) :
  NoDup (map id (users db)) ->
  winnersExist matchAPIID result db ->
  UpdateBetsStatusAndUserMoney noTxFaults db matchAPIID result
  = (None, settlement db matchAPIID result)
  /\ totalMoney (users (settlement db matchAPIID result))
     = totalMoney (users db) + totalPayout matchAPIID result (bets db).
Proof.
  intros Hnd Hfk. split; [apply UpdateBetsStatusAndUserMoney_no_faults|].
  unfold totalMoney. simpl. rewrite map_map. unfold credited. simpl.
  rewrite (sum_add money), sum_payoutDue by assumption.
  reflexivity.
Qed.

Lemma settlement_pays_the_winners_witness :
  totalMoney (users (settlement ledgerDB_demo "fx-1" "home")) = 1500 + 300.
Proof.
  refine (proj2 (settlement_pays_the_winners ledgerDB_demo "fx-1" "home" _ _)).
  - simpl. constructor.
    + intros [H|[]]. discriminate H.
    + constructor; [intros []|constructor].
  - intros b [<-|[<-|[]]] Hw; simpl.
    + left. reflexivity.
    + discriminate Hw.
Defined.

(** ** What a settlement run reports and writes *)

Lemma calcStep_cases_result (env : CalcEnv) (i : nat) (c : Match) (db : DB)
    (n : Z) (l : list CalculatedMatch) :
  calcStep env i c (db, n, l) = (db, n, l)
  \/ exists hs aw,
       HomeScore c = Some hs /\ AwayScore c = Some aw
       /\ (calcStep env i c (db, n, l)
           = (settlement db (APIID c) (computeResult hs aw), n, l)
           \/ calcStep env i c (db, n, l)
              = (marked (mark_time env i)
                   (settlement db (APIID c) (computeResult hs aw))
                   (APIID c) (computeResult hs aw),
                 n + 1, (l ++ [reportOf c hs aw])%list)).
Proof.
  unfold calcStep.
  destruct (HomeScore c) as [hs|]; [|left; reflexivity].
  destruct (AwayScore c) as [aw|]; [|left; reflexivity].
  destruct (UpdateBetsStatusAndUserMoney_cases (tx_faults env i) db (APIID c)
              (computeResult hs aw)) as [[e He]|Hs].
  - rewrite He. left. reflexivity.
  - rewrite Hs. right. exists hs, aw. split; [reflexivity|].
    split; [reflexivity|]. unfold UpdateMatchCalculated.
    destruct (mark_fails env i); [left|right]; reflexivity.
Qed.

Lemma computeResult_resultOf (hs aw : Z) :
  resultOf hs aw (computeResult hs aw).
Proof.
  unfold resultOf.
  destruct (computeResult_cases hs aw) as [[H1 H2]|[[H1 H2]|[H1 H2]]];
    rewrite H2; auto.
Qed.

Lemma soundEntry_more (cands : list Match) (c : Match) (cm : CalculatedMatch) :
  soundEntry cands cm -> soundEntry (c :: cands) cm.
Proof.
  intros [Hr [c' [Hin H]]]. split; [exact Hr|].
  exists c'. split; [right; exact Hin|exact H].
Qed.

Lemma calcLoop_report (env : CalcEnv) (all : list Match) (cands : list Match) :
  (forall c, In c cands -> In c all) ->
  forall i db n l,
    n = Z.of_nat (List.length l) -> Forall (soundEntry all) l ->
    let st' := calcLoop env i cands (db, n, l) in
    snd (fst st') = Z.of_nat (List.length (snd st'))
    /\ Forall (soundEntry all) (snd st')
    /\ (List.length l <= List.length (snd st')
        <= List.length l + List.length cands)%nat.
Proof.
  induction cands as [|c cands IH]; intros Hall i db n l Hn Hl; cbn [calcLoop].
  - simpl. split; [exact Hn|]. split; [exact Hl|lia].
  - assert (Hall' : forall c', In c' cands -> In c' all)
      by (intros c' Hc'; apply Hall; right; exact Hc').
    destruct (calcStep_cases_result env i c db n l)
      as [H|[hs [aw [Hh [Ha [H|H]]]]]]; rewrite H.
    + destruct (IH Hall' (S i) db n l Hn Hl) as [H1 [H2 H3]].
      split; [exact H1|]. split; [exact H2|]. simpl. lia.
    + destruct (IH Hall' (S i)
                  (settlement db (APIID c) (computeResult hs aw)) n l
                  Hn Hl) as [H1 [H2 H3]].
      split; [exact H1|]. split; [exact H2|]. simpl. lia.
    + destruct (IH Hall' (S i)
                  (marked (mark_time env i)
                     (settlement db (APIID c) (computeResult hs aw))
                     (APIID c) (computeResult hs aw))
                  (n + 1) (l ++ [reportOf c hs aw])%list) as [H1 [H2 H3]].
      * rewrite length_app. simpl. lia.
      * apply Forall_app. split; [exact Hl|]. constructor; [|constructor].
        split; [apply computeResult_resultOf|].
        exists c. split; [apply Hall; left; reflexivity|].
        split; [reflexivity|]. split; [reflexivity|].
        split; [exact Hh|exact Ha].
      * split; [exact H1|]. split; [exact H2|].
        rewrite length_app in H3. simpl in *. lia.
Qed.

Lemma calcLoop_clean_report (env : CalcEnv) (cands : list Match) :
  (forall i, tx_faults env i = noTxFaults) ->
  (forall i, mark_fails env i = false) ->
  (forall c, In c cands -> completedUncalculated c = true) ->
  forall i db n l,
    List.length (snd (calcLoop env i cands (db, n, l)))
    = (List.length l + List.length cands)%nat.
Proof.
  intros Htx Hmk. induction cands as [|c cands IH]; intros Hc i db n l;
    cbn [calcLoop].
  - simpl. lia.
  - destruct (proj1 (completedUncalculated_true c) (Hc c (or_introl eq_refl)))
      as [_ [_ [[hs [Hh _]] [aw [Ha _]]]]].
    rewrite (calcStep_settles env i c db n l hs aw Hh Ha (Htx i) (Hmk i)).
    rewrite IH by (intros c' Hc'; apply Hc; right; exact Hc').
    rewrite length_app. simpl. lia.
Qed.

(** X14.  The summary of a settlement run: the count is the number of
    matches listed, which is at most the number of stored matches that are
    completed, not calculated and have both scores, neither of them -1,
    and exactly that number when no store call fails.  Every listed entry
    carries the teams and the stored scores of such a match, and its
    result is "home" when the home score is above the away score, "away"
    when it is below and "draw" when the two are equal. *)
Theorem calc_summary_is_sound (env : CalcEnv) (db : DB) :
  select_fails env = false ->
  exists updatedCount calculatedMatches,
    fst (calcHandler true env db) = CalcSummary updatedCount calculatedMatches
    /\ updatedCount = Z.of_nat (List.length calculatedMatches)
    /\ (List.length calculatedMatches
        <= List.length (filter completedUncalculated (epl_matches db)))%nat
    /\ (forall cm, In cm calculatedMatches ->
          ((fst (cm_score cm) > snd (cm_score cm) /\ cm_result cm = "home")
           \/ (fst (cm_score cm) < snd (cm_score cm) /\ cm_result cm = "away")
           \/ (fst (cm_score cm) = snd (cm_score cm)
               /\ cm_result cm = "draw"))
          /\ exists c,
               In c (epl_matches db)
               /\ Completed c = true /\ Calculated c = false
               /\ cm_home_team cm = HomeTeam c
               /\ cm_away_team cm = AwayTeam c
               /\ HomeScore c = Some (fst (cm_score cm))
               /\ AwayScore c = Some (snd (cm_score cm))
               /\ fst (cm_score cm) <> -1 /\ snd (cm_score cm) <> -1)
    /\ (cleanRun env ->
        List.length calculatedMatches
        = List.length (filter completedUncalculated (epl_matches db))).
Proof.
  intros Hsel. unfold calcHandler, GetCompletedUncalculatedMatches.
  rewrite Hsel. simpl.
  set (cands := filter completedUncalculated (epl_matches db)).
  destruct (calcLoop_report env cands cands (fun c H => H) 0%nat db 0 []
              eq_refl (Forall_nil _))
    as [H1 [H2 H3]].
  pose proof (calcLoop_clean_report env cands) as Hclean.
  destruct (calcLoop env 0 cands (db, 0, [])) as [[db' n] l] eqn:Hloop.
  simpl in H1, H2, H3. exists n, l. split; [reflexivity|].
  split; [exact H1|]. split; [lia|]. split.
  - intros cm Hcm.
    destruct (proj1 (Forall_forall _ _) H2 cm Hcm)
      as [Hres [c [Hc [Hht [Hat [Hh Ha]]]]]].
    split; [exact Hres|].
    apply filter_In in Hc. destruct Hc as [Hin Hcu].
    apply completedUncalculated_true in Hcu.
    destruct Hcu as [Hco [Hca [[hs [Hhs Hhn]] [aw [Haw Han]]]]].
    exists c. split; [exact Hin|]. split; [exact Hco|]. split; [exact Hca|].
    split; [exact Hht|]. split; [exact Hat|]. split; [exact Hh|].
    split; [exact Ha|]. split; congruence.
  - intros [_ [Htx Hmk]].
    specialize (Hclean Htx Hmk
                  (fun c Hc => proj2 (proj1 (filter_In _ _ _) Hc))
                  0%nat db 0 []).
    rewrite Hloop in Hclean. simpl in Hclean. exact Hclean.
Qed.

Lemma calc_summary_is_sound_witness :
  exists updatedCount calculatedMatches,
    fst (calcHandler true firstTxFails_demo twoFinishedDB_demo)
    = CalcSummary updatedCount calculatedMatches
    /\ updatedCount = Z.of_nat (List.length calculatedMatches)
    /\ forall cm, In cm calculatedMatches ->
         (fst (cm_score cm) > snd (cm_score cm) /\ cm_result cm = "home")
         \/ (fst (cm_score cm) < snd (cm_score cm) /\ cm_result cm = "away")
         \/ (fst (cm_score cm) = snd (cm_score cm) /\ cm_result cm = "draw").
Proof.
  destruct (calc_summary_is_sound firstTxFails_demo twoFinishedDB_demo eq_refl)
    as [n [l [H1 [H2 [_ [H4 _]]]]]].
  exists n, l. split; [exact H1|]. split; [exact H2|].
  intros cm Hcm. exact (proj1 (H4 cm Hcm)).
Defined.

Example calc_summary_demo :
  fst (calcHandler true firstTxFails_demo twoFinishedDB_demo)
  = CalcSummary 1
      [{| cm_home_team := "Brighton"; cm_away_team := "Burnley";
          cm_score := (1, 1); cm_result := "draw" |}].
Proof. reflexivity. Qed.

Lemma calcLoop_invariant_result (P : DB -> Prop) (env : CalcEnv)
    (cands : list Match) :
  (forall c db hs aw k,
     In c cands -> HomeScore c = Some hs -> AwayScore c = Some aw -> P db ->
     P (settlement db (APIID c) (computeResult hs aw))
     /\ P (marked (mark_time env k)
             (settlement db (APIID c) (computeResult hs aw)) (APIID c)
             (computeResult hs aw))) ->
  forall i st, P (fst (fst st)) -> P (fst (fst (calcLoop env i cands st))).
Proof.
  induction cands as [|c cands IH]; intros Hstep i st HP; cbn [calcLoop];
    [exact HP|].
  apply IH.
  - intros c' db hs aw k Hc'. apply Hstep. right. exact Hc'.
  - destruct st as [[db n] l]. simpl in HP.
    destruct (calcStep_cases_result env i c db n l)
      as [H|[hs [aw [Hh [Ha [H|H]]]]]]; rewrite H; simpl.
    + exact HP.
    + apply (Hstep c db hs aw 0%nat); [left; reflexivity| | |]; assumption.
    + apply (Hstep c db hs aw i); [left; reflexivity| | |]; assumption.
Qed.

Lemma sameFacts_refl (r : Match) : sameFacts r r.
Proof. unfold sameFacts. repeat split. Qed.

Lemma sameFacts_marked (t : Time) (result : string) (m r : Match) :
  sameFacts m r -> sameFacts m (markCalculated t result r).
Proof. intros H. exact H. Qed.

Lemma keptOrSettled_sameFacts (env : CalcEnv) (m m' : Match) :
  keptOrSettled env m m' -> sameFacts m m'.
Proof.
  intros [->|[_ [_ [hs [aw [res [_ [_ [_ [_ [_ [H _]]]]]]]]]]]];
    [apply sameFacts_refl|exact H].
Qed.

(** X15.  What a settlement run writes to the match table, with unique
    fixture ids and whatever fails: every row is left as it was or is
    marked calculated.  A row is marked only if it was completed, not
    calculated and had both scores, neither of them -1; its result is then
    "home", "away" or "draw" as its own home score is above, below or equal
    to its away score, its time stamp is the one of a follow-up write, and
    its other columns are as they were. *)
Theorem calc_settles_candidates_only (admin : bool) (env : CalcEnv) (db : DB) :
  uniqueIDs db ->
  forall i m, nth_error (epl_matches db) i = Some m ->
    exists m',
      nth_error (epl_matches (snd (calcHandler admin env db))) i = Some m'
      /\ (m' = m
          \/ (Completed m = true /\ Calculated m = false
              /\ exists hs aw result,
                   HomeScore m = Some hs /\ AwayScore m = Some aw
                   /\ hs <> -1 /\ aw <> -1
                   /\ ((hs > aw /\ result = "home")
                       \/ (hs < aw /\ result = "away")
                       \/ (hs = aw /\ result = "draw"))
                   /\ (ID m' = ID m /\ APIID m' = APIID m
                       /\ HomeTeam m' = HomeTeam m
                       /\ AwayTeam m' = AwayTeam m
                       /\ CommenceTime m' = CommenceTime m
                       /\ HomeOdds m' = HomeOdds m
                       /\ DrawOdds m' = DrawOdds m
                       /\ AwayOdds m' = AwayOdds m
                       /\ Completed m' = Completed m
                       /\ HomeScore m' = HomeScore m
                       /\ AwayScore m' = AwayScore m)
                   /\ Calculated m' = true /\ Result m' = Some result
                   /\ exists k, UpdatedAt m' = mark_time env k)).
Proof.
  intros Hu i m Hi.
  set (P := fun d : DB =>
              exists m', nth_error (epl_matches d) i = Some m'
                         /\ keptOrSettled env m m').
  assert (H0 : P db) by (exists m; split; [exact Hi|left; reflexivity]).
  assert (H : P (snd (calcHandler admin env db))).
  { unfold calcHandler. destruct admin; simpl; [|exact H0].
    unfold GetCompletedUncalculatedMatches.
    destruct (select_fails env); simpl; [exact H0|].
    pose proof (calcLoop_invariant_result P env
                  (filter completedUncalculated (epl_matches db))) as Hinv.
    assert (Hstep : forall c d hs aw k,
               In c (filter completedUncalculated (epl_matches db)) ->
               HomeScore c = Some hs -> AwayScore c = Some aw -> P d ->
               P (settlement d (APIID c) (computeResult hs aw))
               /\ P (marked (mark_time env k)
                       (settlement d (APIID c) (computeResult hs aw))
                       (APIID c) (computeResult hs aw))).
    { intros c d hs aw k Hc Hh Ha [m1 [Hi1 Hk]]. split; [exists m1; auto|].
      apply filter_In in Hc. destruct Hc as [Hc Hcu].
      exists (if hasAPIID (APIID c) m1
              then markCalculated (mark_time env k) (computeResult hs aw) m1
              else m1).
      split.
      - simpl.
        apply (nth_error_map_some
                 (fun r => if hasAPIID (APIID c) r
                           then markCalculated (mark_time env k)
                                  (computeResult hs aw) r
                           else r)).
        exact Hi1.
      - destruct (hasAPIID (APIID c) m1) eqn:Hid; [|exact Hk].
        pose proof (keptOrSettled_sameFacts env m m1 Hk) as Hsame.
        assert (Hm : APIID m = APIID c).
        { apply hasAPIID_true in Hid.
          destruct Hsame as [_ [Hsid _]]. congruence. }
        assert (m = c).
        { apply (NoDup_map_eq APIID (epl_matches db)); try assumption.
          apply nth_error_In in Hi. exact Hi. }
        subst c. apply completedUncalculated_true in Hcu.
        destruct Hcu as [Hco [Hca [[hs' [Hhs Hhn]] [aw' [Haw Han]]]]].
        right. split; [exact Hco|]. split; [exact Hca|].
        exists hs, aw, (computeResult hs aw).
        split; [exact Hh|]. split; [exact Ha|].
        split; [congruence|]. split; [congruence|].
        split; [apply computeResult_resultOf|].
        split; [apply sameFacts_marked; exact Hsame|].
        split; [reflexivity|]. split; [reflexivity|].
        exists k. reflexivity. }
    specialize (Hinv Hstep 0%nat (db, 0, []) H0).
    destruct (calcLoop env 0 _ (db, 0, [])) as [[d n] l]. exact Hinv. }
  destruct H as [m' [Hi' Hk]]. exists m'. split; [exact Hi'|exact Hk].
Qed.

Lemma calc_settles_candidates_only_witness :
  exists m',
    nth_error (epl_matches (snd (calcHandler true noCalcFaults twoMatchDB_demo))) 0
    = Some m'
    /\ Calculated m' = true /\ Result m' = Some "home"
    /\ HomeScore m' = Some 2 /\ AwayScore m' = Some 1.
Proof.
  destruct (calc_settles_candidates_only true noCalcFaults twoMatchDB_demo)
    with (i := 0%nat) (m := storedMatch_demo) as [m' [Hi Hk]].
  - unfold uniqueIDs. simpl. constructor.
    + intros [H|[]]. discriminate H.
    + constructor; [intros []|constructor].
  - reflexivity.
  - exists m'. split; [exact Hi|].
    injection Hi as <-. repeat split.
Defined.

(** ** Odds extraction *)

Lemma extractOdds_quoted (shared : bool) (event : OddsAPIEvent) :
  extractOdds shared event
  = let '(h, d, a) :=
      oddsLoop (oe_HomeTeam event) (oe_AwayTeam event) (quotedOutcomes event)
               (None, None, None) in
    if shared then
      (alias_to (lastPrice (quotedOutcomes event)) h,
       alias_to (lastPrice (quotedOutcomes event)) d,
       alias_to (lastPrice (quotedOutcomes event)) a)
    else (h, d, a).
Proof.
  unfold extractOdds, quotedOutcomes.
  destruct (Bookmakers event) as [|b bs]; [destruct shared; reflexivity|].
  destruct (Markets b) as [|mk mks]; [destruct shared; reflexivity|].
  reflexivity.
Qed.

Lemma find_snoc {A : Type} (p : A -> bool) (l : list A) (x : A) :
  find p (l ++ [x])%list
  = match find p l with
    | Some y => Some y
    | None => if p x then Some x else None
    end.
Proof.
  induction l as [|y l IH]; simpl; [reflexivity|].
  destruct (p y); [reflexivity|exact IH].
Qed.

Lemma lastQuote_cons (p : Outcome -> bool) (o : Outcome) (l : list Outcome)
    (cur : option Z) :
  match lastQuote p (o :: l) with Some v => Some v | None => cur end
  = match lastQuote p l with
    | Some v => Some v
    | None => if p o then Some (Price o) else cur
    end.
Proof.
  unfold lastQuote. simpl. rewrite find_snoc.
  destruct (find p (rev l)); simpl; [reflexivity|].
  destruct (p o); reflexivity.
Qed.

(** The loop, one pointer at a time: the last outcome that takes the
    branch sets it. *)
Lemma oddsLoop_last (event : OddsAPIEvent) (outcomes : list Outcome) :
  forall h d a,
    oddsLoop (oe_HomeTeam event) (oe_AwayTeam event) outcomes (h, d, a)
    = (match lastQuote (quotesHome event) outcomes with
       | Some v => Some v | None => h end,
       match lastQuote (quotesDraw event) outcomes with
       | Some v => Some v | None => d end,
       match lastQuote (quotesAway event) outcomes with
       | Some v => Some v | None => a end).
Proof.
  induction outcomes as [|o l IH]; intros h d a; [reflexivity|].
  rewrite !lastQuote_cons. cbn [oddsLoop].
  unfold quotesHome, quotesAway, quotesDraw.
  destruct (Name o =? oe_HomeTeam event)%string; simpl; [apply IH|].
  destruct (Name o =? oe_AwayTeam event)%string; simpl; [apply IH|].
  destruct (Name o =? "Draw")%string; simpl; apply IH.
Qed.

Lemma lastQuote_present (p : Outcome -> bool) (l : list Outcome) :
  notNull (lastQuote p l) = existsb p l.
Proof.
  unfold lastQuote. destruct (find p (rev l)) as [o|] eqn:Hf; simpl.
  - symmetry. apply existsb_exists. apply find_some in Hf.
    exists o. split; [apply in_rev; apply Hf|apply Hf].
  - symmetry. destruct (existsb p l) eqn:He; [|reflexivity].
    apply existsb_exists in He. destruct He as [o [Hin Hp]].
    rewrite (find_none _ _ Hf o) in Hp; [discriminate|].
    apply in_rev in Hin. exact Hin.
Qed.

Lemma alias_to_present (last p : option Z) :
  notNull (alias_to last p) = notNull p.
Proof. destruct p, last; reflexivity. Qed.

(** X16.  Which odds a feed record yields, under either loop-variable
    semantics.  Only the first market of the first bookmaker is read; home
    odds are present exactly when it quotes the home team's name, away odds
    when it quotes the away team's name and that name is not the home
    team's, draw odds when it quotes "Draw" and no team bears that name.
    Without such a market the three are absent. *)
Theorem odds_presence (shared : bool) (event : OddsAPIEvent) :
  let fact := processOddsEvent shared event in
  notNull (HomeOdds fact) = existsb (quotesHome event) (quotedOutcomes event)
  /\ notNull (AwayOdds fact) = existsb (quotesAway event) (quotedOutcomes event)
  /\ notNull (DrawOdds fact) = existsb (quotesDraw event) (quotedOutcomes event)
  /\ (quotedOutcomes event = [] ->
      HomeOdds fact = None /\ DrawOdds fact = None /\ AwayOdds fact = None).
Proof.
  unfold processOddsEvent. rewrite extractOdds_quoted, oddsLoop_last.
  destruct shared; simpl; rewrite ?alias_to_present;
    (split; [|split; [|split]];
     [ rewrite <- lastQuote_present; destruct (lastQuote _ _); reflexivity
     | rewrite <- lastQuote_present; destruct (lastQuote _ _); reflexivity
     | rewrite <- lastQuote_present; destruct (lastQuote _ _); reflexivity
     | intros Hq; rewrite Hq; repeat split ]).
Qed.

Lemma odds_presence_witness :
  HomeOdds (processOddsEvent false secondBookmaker_demo) = None
  /\ DrawOdds (processOddsEvent false secondBookmaker_demo) = None
  /\ AwayOdds (processOddsEvent false secondBookmaker_demo) = None.
Proof.
  exact (proj2 (proj2 (proj2 (odds_presence false secondBookmaker_demo)))
           eq_refl).
Defined.

(** X17.  With a loop variable per iteration, each of the three odds is the
    price of the last outcome of the market that takes its branch: a later
    quote for the same name replaces an earlier one, and outcomes with
    other names change nothing. *)
Theorem odds_last_quote_wins (event : OddsAPIEvent) :
  let fact := processOddsEvent false event in
  HomeOdds fact = lastQuote (quotesHome event) (quotedOutcomes event)
  /\ DrawOdds fact = lastQuote (quotesDraw event) (quotedOutcomes event)
  /\ AwayOdds fact = lastQuote (quotesAway event) (quotedOutcomes event).
Proof.
  unfold processOddsEvent. rewrite extractOdds_quoted, oddsLoop_last. simpl.
  repeat split; destruct (lastQuote _ _); reflexivity.
Qed.

(** * Helpers of the handlers *)

(** ** [maskToken] *)

Lemma length_append (s1 s2 : string) :
  String.length (s1 ++ s2)%string = (String.length s1 + String.length s2)%nat.
Proof. induction s1 as [|c s1 IH]; simpl; [reflexivity|]. rewrite IH. reflexivity. Qed.

Lemma length_substring (s : string) :
  forall n m, (n + m <= String.length s)%nat ->
              String.length (substring n m s) = m.
Proof.
  induction s as [|c s IH]; intros n m H; simpl in *.
  - destruct n, m; simpl; try reflexivity; lia.
  - destruct n as [|n].
    + destruct m as [|m]; simpl; [reflexivity|]. rewrite IH; [reflexivity|lia].
    + apply IH. lia.
Qed.

Lemma length_Repeat_star (k : nat) : String.length (Repeat "*" k) = k.
Proof. induction k as [|k IH]; simpl; [reflexivity|]. rewrite IH. reflexivity. Qed.

Lemma get_Repeat_star (k i : nat) :
  (i < k)%nat -> String.get i (Repeat "*" k) = Some "*"%char.
Proof.
  revert i. induction k as [|k IH]; intros i H; [lia|].
  simpl. destruct i as [|i]; [reflexivity|]. apply IH. lia.
Qed.

(** X18.  A masked token is as long as the token; of a token of at most
    eight bytes it shows nothing; of a longer one it shows the first four
    and the last four bytes and replaces every byte between by a star. *)
Theorem maskToken_hides (token : string) :
  String.length (maskToken token) = String.length token
  /\ forall i, (i < String.length token)%nat ->
       String.get i (maskToken token)
       = if (8 <? String.length token)%nat
            && ((i <? 4)%nat || (String.length token - 4 <=? i)%nat)
         then String.get i token
         else Some "*"%char.
Proof.
  unfold maskToken. set (n := String.length token).
  destruct (Nat.leb_spec n 8) as [Hle|Hgt].
  - split; [apply length_Repeat_star|]. intros i Hi.
    destruct (Nat.ltb_spec 8 n); [lia|]. simpl. apply get_Repeat_star. exact Hi.
  - assert (HA : String.length (substring 0 4 token) = 4%nat)
      by (apply length_substring; fold n; lia).
    assert (HC : String.length (substring (n - 4) 4 token) = 4%nat)
      by (apply length_substring; fold n; lia).
    split.
    + rewrite !length_append, HA, HC, length_Repeat_star. lia.
    + intros i Hi. destruct (Nat.ltb_spec 8 n); [|lia]. simpl.
      destruct (Nat.ltb_spec i 4) as [Hi4|Hi4]; simpl.
      * rewrite <- append_correct1 by (rewrite HA; exact Hi4).
        rewrite substring_correct1 by exact Hi4. f_equal. lia.
      * replace i with ((i - 4) + String.length (substring 0 4 token))%nat at 1
          by (rewrite HA; lia).
        rewrite <- append_correct2.
        destruct (Nat.leb_spec (n - 4) i) as [Hend|Hmid].
        -- replace (i - 4)%nat
             with ((i - (n - 4)) + String.length (Repeat "*" (n - 8)))%nat
             by (rewrite length_Repeat_star; lia).
           rewrite <- append_correct2.
           rewrite substring_correct1 by lia. f_equal. lia.
        -- rewrite <- append_correct1 by (rewrite length_Repeat_star; lia).
           apply get_Repeat_star. lia.
Qed.

Example maskToken_demo :
  (maskToken "12345678", maskToken "1234567890abcdef")
  = ("********", "1234********cdef").
Proof. reflexivity. Qed.

Lemma maskToken_hides_witness :
  String.get 5 (maskToken "1234567890abcdef") = Some "*"%char.
Proof.
  exact (proj2 (maskToken_hides "1234567890abcdef") 5%nat
           ltac:(simpl; lia)).
Defined.

(** ** [formatUptime] *)

(** X19.  The uptime shown: the two largest units that apply, the first of
    them at least 1, the shown value never above the uptime and below it by
    less than one of the smaller unit shown.  Below a minute only seconds
    are shown; for a negative input that is the remainder of the division
    by 60, whatever the hours and days. *)
Theorem formatUptime_shows (seconds : Z) :
  (86400 <= seconds ->
   exists d h,
     formatUptime seconds = (Itoa d ++ "d " ++ Itoa h ++ "h")%string
     /\ 1 <= d /\ 0 <= h < 24
     /\ 0 <= seconds - (d * 86400 + h * 3600) < 3600)
  /\ (3600 <= seconds < 86400 ->
      exists h m,
        formatUptime seconds = (Itoa h ++ "h " ++ Itoa m ++ "m")%string
        /\ 1 <= h < 24 /\ 0 <= m < 60
        /\ 0 <= seconds - (h * 3600 + m * 60) < 60)
  /\ (60 <= seconds < 3600 ->
      exists m c,
        formatUptime seconds = (Itoa m ++ "m " ++ Itoa c ++ "s")%string
        /\ 1 <= m < 60 /\ 0 <= c < 60 /\ seconds = m * 60 + c)
  /\ (seconds < 60 ->
      exists c,
        formatUptime seconds = (Itoa c ++ "s")%string
        /\ -60 < c < 60 /\ (0 <= seconds -> c = seconds)
        /\ (seconds < 0 -> c <= 0 /\ (seconds - c) mod 60 = 0)).
Proof.
  unfold formatUptime.
  set (days := Z.quot seconds 86400).
  set (hours := Z.quot (Z.rem seconds 86400) 3600).
  set (minutes := Z.quot (Z.rem seconds 3600) 60).
  set (secs := Z.rem seconds 60).
  split; [|split; [|split]]; intros H.
  - exists days, hours.
    assert (Hd : days > 0) by (unfold days; Z.to_euclidean_division_equations; lia).
    rewrite (proj2 (Z.gtb_gt _ _)) by lia. split; [reflexivity|].
    unfold days, hours in *. Z.to_euclidean_division_equations. lia.
  - exists hours, minutes.
    assert (Hd : ~ days > 0) by (unfold days; Z.to_euclidean_division_equations; lia).
    assert (Hh : hours > 0) by (unfold hours; Z.to_euclidean_division_equations; lia).
    destruct (Z.gtb_spec days 0); [lia|].
    rewrite (proj2 (Z.gtb_gt _ _)) by lia. split; [reflexivity|].
    unfold hours, minutes in *. Z.to_euclidean_division_equations. lia.
  - exists minutes, secs.
    assert (Hd : ~ days > 0) by (unfold days; Z.to_euclidean_division_equations; lia).
    assert (Hh : ~ hours > 0) by (unfold hours; Z.to_euclidean_division_equations; lia).
    assert (Hm : minutes > 0) by (unfold minutes; Z.to_euclidean_division_equations; lia).
    destruct (Z.gtb_spec days 0); [lia|].
    destruct (Z.gtb_spec hours 0); [lia|].
    rewrite (proj2 (Z.gtb_gt _ _)) by lia. split; [reflexivity|].
    unfold minutes, secs in *. Z.to_euclidean_division_equations. lia.
  - exists secs.
    assert (Hd : ~ days > 0) by (unfold days; Z.to_euclidean_division_equations; lia).
    assert (Hh : ~ hours > 0) by (unfold hours; Z.to_euclidean_division_equations; lia).
    assert (Hm : ~ minutes > 0) by (unfold minutes; Z.to_euclidean_division_equations; lia).
    destruct (Z.gtb_spec days 0); [lia|].
    destruct (Z.gtb_spec hours 0); [lia|].
    destruct (Z.gtb_spec minutes 0); [lia|].
    split; [reflexivity|].
    unfold secs in *. Z.to_euclidean_division_equations. lia.
Qed.

Lemma formatUptime_shows_witness :
  exists d h,
    formatUptime 93784 = (Itoa d ++ "d " ++ Itoa h ++ "h")%string
    /\ 1 <= d /\ 0 <= h < 24
    /\ 0 <= 93784 - (d * 86400 + h * 3600) < 3600.
Proof.
  apply (proj1 (formatUptime_shows 93784)). lia.
Defined.

Example formatUptime_demo :
  (formatUptime 93784, formatUptime 3725, formatUptime 59, formatUptime (-3700))
  = ("1d 2h", "1h 2m", "59s", "-40s").
Proof. reflexivity. Qed.

(** ** The players page *)

Lemma Atoi_range (s : string) (v : Z) :
  Atoi s = Some v -> int_min <= v <= int_max.
Proof.
  unfold Atoi. destruct s as [|c rest]; [discriminate|].
  destruct (if (Ascii.eqb c "-" || Ascii.eqb c "+")%bool then rest
            else String c rest) as [|c' body']; [discriminate|].
  destruct (digits _ 0) as [n|]; [|discriminate].
  destruct ((int_min <=? _) && (_ <=? int_max)) eqn:Hr; [|discriminate].
  intros H. injection H as <-. apply andb_true_iff in Hr.
  destruct Hr as [H1 H2]. apply Z.leb_le in H1, H2. lia.
Qed.

Lemma parseLimit_bounds (DefaultPlayerLimit MaxPlayerLimit : Z) (p : string) :
  parseLimit DefaultPlayerLimit MaxPlayerLimit p = DefaultPlayerLimit
  \/ 1 <= parseLimit DefaultPlayerLimit MaxPlayerLimit p <= MaxPlayerLimit.
Proof.
  unfold parseLimit. destruct (negb _); [|left; reflexivity].
  destruct (Atoi p) as [v|]; [|left; reflexivity].
  destruct (Z.gtb_spec v 0); simpl; [|left; reflexivity].
  destruct (Z.leb_spec v MaxPlayerLimit); [right; lia|left; reflexivity].
Qed.

Lemma parseOffset_bounds (p : string) : 0 <= parseOffset p <= int_max.
Proof.
  assert (H0 : 0 <= int_max) by (unfold int_max; lia).
  unfold parseOffset.
  destruct (negb _); [|lia].
  destruct (Atoi p) as [v|] eqn:Ha; [|lia].
  apply Atoi_range in Ha.
  destruct (Z.geb_spec v 0); lia.
Qed.

(** X20.  The page of players: the store is asked for the page that the
    answer describes; the offset is never negative; the page size is the
    configured default or lies between 1 and the configured maximum, so
    with a default in that range no request obtains a larger page; and
    "has more" compares offset plus limit with the total as long as the sum
    fits an [int], while a sum beyond it wraps around and always reports
    more. *)
Theorem players_page_bounds {P : Type} (DefaultPlayerLimit MaxPlayerLimit : Z)
    (limitParam offsetParam : string)
    (GetPlayers : Z -> Z -> Res (list P)) (GetTotalPlayers : Res Z)
    (players : list P) (pg : PaginationInfo) :
  getPlayersHandler DefaultPlayerLimit MaxPlayerLimit limitParam offsetParam
    GetPlayers GetTotalPlayers = PlayersOK players pg ->
  GetPlayers (pg_Limit pg) (pg_Offset pg) = Ok players
  /\ GetTotalPlayers = Ok (pg_Total pg)
  /\ 0 <= pg_Offset pg <= int_max
  /\ (pg_Limit pg = DefaultPlayerLimit \/ 1 <= pg_Limit pg <= MaxPlayerLimit)
  /\ (1 <= DefaultPlayerLimit <= MaxPlayerLimit ->
      1 <= pg_Limit pg <= MaxPlayerLimit)
  /\ (int_min <= pg_Offset pg + pg_Limit pg <= int_max ->
      pg_HasMore pg = (pg_Offset pg + pg_Limit pg <? pg_Total pg))
  /\ (int_max < pg_Offset pg + pg_Limit pg -> pg_Limit pg <= int_max ->
      0 <= pg_Total pg -> pg_HasMore pg = true).
Proof.
  unfold getPlayersHandler.
  set (limit := parseLimit DefaultPlayerLimit MaxPlayerLimit limitParam).
  set (offset := parseOffset offsetParam).
  destruct (GetPlayers limit offset) as [ps|e] eqn:Hp; [|discriminate].
  destruct GetTotalPlayers as [total|e]; [|discriminate].
  intros H. injection H as <- <-. simpl.
  pose proof (parseOffset_bounds offsetParam) as Ho. fold offset in Ho.
  pose proof (parseLimit_bounds DefaultPlayerLimit MaxPlayerLimit limitParam)
    as Hl. fold limit in Hl.
  split; [exact Hp|]. split; [reflexivity|]. split; [exact Ho|].
  split; [exact Hl|]. split; [intros Hd; destruct Hl; lia|]. split.
  - intros Hfit. f_equal. unfold wrap64, int_min, int_max in *.
    rewrite Z.mod_small by lia. lia.
  - intros Hbig Hlim Htot. apply Z.ltb_lt.
    unfold wrap64, int_min, int_max in *.
    assert (Hw : (offset + limit + 2 ^ 63) mod 2 ^ 64
                 = offset + limit + 2 ^ 63 - 2 ^ 64).
    { symmetry. apply Z.mod_unique with (q := 1); lia. }
    rewrite Hw. lia.
Qed.

Lemma players_page_bounds_witness :
  exists pg,
    getPlayersHandler (P := string) 50 100 "1000" "9223372036854775807"
      (fun _ _ => Ok []) (Ok 3)
    = PlayersOK [] pg
    /\ pg_Limit pg = 50 /\ pg_HasMore pg = true.
Proof.
  eexists. split; [reflexivity|]. split; [reflexivity|].
  refine (proj2 (proj2 (proj2 (proj2 (proj2 (proj2
            (players_page_bounds (P := string) 50 100 "1000"
               "9223372036854775807" (fun _ _ => Ok []) (Ok 3) [] _
               eq_refl)))))) _ _ _).
  - vm_compute. reflexivity.
  - vm_compute. discriminate.
  - vm_compute. discriminate.
Defined.

(** ** The matches on offer *)

Lemma insertByTime_perm (m : Match) (l : list Match) :
  Permutation (m :: l) (insertByTime m l).
Proof.
  induction l as [|x l IH]; simpl; [apply Permutation_refl|].
  destruct (CommenceTime m <=? CommenceTime x); [apply Permutation_refl|].
  apply (perm_trans (perm_swap x m l)). apply perm_skip. exact IH.
Qed.

Lemma orderByCommenceTime_perm (l : list Match) :
  Permutation l (orderByCommenceTime l).
Proof.
  induction l as [|m l IH]; simpl; [apply perm_nil|].
  apply (perm_trans (perm_skip m IH)). apply insertByTime_perm.
Qed.

Lemma insertByTime_sorted (m : Match) (l : list Match) :
  StronglySorted earlier l -> StronglySorted earlier (insertByTime m l).
Proof.
  induction l as [|x l IH]; intros Hs; simpl.
  - constructor; [constructor|constructor].
  - inversion Hs as [|? ? Hs' Hall]; subst.
    destruct (Z.leb_spec (CommenceTime m) (CommenceTime x)) as [Hle|Hgt].
    + constructor; [exact Hs|]. constructor; [exact Hle|].
      apply Forall_forall. intros y Hy.
      assert (Hxy : earlier x y) by exact (proj1 (Forall_forall _ _) Hall y Hy).
      unfold earlier in *. lia.
    + constructor; [apply IH; exact Hs'|].
      apply Forall_forall. intros y Hy.
      apply (Permutation_in y (Permutation_sym (insertByTime_perm m l))) in Hy.
      destruct Hy as [<-|Hy]; [unfold earlier; lia|].
      exact (proj1 (Forall_forall _ _) Hall y Hy).
Qed.

Lemma orderByCommenceTime_sorted (l : list Match) :
  StronglySorted earlier (orderByCommenceTime l).
Proof.
  induction l as [|m l IH]; simpl; [constructor|].
  apply insertByTime_sorted. exact IH.
Qed.

Lemma nonZero_true (o : option Z) :
  nonZero o = true <-> exists v, o = Some v /\ v <> 0.
Proof.
  destruct o as [v|]; simpl; split.
  - intros H. exists v. split; [reflexivity|].
    destruct (Z.eqb_spec v 0); [discriminate|assumption].
  - intros [w [Hw Hne]]. injection Hw as <-.
    destruct (Z.eqb_spec v 0); [contradiction|reflexivity].
  - discriminate.
  - intros [w [Hw _]]. discriminate.
Qed.

Lemma onOffer_true (now : Time) (m : Match) :
  onOffer now m = true <->
  (exists h, HomeOdds m = Some h /\ h <> 0)
  /\ (exists d, DrawOdds m = Some d /\ d <> 0)
  /\ (exists a, AwayOdds m = Some a /\ a <> 0)
  /\ now < CommenceTime m.
Proof.
  unfold onOffer. rewrite !andb_true_iff, !nonZero_true, !notNull_true, Z.gtb_lt.
  split.
  - intros [[[[[[_ _] _] Hh] Hd] Ha] Ht]. repeat split; assumption.
  - intros [[h [Hh Hhn]] [[d [Hd Hdn]] [[a [Ha Han]] Ht]]].
    repeat split; eauto.
Qed.

(** X21.  The matches on offer are exactly the stored matches whose three
    odds are present and not zero and whose kick-off lies in the future,
    each once for each of its rows, by ascending kick-off.  A match that
    the scores sync created without odds is not offered; whether a match is
    completed or calculated plays no part. *)
Theorem matches_on_offer (now : Time) (db : DB) :
  exists matches,
    GetMatches false now db = Ok matches
    /\ getMatchesHandler false now db = MatchesOK (map toDisplay matches)
    /\ Permutation (filter (onOffer now) (epl_matches db)) matches
    /\ StronglySorted earlier matches
    /\ (forall m, In m matches <->
          In m (epl_matches db)
          /\ (exists h, HomeOdds m = Some h /\ h <> 0)
          /\ (exists d, DrawOdds m = Some d /\ d <> 0)
          /\ (exists a, AwayOdds m = Some a /\ a <> 0)
          /\ now < CommenceTime m)
    /\ (forall md, In md (map toDisplay matches) ->
          md_HomeOdds md <> None /\ md_DrawOdds md <> None
          /\ md_AwayOdds md <> None /\ now < md_CommenceTime md
          /\ exists m, In m (epl_matches db) /\ md_ID md = APIID m).
Proof.
  exists (orderByCommenceTime (filter (onOffer now) (epl_matches db))).
  assert (Hperm := orderByCommenceTime_perm (filter (onOffer now) (epl_matches db))).
  assert (Hmem : forall m,
             In m (orderByCommenceTime (filter (onOffer now) (epl_matches db)))
             <-> In m (epl_matches db) /\ onOffer now m = true).
  { intros m. rewrite <- filter_In. split; intros H.
    - apply (Permutation_in m (Permutation_sym Hperm)). exact H.
    - apply (Permutation_in m Hperm). exact H. }
  split; [reflexivity|]. split; [reflexivity|]. split; [exact Hperm|].
  split; [apply orderByCommenceTime_sorted|]. split.
  - intros m. rewrite Hmem, onOffer_true. tauto.
  - intros md Hmd. apply in_map_iff in Hmd. destruct Hmd as [m [<- Hin]].
    apply Hmem in Hin. destruct Hin as [Hin Hoff].
    apply onOffer_true in Hoff.
    destruct Hoff as [[h [Hh _]] [[d [Hd _]] [[a [Ha _]] Ht]]].
    simpl. rewrite Hh, Hd, Ha. repeat split; try discriminate; try exact Ht.
    exists m. split; [exact Hin|reflexivity].
Qed.

Lemma matches_on_offer_witness :
  exists matches,
    getMatchesHandler false 1600000000
      {| epl_matches := [settledMatch_demo; scoreless_demo; storedMatch_demo];
         bets := []; users := [] |}
    = MatchesOK (map toDisplay matches)
    /\ StronglySorted earlier matches.
Proof.
  destruct (matches_on_offer 1600000000
              {| epl_matches :=
                   [settledMatch_demo; scoreless_demo; storedMatch_demo];
                 bets := []; users := [] |})
    as [matches [_ [Hreply [_ [Hsorted _]]]]].
  exists matches. split; [exact Hreply|exact Hsorted].
Defined.

Example matches_on_offer_demo :
  getMatchesHandler false 1600000000
    {| epl_matches := [settledMatch_demo; scoreless_demo; storedMatch_demo];
       bets := []; users := [] |}
  = MatchesOK [toDisplay storedMatch_demo; toDisplay settledMatch_demo].
Proof. reflexivity. Qed.

(** ** Placing a wager *)

Lemma find_hasUserID (userID : string) (us : list User) (u : User) :
  find (hasUserID userID) us = Some u -> In u us /\ id u = userID.
Proof.
  intros H. apply find_some in H. destruct H as [Hin Hid].
  split; [exact Hin|]. apply String.eqb_eq. exact Hid.
Qed.

Lemma find_hasUserID_existsb (userID : string) (us : list User) (u : User) :
  find (hasUserID userID) us = Some u ->
  existsb (hasUserID (id u)) us = true.
Proof.
  intros H. apply find_some in H. destruct H as [Hin Hid].
  apply existsb_exists. exists u. split; [exact Hin|].
  unfold hasUserID. apply String.eqb_refl.
Qed.

Lemma betType_valid (t : string) :
  negb (t =? "home")%string && negb (t =? "draw")%string
  && negb (t =? "away")%string = false ->
  t = "home" \/ t = "draw" \/ t = "away".
Proof.
  destruct (String.eqb_spec t "home") as [->|_]; [intros _; left; reflexivity|].
  destruct (String.eqb_spec t "draw") as [->|_];
    [intros _; right; left; reflexivity|].
  destruct (String.eqb_spec t "away") as [->|_];
    [intros _; right; right; reflexivity|].
  discriminate.
Qed.

(** The handler ends in one of three ways: it refuses and leaves the store
    as it was; it stores the wager and then fails to write the balance; or
    it stores the wager and the balance. *)
Lemma placeBetHandler_cases (fl : Float64)
    (validateAccessToken : string -> Res string) (env : PlaceEnv)
    (now : Time) (authHeader : string) (body : option (PlaceBetRequest fl))
    (db : DB) :
  (exists code msg,
      placeBetHandler fl validateAccessToken env now authHeader body db
      = (BetError code msg, db)
      /\ msg <> "Failed to update balance")
  \/ (exists user match_ req b,
        accepts fl validateAccessToken (new_bet_id env) now authHeader body db
          user match_ req b
        /\ user_fails env = false /\ match_fails env = false
        /\ place_fails env = false
        /\ let newBalance :=
             f_sub fl (f_scanMoney fl (money user)) (req_BetAmount req) in
           ((money_fails env = true \/ f_storeMoney fl newBalance = None)
            /\ placeBetHandler fl validateAccessToken env now authHeader body db
               = (BetError 500 "Failed to update balance",
                  withBets db (bets db ++ [b])%list))
           \/ (exists v,
                 money_fails env = false
                 /\ f_storeMoney fl newBalance = Some v
                 /\ placeBetHandler fl validateAccessToken env now authHeader
                      body db
                    = (BetOK {| info_ID := new_bet_id env;
                                info_Amount := req_BetAmount req;
                                info_Odds := req_Odds req;
                                info_PotentialWin :=
                                  f_mul fl (req_BetAmount req) (req_Odds req);
                                info_NewBalance := newBalance |},
                       withUsers (withBets db (bets db ++ [b])%list)
                         (map (setMoney (id user) v) (users db))))).
Proof.
  unfold placeBetHandler.
  destruct ((authHeader =? "")%string || negb (String.prefix "Bearer " authHeader));
    [left; eexists; eexists; split; [reflexivity|discriminate]|].
  destruct (validateAccessToken (TrimPrefix authHeader "Bearer ")) as [uid|e] eqn:Hval;
    [|left; eexists; eexists; split; [reflexivity|discriminate]].
  unfold GetUserByID.
  destruct (user_fails env) eqn:Huf;
    [left; eexists; eexists; split; [reflexivity|discriminate]|].
  destruct (find (hasUserID uid) (users db)) as [user|] eqn:Hfind;
    [|left; eexists; eexists; split; [reflexivity|discriminate]].
  destruct body as [req|];
    [|left; eexists; eexists; split; [reflexivity|discriminate]].
  cbv zeta.
  destruct (req_MatchID req =? "")%string;
    [left; eexists; eexists; split; [reflexivity|discriminate]|].
  destruct (req_BetType req =? "")%string;
    [left; eexists; eexists; split; [reflexivity|discriminate]|].
  destruct (f_leZero fl (req_BetAmount req)) eqn:Hamt;
    [left; eexists; eexists; split; [reflexivity|discriminate]|].
  destruct (f_leZero fl (req_Odds req)) eqn:Hodds;
    [left; eexists; eexists; split; [reflexivity|discriminate]|].
  cbn [orb].
  destruct (f_gt fl (req_BetAmount req) (f_scanMoney fl (money user))) eqn:Hgt;
    [left; eexists; eexists; split; [reflexivity|discriminate]|].
  destruct (negb (req_BetType req =? "home")%string
            && negb (req_BetType req =? "draw")%string
            && negb (req_BetType req =? "away")%string) eqn:Htype;
    [left; eexists; eexists; split; [reflexivity|discriminate]|].
  unfold GetMatchByID, GetMatchByAPIID.
  destruct (match_fails env) eqn:Hmf;
    [left; eexists; eexists; split; [reflexivity|discriminate]|].
  destruct (find (hasAPIID (req_MatchID req)) (epl_matches db)) as [m|] eqn:Hm;
    [|left; eexists; eexists; split; [reflexivity|discriminate]].
  destruct (Z.ltb_spec (CommenceTime m) now) as [Hlt|Hge];
    [left; eexists; eexists; split; [reflexivity|discriminate]|].
  unfold PlaceBet. cbn [b_UserID b_BetAmount b_Odds b_PotentialWin b_MatchID
                        b_BetType b_Status b_HomeTeam b_AwayTeam].
  destruct (place_fails env) eqn:Hpf;
    [left; eexists; eexists; split; [reflexivity|discriminate]|].
  rewrite (find_hasUserID_existsb _ _ _ Hfind). cbn [negb].
  destruct (f_storeMoney fl (req_BetAmount req)) as [amount|] eqn:Ha;
    [|left; eexists; eexists; split; [reflexivity|discriminate]].
  destruct (f_storeOdds fl (req_Odds req)) as [price|] eqn:Hp;
    [|left; eexists; eexists; split; [reflexivity|discriminate]].
  destruct (f_storeMoney fl (f_mul fl (req_BetAmount req) (req_Odds req)))
    as [win|] eqn:Hw;
    [|left; eexists; eexists; split; [reflexivity|discriminate]].
  destruct (find_hasUserID _ _ _ Hfind) as [Huin Huid].
  apply find_some in Hm. destruct Hm as [Hmin Hmid].
  apply String.eqb_eq in Hmid.
  right. exists user, m, req.
  eexists {| bet_id := new_bet_id env; user_id := id user;
            match_id := req_MatchID req; bet_type := req_BetType req;
            bet_amount := amount; odds := price; potential_win := win;
            status := "pending"; bet_home_team := req_HomeTeam req;
            bet_away_team := req_AwayTeam req |}.
  split.
  { unfold accepts. cbn [bet_amount odds potential_win].
    rewrite Huid.
    split; [exact Hval|]. split; [exact Huin|]. split; [reflexivity|].
    split; [exact Hmin|]. split; [exact Hmid|]. split; [lia|].
    split; [exact Hamt|]. split; [exact Hodds|]. split; [exact Hgt|].
    split; [exact (betType_valid _ Htype)|].
    split; [subst uid; reflexivity|].
    split; [exact Ha|]. split; [exact Hp|]. exact Hw. }
  split; [reflexivity|]. split; [reflexivity|]. split; [reflexivity|].
  cbv zeta. unfold UpdateUserMoney.
  destruct (money_fails env) eqn:Hmoney.
  - left. split; [left; reflexivity|reflexivity].
  - destruct (f_storeMoney fl
                (f_sub fl (f_scanMoney fl (money user)) (req_BetAmount req)))
      as [v|] eqn:Hv.
    + right. exists v. split; [reflexivity|]. split; [reflexivity|].
      reflexivity.
    + left. split; [right; reflexivity|reflexivity].
Qed.

(** X22.  A wager request either is refused and leaves the store as it was,
    or appends exactly one pending wager, whether the reply is then a
    success or the error of a failed balance write.  The wager is for the
    user of the access token, on a stored match whose kick-off is not before
    now, of type home, draw or away, and carries the amount and the odds of
    the request as the store converts them.  The balance is written only in
    the accepted case; the matches are never written. *)
Theorem place_bet_effects (fl : Float64)
    (validateAccessToken : string -> Res string) (env : PlaceEnv)
    (now : Time) (authHeader : string) (body : option (PlaceBetRequest fl))
    (db : DB) :
  let out :=
    placeBetHandler fl validateAccessToken env now authHeader body db in
  epl_matches (snd out) = epl_matches db
  /\ (forall code msg, fst out = BetError code msg ->
        users (snd out) = users db
        /\ (snd out = db
            \/ (code = 500 /\ msg = "Failed to update balance"
                /\ exists user match_ req b,
                     accepts fl validateAccessToken (new_bet_id env) now
                       authHeader body db user match_ req b
                     /\ bets (snd out) = (bets db ++ [b])%list
                     /\ status b = "pending" /\ user_id b = id user
                     /\ match_id b = APIID match_)))
  /\ (forall info, fst out = BetOK info ->
        exists user match_ req b v,
          accepts fl validateAccessToken (new_bet_id env) now authHeader body
            db user match_ req b
          /\ bets (snd out) = (bets db ++ [b])%list
          /\ status b = "pending" /\ user_id b = id user
          /\ match_id b = APIID match_
          /\ f_storeMoney fl
               (f_sub fl (f_scanMoney fl (money user)) (req_BetAmount req))
             = Some v
          /\ users (snd out) = map (setMoney (id user) v) (users db)
          /\ info_ID fl info = new_bet_id env).
Proof.
  cbv zeta.
  destruct (placeBetHandler_cases fl validateAccessToken env now authHeader
              body db)
    as [[code [msg [Heq Hmsg]]]
       |[user [m [req [b [Hacc [_ [_ [_ [[Hwhy Heq]|[v [Hmf [Hv Heq]]]]]]]]]]]]];
    rewrite Heq; cbn [fst snd].
  - split; [reflexivity|]. split.
    + intros c s _. split; [reflexivity|left; reflexivity].
    + intros info H. discriminate.
  - pose proof Hacc as Hacc'.
    destruct Hacc' as [_ [_ [_ [_ [Hmid [_ [_ [_ [_ [_ [Hb _]]]]]]]]]]].
    split; [reflexivity|]. split.
    + intros c s H. injection H as <- <-. split; [reflexivity|].
      right. split; [reflexivity|]. split; [reflexivity|].
      exists user, m, req, b. split; [exact Hacc|]. split; [reflexivity|].
      split; [rewrite Hb; reflexivity|].
      split; [rewrite Hb; reflexivity|].
      rewrite Hb, Hmid. reflexivity.
    + intros info H. discriminate.
  - pose proof Hacc as Hacc'.
    destruct Hacc' as [_ [_ [_ [_ [Hmid [_ [_ [_ [_ [_ [Hb _]]]]]]]]]]].
    split; [reflexivity|]. split.
    + intros c s H. discriminate.
    + intros info H. injection H as <-.
      exists user, m, req, b, v.
      split; [exact Hacc|]. split; [reflexivity|].
      split; [rewrite Hb; reflexivity|].
      split; [rewrite Hb; reflexivity|].
      split; [rewrite Hb, Hmid; reflexivity|].
      split; [exact Hv|]. split; [reflexivity|reflexivity].
Qed.

Lemma place_bet_effects_witness :
  let out :=
    placeBetHandler exactCents tokenOf_demo (withMoneyFault placeEnv_demo)
      1600000000 "Bearer alice-token" (Some placeRequest_demo) ledgerDB_demo in
  epl_matches (snd out) = epl_matches ledgerDB_demo
  /\ users (snd out) = users ledgerDB_demo
  /\ exists b,
       bets (snd out) = (bets ledgerDB_demo ++ [b])%list
       /\ status b = "pending" /\ user_id b = "u-alice"
       /\ match_id b = "fx-1".
Proof.
  intros out.
  destruct (place_bet_effects exactCents tokenOf_demo
              (withMoneyFault placeEnv_demo) 1600000000 "Bearer alice-token"
              (Some placeRequest_demo) ledgerDB_demo)
    as [Hm [Herr _]].
  split; [exact Hm|].
  destruct (Herr 500 "Failed to update balance" eq_refl) as [Hu Hcases].
  split; [exact Hu|].
  destruct Hcases as [Hsame|[_ [_ [user [m [req [b [Hacc [Hb [Hs [Hui Hmi]]]]]]]]]]].
  - discriminate Hsame.
  - exists b. split; [exact Hb|]. split; [exact Hs|].
    destruct Hacc as [Hval [_ [Hbody [_ [Hmid _]]]]].
    injection Hval as Hid. injection Hbody as <-.
    split; [rewrite Hui, <- Hid; reflexivity|].
    rewrite Hmi, Hmid. reflexivity.
Defined.

Example place_bet_demo :
  placeBetHandler exactCents tokenOf_demo placeEnv_demo 1600000000
    "Bearer alice-token" (Some placeRequest_demo) ledgerDB_demo
  = (BetOK (mkBetInfo exactCents "bet-new" (Qmake 3 1) (Qmake 5 2) (Qmake 15 2)
              (Qmake 700 100)),
     {| epl_matches := epl_matches ledgerDB_demo;
        bets := (bets ledgerDB_demo ++
                 [{| bet_id := "bet-new"; user_id := "u-alice";
                     match_id := "fx-1"; bet_type := "home";
                     bet_amount := 300; odds := 250; potential_win := 750;
                     status := "pending"; bet_home_team := "Arsenal";
                     bet_away_team := "Chelsea" |}])%list;
        users := [{| id := "u-alice"; money := 700 |}; bob_demo] |}).
Proof. reflexivity. Qed.

Ltac split_on c := destruct c eqn:?; try discriminate.

(** The run with a failing balance write follows the accepted run up to
    that write. *)
Lemma placeBetHandler_money_fault (fl : Float64)
    (validateAccessToken : string -> Res string) (env : PlaceEnv)
    (now : Time) (authHeader : string) (body : option (PlaceBetRequest fl))
    (db : DB) (info : BetInfo fl) (db1 : DB) :
  placeBetHandler fl validateAccessToken env now authHeader body db
  = (BetOK info, db1) ->
  placeBetHandler fl validateAccessToken (withMoneyFault env) now authHeader
    body db
  = (BetError 500 "Failed to update balance", withUsers db1 (users db)).
Proof.
  unfold placeBetHandler, GetUserByID, GetMatchByID, GetMatchByAPIID, PlaceBet,
    UpdateUserMoney.
  cbn [user_fails match_fails place_fails money_fails new_bet_id
       withMoneyFault].
  intros H.
  split_on ((authHeader =? "")%string
            || negb (String.prefix "Bearer " authHeader)).
  split_on (validateAccessToken (TrimPrefix authHeader "Bearer ")).
  split_on (user_fails env).
  split_on (find (hasUserID a) (users db)).
  destruct body as [req|]; try discriminate.
  cbv zeta in *.
  split_on ((req_MatchID req =? "")%string || (req_BetType req =? "")%string
            || f_leZero fl (req_BetAmount req) || f_leZero fl (req_Odds req)).
  split_on (f_gt fl (req_BetAmount req) (f_scanMoney fl (money u))).
  split_on (negb (req_BetType req =? "home")%string
            && negb (req_BetType req =? "draw")%string
            && negb (req_BetType req =? "away")%string).
  split_on (match_fails env).
  split_on (find (hasAPIID (req_MatchID req)) (epl_matches db)).
  split_on (CommenceTime m <? now).
  split_on (place_fails env).
  cbn [b_UserID b_BetAmount b_Odds b_PotentialWin] in *.
  split_on (negb (existsb (hasUserID (id u)) (users db))).
  split_on (f_storeMoney fl (req_BetAmount req)).
  split_on (f_storeOdds fl (req_Odds req)).
  split_on (f_storeMoney fl (f_mul fl (req_BetAmount req) (req_Odds req))).
  split_on (money_fails env).
  split_on (f_storeMoney fl
              (f_sub fl (f_scanMoney fl (money u)) (req_BetAmount req))).
  injection H as _ <-. reflexivity.
Qed.

(** X23.  Storing the wager and writing the balance are two separate
    writes: when a request would be accepted but the balance write fails,
    the reply is an error 500 while the wager of the accepted run stays
    stored and the balance is not reduced. *)
Theorem place_bet_not_atomic (fl : Float64)
    (validateAccessToken : string -> Res string) (env : PlaceEnv)
    (now : Time) (authHeader : string) (body : option (PlaceBetRequest fl))
    (db : DB) (info : BetInfo fl) (db1 : DB) :
  placeBetHandler fl validateAccessToken env now authHeader body db
  = (BetOK info, db1) ->
  exists db2,
    placeBetHandler fl validateAccessToken (withMoneyFault env) now authHeader
      body db
    = (BetError 500 "Failed to update balance", db2)
    /\ bets db2 = bets db1
    /\ (exists b, bets db2 = (bets db ++ [b])%list /\ status b = "pending")
    /\ users db2 = users db
    /\ epl_matches db2 = epl_matches db.
Proof.
  intros Hok.
  exists (withUsers db1 (users db)).
  split; [exact (placeBetHandler_money_fault _ _ _ _ _ _ _ _ _ Hok)|].
  split; [reflexivity|].
  destruct (placeBetHandler_cases fl validateAccessToken env now authHeader
              body db)
    as [[code [msg [Heq _]]]
       |[user [m [req [b [Hacc [_ [_ [_ [[_ Heq]|[v [_ [_ Heq]]]]]]]]]]]]];
    rewrite Heq in Hok; try discriminate.
  injection Hok as _ <-.
  split.
  - exists b. split; [reflexivity|].
    destruct Hacc as [_ [_ [_ [_ [_ [_ [_ [_ [_ [_ [Hb _]]]]]]]]]]].
    rewrite Hb. reflexivity.
  - split; reflexivity.
Qed.

Lemma place_bet_not_atomic_witness :
  exists db2,
    placeBetHandler exactCents tokenOf_demo (withMoneyFault placeEnv_demo)
      1600000000 "Bearer alice-token" (Some placeRequest_demo) ledgerDB_demo
    = (BetError 500 "Failed to update balance", db2)
    /\ bets db2
       = bets (snd (placeBetHandler exactCents tokenOf_demo placeEnv_demo
                      1600000000 "Bearer alice-token" (Some placeRequest_demo)
                      ledgerDB_demo))
    /\ (exists b, bets db2 = (bets ledgerDB_demo ++ [b])%list
                  /\ status b = "pending")
    /\ users db2 = users ledgerDB_demo
    /\ epl_matches db2 = epl_matches ledgerDB_demo.
Proof.
  apply (place_bet_not_atomic exactCents tokenOf_demo placeEnv_demo 1600000000
           "Bearer alice-token" (Some placeRequest_demo) ledgerDB_demo
           (mkBetInfo exactCents "bet-new" (Qmake 3 1) (Qmake 5 2) (Qmake 15 2)
              (Qmake 700 100))).
  reflexivity.
Defined.

Lemma find_hasAPIID_sameFixtureTime (apiID : string) (ms ms' : list Match) :
  Forall2 sameFixtureTime ms ms' ->
  match find (hasAPIID apiID) ms, find (hasAPIID apiID) ms' with
  | Some m, Some m' => CommenceTime m = CommenceTime m'
  | None, None => True
  | _, _ => False
  end.
Proof.
  induction 1 as [|m m' ms ms' [Hid Ht] _ IH]; simpl; [exact I|].
  assert (Hh : hasAPIID apiID m' = hasAPIID apiID m)
    by (unfold hasAPIID; rewrite Hid; reflexivity).
  rewrite Hh.
  destruct (hasAPIID apiID m); [exact Ht|exact IH].
Qed.

(** X24.  Placing a wager reads nothing of a match but its fixture
    identifier and its kick-off time: on two stores with the same users and
    wagers whose matches agree, row by row, on these two fields, a request
    gets the same reply and leaves the same wagers and balances.  The stored
    odds, the scores and the completed and calculated flags are not
    consulted, and the odds of the wager are those of the request. *)
Theorem place_bet_ignores_match_state (fl : Float64)
    (validateAccessToken : string -> Res string) (env : PlaceEnv)
    (now : Time) (authHeader : string) (body : option (PlaceBetRequest fl))
    (db db' : DB) :
  Forall2 sameFixtureTime (epl_matches db) (epl_matches db') ->
  bets db = bets db' ->
  users db = users db' ->
  let out :=
    placeBetHandler fl validateAccessToken env now authHeader body db in
  let out' :=
    placeBetHandler fl validateAccessToken env now authHeader body db' in
  fst out = fst out'
  /\ bets (snd out) = bets (snd out')
  /\ users (snd out) = users (snd out').
Proof.
  intros Hms Hbets Husers. cbv zeta.
  destruct db as [ms bs us], db' as [ms' bs' us'].
  cbn [epl_matches bets users] in Hms, Hbets, Husers. subst bs' us'.
  unfold placeBetHandler, GetUserByID, GetMatchByID, GetMatchByAPIID, PlaceBet,
    UpdateUserMoney.
  cbn [epl_matches bets users].
  destruct ((authHeader =? "")%string
            || negb (String.prefix "Bearer " authHeader));
    [cbn [fst snd]; auto|].
  destruct (validateAccessToken (TrimPrefix authHeader "Bearer ")) as [uid|];
    [|cbn [fst snd]; auto].
  destruct (user_fails env); [cbn [fst snd]; auto|].
  destruct (find (hasUserID uid) us) as [user|];
    [|cbn [fst snd]; auto].
  destruct body as [req|]; [|cbn [fst snd]; auto].
  cbv zeta.
  destruct ((req_MatchID req =? "")%string || (req_BetType req =? "")%string
            || f_leZero fl (req_BetAmount req) || f_leZero fl (req_Odds req));
    [cbn [fst snd]; auto|].
  destruct (f_gt fl (req_BetAmount req) (f_scanMoney fl (money user)));
    [cbn [fst snd]; auto|].
  destruct (negb (req_BetType req =? "home")%string
            && negb (req_BetType req =? "draw")%string
            && negb (req_BetType req =? "away")%string);
    [cbn [fst snd]; auto|].
  destruct (match_fails env); [cbn [fst snd]; auto|].
  pose proof (find_hasAPIID_sameFixtureTime (req_MatchID req) _ _ Hms) as Hfind.
  destruct (find (hasAPIID (req_MatchID req)) ms) as [m|];
    destruct (find (hasAPIID (req_MatchID req)) ms') as [m'|];
    try contradiction; [|cbn [fst snd]; auto].
  rewrite <- Hfind.
  destruct (CommenceTime m <? now); [cbn [fst snd]; auto|].
  destruct (place_fails env); [cbn [fst snd]; auto|].
  cbn [b_UserID b_BetAmount b_Odds b_PotentialWin].
  destruct (negb (existsb (hasUserID (id user)) us));
    [cbn [fst snd]; auto|].
  destruct (f_storeMoney fl (req_BetAmount req)); [|cbn [fst snd]; auto].
  destruct (f_storeOdds fl (req_Odds req)); [|cbn [fst snd]; auto].
  destruct (f_storeMoney fl (f_mul fl (req_BetAmount req) (req_Odds req)));
    [|cbn [fst snd]; auto].
  destruct (money_fails env);
    [cbn [fst snd withBets bets users]; repeat split|].
  destruct (f_storeMoney fl
              (f_sub fl (f_scanMoney fl (money user)) (req_BetAmount req)));
    cbn [fst snd withBets withUsers bets users]; repeat split.
Qed.

Lemma place_bet_ignores_match_state_witness :
  let out :=
    placeBetHandler exactCents tokenOf_demo placeEnv_demo 1600000000
      "Bearer alice-token" (Some placeRequest_demo) ledgerDB_demo in
  let out' :=
    placeBetHandler exactCents tokenOf_demo placeEnv_demo 1600000000
      "Bearer alice-token" (Some placeRequest_demo) flagsFlipped_demo in
  fst out = fst out'
  /\ bets (snd out) = bets (snd out')
  /\ users (snd out) = users (snd out').
Proof.
  apply (place_bet_ignores_match_state exactCents tokenOf_demo placeEnv_demo
           1600000000 "Bearer alice-token" (Some placeRequest_demo)
           ledgerDB_demo flagsFlipped_demo).
  - repeat constructor.
  - reflexivity.
  - reflexivity.
Defined.
